(** * A shallow embedding of [advanced-vector/vector.h]

    The header defines two class templates: [RawMemory<T>], an owner of
    uninitialised storage for a fixed number of slots, and [Vector<T>], a
    growable array that tracks how many leading slots hold constructed
    objects.

    Modelling choices.

    - Storage is a list of slots; a slot is [None] while it is raw memory and
      [Some x] while it holds a live object whose value is [x].  [RawMemory]
      is not copyable, so every buffer has one owner and is modelled as a
      value inside its owner.
    - [size_t] quantities are natural numbers.  The only subtractions the
      code performs without a guard ([--size_] on an empty vector and
      [size_ - distance] for a position past the end) are precondition
      violations; they are modelled by the outcome [Undefined].  Doubling
      cannot wrap: it happens only when [size_ == Capacity()], so the vector
      then holds that many live objects and their count is below [2^63].
    - [Allocate] computes the byte count [n * sizeof(T)] in the 64-bit
      [size_t].  For a count chosen by the caller ([Vector(size)],
      [Reserve], [Resize]) the product may wrap; the block then has fewer
      slots than [capacity_] says and constructing past its end is
      undefined ([Allocate_wrapping], [fits]).  For a count derived from
      the objects alive in a vector ([other.size_], [2 * size_]) the
      product does not wrap, and the block has the slots asked for.
    - Everything the element type does (construction, copy, move, assignment,
      destruction) and every allocation is an [op].  Each attempt is recorded
      in a trace, and an oracle of the element type decides from the trace so
      far whether the attempt raises.  Values behave regularly: a copy equals
      its source, a moved-to object has the source's former value and the
      source is left in the state [moved_from].
    - A method returns an [outcome]: normal return, a C++ exception (the
      object the method was called on survives in some state), or undefined
      behaviour (failed [assert], access to a slot without a live object).
    - Iterators and references into a vector are modelled by their offset
      from [begin()].  The arguments forwarded to a constructor of [T] are
      modelled by the value of the object they construct.  An lvalue
      argument of [Emplace] / [Insert] that refers to an element of the
      vector itself is read when the constructor runs ([Emplace_from],
      [Emplace_own]): in the in-place branch that is after the elements
      have been shifted.  An rvalue argument that refers to an element of
      the vector itself, which the constructor would leave moved-from, is
      outside the model.
    - Vector objects live in a store indexed by address, so that
      [this == &rhs] in the assignment operators can be expressed. *)

From Stdlib Require Import Arith Lia.
From stdpp Require Import base option list gmap.

Set Default Proof Using "Type".

(** ** Element-level operations, traces and element types *)

Inductive op (T : Type) : Type :=
| Alloc (n : nat)               (* operator new(n * sizeof(T)), n <> 0 *)
| Construct (v : T)             (* T(args...) for arbitrary args, giving v *)
| ValueInit                     (* T() *)
| CopyCtor (x : T)              (* T(const T&) *)
| MoveCtor (x : T)              (* T(T&&) *)
| CopyAssign (dst src : T)      (* T::operator=(const T&) *)
| MoveAssign (dst src : T)      (* T::operator=(T&&) *)
| Dtor (x : T).                 (* ~T() *)

Arguments Alloc {T} n.
Arguments Construct {T} v.
Arguments ValueInit {T}.
Arguments CopyCtor {T} x.
Arguments MoveCtor {T} x.
Arguments CopyAssign {T} dst src.
Arguments MoveAssign {T} dst src.
Arguments Dtor {T} x.

Inductive event (T : Type) : Type :=
| Did (o : op T)
| Raised (o : op T).

Arguments Did {T} o.
Arguments Raised {T} o.

Definition trace (T : Type) : Type := list (event T).

Inductive exn (T : Type) : Type :=
| BadAlloc
| ElementError (o : op T).

Arguments BadAlloc {T}.
Arguments ElementError {T} o.

(** What the templates know about [T]: the two traits [CopyN] branches on,
    [sizeof(T)], the value produced by value-initialisation, the state a
    moved-from object is left in, and which attempts raise. *)
Record ElementType (T : Type) : Type := {
  is_nothrow_move_constructible : bool;
  is_copy_constructible : bool;
  size_of : positive;
  value_init : T;
  moved_from : T -> T;
  raises : trace T -> op T -> bool
}.

Arguments is_nothrow_move_constructible {T} _.
Arguments size_of {T} _.
Arguments is_copy_constructible {T} _.
Arguments value_init {T} _.
Arguments moved_from {T} _ _.
Arguments raises {T} _ _ _.

(** The three ways a call can end.  [R] is what is returned, [S] the state
    that outlives the call also when it raises. *)
Inductive outcome (T R S : Type) : Type :=
| Normal (r : R) (s : S) (tr : trace T)
| Throws (e : exn T) (s : S) (tr : trace T)
| Undefined.

Arguments Normal {T R S} r s tr.
Arguments Throws {T R S} e s tr.
Arguments Undefined {T R S}.

(** Arguments forwarded to a constructor of [T] by [EmplaceBack] / [Emplace]:
    an lvalue ([PushBack(const T&)], copy constructor), an rvalue
    ([PushBack(T&&)], move constructor), or anything else.  The value is
    that of the object referred to when the constructor runs. *)
Inductive args (T : Type) : Type :=
| ByCopy (x : T)
| ByMove (x : T)
| ByArgs (v : T).

Arguments ByCopy {T} x.
Arguments ByMove {T} x.
Arguments ByArgs {T} v.

(** ** The two classes *)

Record RawMemory (T : Type) : Type := {
  buffer_ : list (option T);
  capacity_ : nat
}.

Arguments buffer_ {T} _.
Arguments capacity_ {T} _.

Record Vector (T : Type) : Type := {
  data_ : RawMemory T;
  size_ : nat
}.

Arguments data_ {T} _.
Arguments size_ {T} _.

(** Calls of the public interface, on vectors held in a store. *)
Inductive call (T : Type) : Type :=
| CallNew (a : nat)
| CallNewSized (a n : nat)
| CallNewCopy (a other : nat)
| CallNewMove (a other : nat)
| CallCopyAssign (this rhs : nat)
| CallMoveAssign (this rhs : nat)
| CallPushBack (this : nat) (x : args T)
| CallPopBack (this : nat)
| CallInsert (this pos : nat) (x : args T)
| CallInsertOwn (this pos k : nat)
| CallErase (this pos : nat)
| CallReserve (this n : nat)
| CallResize (this n : nat)
| CallSwap (this other : nat).

Arguments CallNew {T} a.
Arguments CallNewSized {T} a n.
Arguments CallNewCopy {T} a other.
Arguments CallNewMove {T} a other.
Arguments CallCopyAssign {T} this rhs.
Arguments CallMoveAssign {T} this rhs.
Arguments CallPushBack {T} this x.
Arguments CallPopBack {T} this.
Arguments CallInsert {T} this pos x.
Arguments CallInsertOwn {T} this pos k.
Arguments CallErase {T} this pos.
Arguments CallReserve {T} this n.
Arguments CallResize {T} this n.
Arguments CallSwap {T} this other.

(** ** Element types used in the examples *)

(** An element type like [int]: nothing raises, moving leaves the source
    as it was. *)
Definition plain : ElementType nat := {|
  is_nothrow_move_constructible := true;
  is_copy_constructible := true;
  size_of := 4;
  value_init := 0;
  moved_from := fun x => x;
  raises := fun _ _ => false
|}.

Definition is_copy_attempt (ev : event nat) : bool :=
  match ev with
  | Did (CopyCtor _) | Raised (CopyCtor _) => true
  | _ => false
  end.

(** An instrumented element type: its copy constructor raises on the
    invocation with number [k] (counting from zero); its move constructor is
    not declared non-raising. *)
Definition throwing_copy (k : nat) : ElementType nat := {|
  is_nothrow_move_constructible := false;
  is_copy_constructible := true;
  size_of := 4;
  value_init := 0;
  moved_from := fun x => x;
  raises := fun tr o =>
    match o with
    | CopyCtor _ => length (filter (fun ev => is_copy_attempt ev = true) tr) =? k
    | _ => false
    end
|}.



(** A string-like element type: non-raising move that empties the source
    (the empty value is [0]). *)
Definition emptied_by_move : ElementType nat := {|
  is_nothrow_move_constructible := true;
  is_copy_constructible := true;
  size_of := 4;
  value_init := 0;
  moved_from := fun _ => 0;
  raises := fun _ _ => false
|}.

Section Model.

Context {T : Type} (E : ElementType T).

(** *** Element operations *)

(** Destructors and a move constructor declared [noexcept] never raise;
    everything else asks the oracle. *)
Definition may_raise (tr : trace T) (o : op T) : bool :=
  match o with
  | Dtor _ => false
  | MoveCtor _ => negb (is_nothrow_move_constructible E) && raises E tr o
  | _ => raises E tr o
  end.

Definition arg_op (a : args T) : op T :=
  match a with
  | ByCopy x => CopyCtor x
  | ByMove x => MoveCtor x
  | ByArgs v => Construct v
  end.

Definition arg_value (a : args T) : T :=
  match a with
  | ByCopy x | ByMove x | ByArgs x => x
  end.

(** [new (buf + i) T(args...)] *)
Definition construct_at (buf : list (option T)) (i : nat) (a : args T)
    (tr : trace T) : outcome T unit (list (option T)) :=
  if i <? length buf then
    if may_raise tr (arg_op a)
    then Throws (ElementError (arg_op a)) buf (tr ++ [Raised (arg_op a)])
    else Normal tt (<[i := Some (arg_value a)]> buf) (tr ++ [Did (arg_op a)])
  else Undefined.

(** [std::destroy_n(buf + first, n)] *)
Fixpoint destroy_n (buf : list (option T)) (first n : nat) (tr : trace T)
    : outcome T unit (list (option T)) :=
  match n with
  | 0 => Normal tt buf tr
  | S n' =>
      match buf !! first with
      | Some (Some x) =>
          destroy_n (<[first := None]> buf) (S first) n' (tr ++ [Did (Dtor x)])
      | _ => Undefined
      end
  end.

(** The loop of [std::uninitialized_copy_n(src + first, n, dst + result)];
    [cur] is the next slot to construct.  When a copy raises, the objects
    constructed so far, [dst + result .. dst + cur), are destroyed and the
    exception is passed on. *)
Fixpoint uninitialized_copy_loop (src : list (option T)) (first n : nat)
    (dst : list (option T)) (result cur : nat) (tr : trace T)
    : outcome T unit (list (option T)) :=
  match n with
  | 0 => Normal tt dst tr
  | S n' =>
      match src !! first with
      | Some (Some x) =>
          if cur <? length dst then
            if may_raise tr (CopyCtor x) then
              match destroy_n dst result (cur - result)
                      (tr ++ [Raised (CopyCtor x)]) with
              | Normal _ dst' tr' => Throws (ElementError (CopyCtor x)) dst' tr'
              | _ => Undefined
              end
            else
              uninitialized_copy_loop src (S first) n'
                (<[cur := Some x]> dst) result (S cur)
                (tr ++ [Did (CopyCtor x)])
          else Undefined
      | _ => Undefined
      end
  end.

Definition uninitialized_copy_n (src : list (option T)) (first n : nat)
    (dst : list (option T)) (result : nat) (tr : trace T)
    : outcome T unit (list (option T)) :=
  uninitialized_copy_loop src first n dst result result tr.

(** The loop of [std::uninitialized_move_n]; the state that survives is the
    pair (source buffer, destination buffer). *)
Fixpoint uninitialized_move_loop (src : list (option T)) (first n : nat)
    (dst : list (option T)) (result cur : nat) (tr : trace T)
    : outcome T unit (list (option T) * list (option T)) :=
  match n with
  | 0 => Normal tt (src, dst) tr
  | S n' =>
      match src !! first with
      | Some (Some x) =>
          if cur <? length dst then
            if may_raise tr (MoveCtor x) then
              match destroy_n dst result (cur - result)
                      (tr ++ [Raised (MoveCtor x)]) with
              | Normal _ dst' tr' =>
                  Throws (ElementError (MoveCtor x)) (src, dst') tr'
              | _ => Undefined
              end
            else
              uninitialized_move_loop
                (<[first := Some (moved_from E x)]> src) (S first) n'
                (<[cur := Some x]> dst) result (S cur)
                (tr ++ [Did (MoveCtor x)])
          else Undefined
      | _ => Undefined
      end
  end.

Definition uninitialized_move_n (src : list (option T)) (first n : nat)
    (dst : list (option T)) (result : nat) (tr : trace T)
    : outcome T unit (list (option T) * list (option T)) :=
  uninitialized_move_loop src first n dst result result tr.

(** The loop of [std::uninitialized_value_construct_n(dst + result, n)]. *)
Fixpoint uninitialized_value_construct_loop (n : nat) (dst : list (option T))
    (result cur : nat) (tr : trace T) : outcome T unit (list (option T)) :=
  match n with
  | 0 => Normal tt dst tr
  | S n' =>
      if cur <? length dst then
        if may_raise tr ValueInit then
          match destroy_n dst result (cur - result)
                  (tr ++ [Raised ValueInit]) with
          | Normal _ dst' tr' => Throws (ElementError ValueInit) dst' tr'
          | _ => Undefined
          end
        else
          uninitialized_value_construct_loop n'
            (<[cur := Some (value_init E)]> dst) result (S cur)
            (tr ++ [Did ValueInit])
      else Undefined
  end.

Definition uninitialized_value_construct_n (dst : list (option T))
    (result n : nat) (tr : trace T) : outcome T unit (list (option T)) :=
  uninitialized_value_construct_loop n dst result result tr.

(** [std::copy_n(src + first, n, dst + result)]: element-wise copy
    assignment onto live objects. *)
Fixpoint copy_n (src : list (option T)) (first n : nat)
    (dst : list (option T)) (result : nat) (tr : trace T)
    : outcome T unit (list (option T)) :=
  match n with
  | 0 => Normal tt dst tr
  | S n' =>
      match src !! first, dst !! result with
      | Some (Some x), Some (Some d) =>
          if may_raise tr (CopyAssign d x)
          then Throws (ElementError (CopyAssign d x)) dst
                 (tr ++ [Raised (CopyAssign d x)])
          else copy_n src (S first) n' (<[result := Some x]> dst) (S result)
                 (tr ++ [Did (CopyAssign d x)])
      | _, _ => Undefined
      end
  end.

(** [buf[dst] = std::move(buf[src])] for two distinct slots of one buffer. *)
Definition move_assign_slot (buf : list (option T)) (dst src : nat)
    (tr : trace T) : outcome T unit (list (option T)) :=
  match buf !! dst, buf !! src with
  | Some (Some d), Some (Some x) =>
      if may_raise tr (MoveAssign d x)
      then Throws (ElementError (MoveAssign d x)) buf
             (tr ++ [Raised (MoveAssign d x)])
      else Normal tt
             (<[src := Some (moved_from E x)]> (<[dst := Some x]> buf))
             (tr ++ [Did (MoveAssign d x)])
  | _, _ => Undefined
  end.

(** [std::move(buf + first, buf + first + n, buf + d_first)], front to back. *)
Fixpoint std_move (buf : list (option T)) (first n d_first : nat)
    (tr : trace T) : outcome T unit (list (option T)) :=
  match n with
  | 0 => Normal tt buf tr
  | S n' =>
      match move_assign_slot buf d_first first tr with
      | Normal _ buf' tr' => std_move buf' (S first) n' (S d_first) tr'
      | other => other
      end
  end.

(** [std::move_backward(buf + last - n, buf + last, buf + d_last)], back to
    front: each step decrements both [last] and [d_last] and move-assigns
    the object at [last] to the one at [d_last]. *)
Fixpoint move_backward (buf : list (option T)) (n last d_last : nat)
    (tr : trace T) : outcome T unit (list (option T)) :=
  match n with
  | 0 => Normal tt buf tr
  | S n' =>
      match last, d_last with
      | S last', S d_last' =>
          match move_assign_slot buf d_last' last' tr with
          | Normal _ buf' tr' => move_backward buf' n' last' d_last' tr'
          | other => other
          end
      | _, _ => Undefined
      end
  end.

(** [buf[i].~T()] *)
Definition destroy_at (buf : list (option T)) (i : nat) (tr : trace T)
    : outcome T unit (list (option T)) :=
  match buf !! i with
  | Some (Some x) => Normal tt (<[i := None]> buf) (tr ++ [Did (Dtor x)])
  | _ => Undefined
  end.

(** [new (buf + dst) T(std::move(buf[src]))] within one buffer. *)
Definition move_construct_at (buf : list (option T)) (dst src : nat)
    (tr : trace T) : outcome T unit (list (option T)) :=
  match buf !! src with
  | Some (Some x) =>
      if dst <? length buf then
        if may_raise tr (MoveCtor x)
        then Throws (ElementError (MoveCtor x)) buf
               (tr ++ [Raised (MoveCtor x)])
        else Normal tt
               (<[src := Some (moved_from E x)]> (<[dst := Some x]> buf))
               (tr ++ [Did (MoveCtor x)])
      else Undefined
  | _ => Undefined
  end.

(** *** RawMemory *)

Definition RawMemory_default : RawMemory T :=
  {| buffer_ := []; capacity_ := 0 |}.

(** [n * sizeof(T)] as [Allocate] computes it, in the 64-bit [size_t]. *)
Definition request_bytes (n : nat) : N :=
  ((N.of_nat n * N.pos (size_of E)) mod 2 ^ 64)%N.

(** The number of objects of type [T] a block of that many bytes has room
    for. *)
Definition block_slots (n : nat) : nat :=
  N.to_nat (request_bytes n / N.pos (size_of E)).

(** The byte count of a request for [n] objects is representable, so that
    the block has room for all [n] of them. *)
Definition fits (n : nat) : Prop :=
  (N.of_nat n * N.pos (size_of E) < 2 ^ 64)%N.

(** [Allocate(n)] for a count chosen by the caller of the vector
    ([Vector(size)], [Reserve], [Resize]): no request is made for [n = 0]
    (null pointer); otherwise [operator new] is asked for
    [n * sizeof(T)] bytes, the product taken in [size_t].  When the product
    wraps the block is shorter than [n] objects, and the slots past its end
    do not exist: constructing there is undefined. *)
Definition Allocate_wrapping (n : nat) (tr : trace T)
    : outcome T (list (option T)) unit :=
  if n =? 0 then Normal [] tt tr
  else if may_raise tr (Alloc n)
       then Throws BadAlloc tt (tr ++ [Raised (Alloc n)])
       else Normal (replicate (block_slots n) None) tt (tr ++ [Did (Alloc n)]).

(** [explicit RawMemory(size_t capacity)] for such a count: [capacity_] is
    the count asked for, whatever the block holds. *)
Definition RawMemory_new_wrapping (capacity : nat) (tr : trace T)
    : outcome T (RawMemory T) unit :=
  match Allocate_wrapping capacity tr with
  | Normal buf _ tr' =>
      Normal {| buffer_ := buf; capacity_ := capacity |} tt tr'
  | Throws e _ tr' => Throws e tt tr'
  | Undefined => Undefined
  end.

(** [Allocate(n)] for a count derived from the objects alive in a vector
    ([other.size_] in the copy constructor, [2 * size_] on growth).  Those
    objects occupy [size_ * sizeof(T)] bytes of one block, less than half of
    what [size_t] can count, so the product [n * sizeof(T)] does not wrap
    and the block has room for [n] objects. *)
Definition Allocate (n : nat) (tr : trace T)
    : outcome T (list (option T)) unit :=
  if n =? 0 then Normal [] tt tr
  else if may_raise tr (Alloc n)
       then Throws BadAlloc tt (tr ++ [Raised (Alloc n)])
       else Normal (replicate n None) tt (tr ++ [Did (Alloc n)]).

(** [explicit RawMemory(size_t capacity)] for such a count. *)
Definition RawMemory_new (capacity : nat) (tr : trace T)
    : outcome T (RawMemory T) unit :=
  match Allocate capacity tr with
  | Normal buf _ tr' =>
      Normal {| buffer_ := buf; capacity_ := capacity |} tt tr'
  | Throws e _ tr' => Throws e tt tr'
  | Undefined => Undefined
  end.

(** [RawMemory(RawMemory&& other)]: the new object and what is left of
    [other]. *)
Definition RawMemory_move (other : RawMemory T) : RawMemory T * RawMemory T :=
  ({| buffer_ := buffer_ other; capacity_ := capacity_ other |},
   {| buffer_ := []; capacity_ := 0 |}).

(** [operator+(offset)], with its [assert(offset <= capacity_)]. *)
Definition RawMemory_plus (m : RawMemory T) (offset : nat) : option nat :=
  if offset <=? capacity_ m then Some offset else None.

(** [operator[](index)], with its [assert(index < capacity_)]. *)
Definition RawMemory_index (m : RawMemory T) (index : nat) : option nat :=
  if index <? capacity_ m then Some index else None.

(** [Swap(other)]: the two objects after the call. *)
Definition RawMemory_Swap (m other : RawMemory T)
    : RawMemory T * RawMemory T :=
  ({| buffer_ := buffer_ other; capacity_ := capacity_ other |},
   {| buffer_ := buffer_ m; capacity_ := capacity_ m |}).

Definition RawMemory_Capacity (m : RawMemory T) : nat := capacity_ m.

(** *** Vector *)

(** [this] with the slots of its buffer replaced. *)
Definition with_buffer (this : Vector T) (buf : list (option T)) : Vector T :=
  {| data_ := {| buffer_ := buf; capacity_ := capacity_ (data_ this) |};
     size_ := size_ this |}.

(** [Vector() = default] *)
Definition Vector_default : Vector T :=
  {| data_ := RawMemory_default; size_ := 0 |}.

(** [explicit Vector(size_t size)] *)
Definition Vector_sized (size : nat) (tr : trace T)
    : outcome T (Vector T) unit :=
  match RawMemory_new_wrapping size tr with
  | Normal data _ tr1 =>
      match uninitialized_value_construct_n (buffer_ data) 0 size tr1 with
      | Normal _ buf tr2 =>
          Normal {| data_ := {| buffer_ := buf; capacity_ := capacity_ data |};
                    size_ := size |} tt tr2
      | Throws e _ tr2 => Throws e tt tr2
      | Undefined => Undefined
      end
  | Throws e _ tr1 => Throws e tt tr1
  | Undefined => Undefined
  end.

(** [~Vector()] *)
Definition Vector_dtor (this : Vector T) (tr : trace T) : outcome T unit unit :=
  match destroy_n (buffer_ (data_ this)) 0 (size_ this) tr with
  | Normal _ _ tr' => Normal tt tt tr'
  | Throws e _ tr' => Throws e tt tr'
  | Undefined => Undefined
  end.

(** [Vector(const Vector& other)] *)
Definition Vector_copy (other : Vector T) (tr : trace T)
    : outcome T (Vector T) unit :=
  match RawMemory_new (size_ other) tr with
  | Normal data _ tr1 =>
      match uninitialized_copy_n (buffer_ (data_ other)) 0 (size_ other)
              (buffer_ data) 0 tr1 with
      | Normal _ buf tr2 =>
          Normal {| data_ := {| buffer_ := buf; capacity_ := capacity_ data |};
                    size_ := size_ other |} tt tr2
      | Throws e _ tr2 => Throws e tt tr2
      | Undefined => Undefined
      end
  | Throws e _ tr1 => Throws e tt tr1
  | Undefined => Undefined
  end.

(** [Vector(Vector&& other) noexcept]: the new vector and what is left of
    [other]. *)
Definition Vector_move (other : Vector T) : Vector T * Vector T :=
  let '(data, other_data) := RawMemory_move (data_ other) in
  ({| data_ := data; size_ := size_ other |},
   {| data_ := other_data; size_ := 0 |}).

(** [Swap(Vector& other) noexcept] on two distinct objects: [this] and
    [other] after the call. *)
Definition Swap (this other : Vector T) : Vector T * Vector T :=
  let '(d, od) := RawMemory_Swap (data_ this) (data_ other) in
  ({| data_ := d; size_ := size_ other |},
   {| data_ := od; size_ := size_ this |}).

Definition Size (this : Vector T) : nat := size_ this.

Definition Capacity (this : Vector T) : nat := RawMemory_Capacity (data_ this).

(** [operator[](index)]: the checked offset of the slot referred to. *)
Definition index_ref (this : Vector T) (index : nat) : option nat :=
  if index <? size_ this then RawMemory_index (data_ this) index else None.

(** Reading through [operator[]]. *)
Definition at_ (this : Vector T) (index : nat) : option T :=
  match index_ref this index with
  | Some i => mjoin (buffer_ (data_ this) !! i)
  | None => None
  end.

(** [CopyN(data + first, n, new_data + result)]: the branch is taken on the
    traits of [T] alone. *)
Definition CopyN (data : list (option T)) (first n : nat)
    (new_data : list (option T)) (result : nat) (tr : trace T)
    : outcome T unit (list (option T) * list (option T)) :=
  if is_nothrow_move_constructible E || negb (is_copy_constructible E)
  then uninitialized_move_n data first n new_data result tr
  else
    match uninitialized_copy_n data first n new_data result tr with
    | Normal _ d tr' => Normal tt (data, d) tr'
    | Throws e d tr' => Throws e (data, d) tr'
    | Undefined => Undefined
    end.

(** [EmplaceBack(args...)]; the reference returned is modelled by the offset
    of the new element. *)
Definition EmplaceBack (a : args T) (this : Vector T) (tr : trace T)
    : outcome T nat (Vector T) :=
  if size_ this =? Capacity this then
    match RawMemory_new (if size_ this =? 0 then 1 else size_ this * 2) tr with
    | Normal new_data _ tr1 =>
        match RawMemory_plus new_data (size_ this) with
        | Some p =>
            match construct_at (buffer_ new_data) p a tr1 with
            | Normal _ nb tr2 =>
                match CopyN (buffer_ (data_ this)) 0 (size_ this) nb 0 tr2 with
                | Normal _ (ob, nb') tr3 =>
                    match destroy_n ob 0 (size_ this) tr3 with
                    | Normal _ _ tr4 =>
                        let this' :=
                          {| data_ := {| buffer_ := nb';
                                         capacity_ := capacity_ new_data |};
                             size_ := S (size_ this) |} in
                        match index_ref this' (size_ this' - 1) with
                        | Some r => Normal r this' tr4
                        | None => Undefined
                        end
                    | _ => Undefined
                    end
                | Throws e (ob, _) tr3 => Throws e (with_buffer this ob) tr3
                | Undefined => Undefined
                end
            | Throws e _ tr2 => Throws e this tr2
            | Undefined => Undefined
            end
        | None => Undefined
        end
    | Throws e _ tr1 => Throws e this tr1
    | Undefined => Undefined
    end
  else
    match RawMemory_plus (data_ this) (size_ this) with
    | Some p =>
        match construct_at (buffer_ (data_ this)) p a tr with
        | Normal _ b tr1 =>
            let this' :=
              {| data_ := {| buffer_ := b; capacity_ := capacity_ (data_ this) |};
                 size_ := S (size_ this) |} in
            match index_ref this' (size_ this' - 1) with
            | Some r => Normal r this' tr1
            | None => Undefined
            end
        | Throws e _ tr1 => Throws e this tr1
        | Undefined => Undefined
        end
    | None => Undefined
    end.

(** [PushBack(value)] *)
Definition PushBack (value : args T) (this : Vector T) (tr : trace T)
    : outcome T unit (Vector T) :=
  match EmplaceBack value this tr with
  | Normal _ this' tr' => Normal tt this' tr'
  | Throws e this' tr' => Throws e this' tr'
  | Undefined => Undefined
  end.

(** [PopBack()] *)
Definition PopBack (this : Vector T) (tr : trace T)
    : outcome T unit (Vector T) :=
  match size_ this with
  | 0 => Undefined
  | S size' =>
      match RawMemory_index (data_ this) size' with
      | Some i =>
          match destroy_at (buffer_ (data_ this)) i tr with
          | Normal _ b tr' =>
              Normal tt
                {| data_ := {| buffer_ := b; capacity_ := capacity_ (data_ this) |};
                   size_ := size' |} tr'
          | _ => Undefined
          end
      | None => Undefined
      end
  end.

(** [Emplace(pos, args...)] for arguments that do not refer to an element
    of the vector itself (for those see [Emplace_from]); [pos] and the
    iterator returned are offsets from [begin()]. *)
Definition Emplace (pos : nat) (a : args T) (this : Vector T) (tr : trace T)
    : outcome T nat (Vector T) :=
  let distance := pos in
  if size_ this =? Capacity this then
    match RawMemory_new (if size_ this =? 0 then 1 else size_ this * 2) tr with
    | Normal new_data _ tr1 =>
        match RawMemory_plus new_data distance with
        | Some p =>
            match construct_at (buffer_ new_data) p a tr1 with
            | Normal _ nb tr2 =>
                match CopyN (buffer_ (data_ this)) 0 distance nb 0 tr2 with
                | Normal _ (ob, nb1) tr3 =>
                    match RawMemory_plus (data_ this) distance with
                    | Some q =>
                        if distance <=? size_ this then
                          match CopyN ob q (size_ this - distance)
                                  nb1 (distance + 1) tr3 with
                          | Normal _ (ob2, nb2) tr4 =>
                              match destroy_n ob2 0 (size_ this) tr4 with
                              | Normal _ _ tr5 =>
                                  let data' :=
                                    {| buffer_ := nb2;
                                       capacity_ := capacity_ new_data |} in
                                  match RawMemory_plus data' distance with
                                  | Some r =>
                                      Normal r
                                        {| data_ := data';
                                           size_ := S (size_ this) |} tr5
                                  | None => Undefined
                                  end
                              | _ => Undefined
                              end
                          | Throws e (ob2, nb2) tr4 =>
                              (* catch: destroy_n(new_data, distance + 1) *)
                              match destroy_n nb2 0 (distance + 1) tr4 with
                              | Normal _ _ tr5 =>
                                  Throws e (with_buffer this ob2) tr5
                              | _ => Undefined
                              end
                          | Undefined => Undefined
                          end
                        else Undefined
                    | None => Undefined
                    end
                | Throws e (ob, nb1) tr3 =>
                    (* catch: tmp->~T() *)
                    match destroy_at nb1 p tr3 with
                    | Normal _ _ tr4 => Throws e (with_buffer this ob) tr4
                    | _ => Undefined
                    end
                | Undefined => Undefined
                end
            | Throws e _ tr2 => Throws e this tr2
            | Undefined => Undefined
            end
        | None => Undefined
        end
    | Throws e _ tr1 => Throws e this tr1
    | Undefined => Undefined
    end
  else
    if distance <? size_ this then
      match RawMemory_plus (data_ this) (size_ this) with
      | Some e_ =>
          match move_construct_at (buffer_ (data_ this)) e_ (e_ - 1) tr with
          | Normal _ b1 tr1 =>
              match move_backward b1 (e_ - 1 - pos) (e_ - 1) e_ tr1 with
              | Normal _ b2 tr2 =>
                  (* the temporary T(args...) *)
                  if may_raise tr2 (arg_op a) then
                    Throws (ElementError (arg_op a)) (with_buffer this b2)
                      (tr2 ++ [Raised (arg_op a)])
                  else
                    let tmp := arg_value a in
                    let tr3 := tr2 ++ [Did (arg_op a)] in
                    match RawMemory_index (data_ this) distance with
                    | Some i =>
                        match b2 !! i with
                        | Some (Some d) =>
                            if may_raise tr3 (MoveAssign d tmp) then
                              Throws (ElementError (MoveAssign d tmp))
                                (with_buffer this b2)
                                (tr3 ++ [Raised (MoveAssign d tmp);
                                         Did (Dtor tmp)])
                            else
                              let data' :=
                                {| buffer_ := <[i := Some tmp]> b2;
                                   capacity_ := capacity_ (data_ this) |} in
                              match RawMemory_plus data' distance with
                              | Some r =>
                                  Normal r
                                    {| data_ := data';
                                       size_ := S (size_ this) |}
                                    (tr3 ++ [Did (MoveAssign d tmp);
                                             Did (Dtor (moved_from E tmp))])
                              | None => Undefined
                              end
                        | _ => Undefined
                        end
                    | None => Undefined
                    end
              | Throws e b2 tr2 => Throws e (with_buffer this b2) tr2
              | Undefined => Undefined
              end
          | Throws e b1 tr1 => Throws e (with_buffer this b1) tr1
          | Undefined => Undefined
          end
      | None => Undefined
      end
    else
      match RawMemory_plus (data_ this) distance with
      | Some p =>
          match construct_at (buffer_ (data_ this)) p a tr with
          | Normal _ b tr1 =>
              let data' :=
                {| buffer_ := b; capacity_ := capacity_ (data_ this) |} in
              match RawMemory_plus data' distance with
              | Some r =>
                  Normal r {| data_ := data'; size_ := S (size_ this) |} tr1
              | None => Undefined
              end
          | Throws e _ tr1 => Throws e this tr1
          | Undefined => Undefined
          end
      | None => Undefined
      end.

(** [Insert(pos, value)] *)
Definition Insert (pos : nat) (value : args T) (this : Vector T)
    (tr : trace T) : outcome T nat (Vector T) :=
  Emplace pos value this tr.

(** [Emplace(pos, value)] for an lvalue [value] that may refer into the
    vector itself.  [value] gives, for a state of the buffer, the argument
    the constructor of [T] receives from the object the reference denotes
    in that state; [None] when it denotes no object.  It is read at the
    moment the constructor runs: on the growth path before any element is
    relocated, in place at the end before anything else, and in place in
    the middle only after the last element has been move-constructed one
    slot up and the elements from [pos] on have been shifted by
    [move_backward]. *)
Definition Emplace_from (pos : nat)
    (value : list (option T) -> option (args T)) (this : Vector T)
    (tr : trace T) : outcome T nat (Vector T) :=
  let distance := pos in
  if size_ this =? Capacity this then
    match RawMemory_new (if size_ this =? 0 then 1 else size_ this * 2) tr with
    | Normal new_data _ tr1 =>
        match RawMemory_plus new_data distance with
        | Some p =>
            match value (buffer_ (data_ this)) with
            | None => Undefined
            | Some a =>
            match construct_at (buffer_ new_data) p a tr1 with
            | Normal _ nb tr2 =>
                match CopyN (buffer_ (data_ this)) 0 distance nb 0 tr2 with
                | Normal _ (ob, nb1) tr3 =>
                    match RawMemory_plus (data_ this) distance with
                    | Some q =>
                        if distance <=? size_ this then
                          match CopyN ob q (size_ this - distance)
                                  nb1 (distance + 1) tr3 with
                          | Normal _ (ob2, nb2) tr4 =>
                              match destroy_n ob2 0 (size_ this) tr4 with
                              | Normal _ _ tr5 =>
                                  let data' :=
                                    {| buffer_ := nb2;
                                       capacity_ := capacity_ new_data |} in
                                  match RawMemory_plus data' distance with
                                  | Some r =>
                                      Normal r
                                        {| data_ := data';
                                           size_ := S (size_ this) |} tr5
                                  | None => Undefined
                                  end
                              | _ => Undefined
                              end
                          | Throws e (ob2, nb2) tr4 =>
                              (* catch: destroy_n(new_data, distance + 1) *)
                              match destroy_n nb2 0 (distance + 1) tr4 with
                              | Normal _ _ tr5 =>
                                  Throws e (with_buffer this ob2) tr5
                              | _ => Undefined
                              end
                          | Undefined => Undefined
                          end
                        else Undefined
                    | None => Undefined
                    end
                | Throws e (ob, nb1) tr3 =>
                    (* catch: tmp->~T() *)
                    match destroy_at nb1 p tr3 with
                    | Normal _ _ tr4 => Throws e (with_buffer this ob) tr4
                    | _ => Undefined
                    end
                | Undefined => Undefined
                end
            | Throws e _ tr2 => Throws e this tr2
            | Undefined => Undefined
            end
            end
        | None => Undefined
        end
    | Throws e _ tr1 => Throws e this tr1
    | Undefined => Undefined
    end
  else
    if distance <? size_ this then
      match RawMemory_plus (data_ this) (size_ this) with
      | Some e_ =>
          match move_construct_at (buffer_ (data_ this)) e_ (e_ - 1) tr with
          | Normal _ b1 tr1 =>
              match move_backward b1 (e_ - 1 - pos) (e_ - 1) e_ tr1 with
              | Normal _ b2 tr2 =>
                  (* the temporary T(value), built from what the reference
                     denotes now *)
                  match value b2 with
                  | None => Undefined
                  | Some a =>
                  if may_raise tr2 (arg_op a) then
                    Throws (ElementError (arg_op a)) (with_buffer this b2)
                      (tr2 ++ [Raised (arg_op a)])
                  else
                    let tmp := arg_value a in
                    let tr3 := tr2 ++ [Did (arg_op a)] in
                    match RawMemory_index (data_ this) distance with
                    | Some i =>
                        match b2 !! i with
                        | Some (Some d) =>
                            if may_raise tr3 (MoveAssign d tmp) then
                              Throws (ElementError (MoveAssign d tmp))
                                (with_buffer this b2)
                                (tr3 ++ [Raised (MoveAssign d tmp);
                                         Did (Dtor tmp)])
                            else
                              let data' :=
                                {| buffer_ := <[i := Some tmp]> b2;
                                   capacity_ := capacity_ (data_ this) |} in
                              match RawMemory_plus data' distance with
                              | Some r =>
                                  Normal r
                                    {| data_ := data';
                                       size_ := S (size_ this) |}
                                    (tr3 ++ [Did (MoveAssign d tmp);
                                             Did (Dtor (moved_from E tmp))])
                              | None => Undefined
                              end
                        | _ => Undefined
                        end
                    | None => Undefined
                    end
                  end
              | Throws e b2 tr2 => Throws e (with_buffer this b2) tr2
              | Undefined => Undefined
              end
          | Throws e b1 tr1 => Throws e (with_buffer this b1) tr1
          | Undefined => Undefined
          end
      | None => Undefined
      end
    else
      match RawMemory_plus (data_ this) distance with
      | Some p =>
          match value (buffer_ (data_ this)) with
          | None => Undefined
          | Some a =>
          match construct_at (buffer_ (data_ this)) p a tr with
          | Normal _ b tr1 =>
              let data' :=
                {| buffer_ := b; capacity_ := capacity_ (data_ this) |} in
              match RawMemory_plus data' distance with
              | Some r =>
                  Normal r {| data_ := data'; size_ := S (size_ this) |} tr1
              | None => Undefined
              end
          | Throws e _ tr1 => Throws e this tr1
          | Undefined => Undefined
          end
          end
      | None => Undefined
      end.


(** What an lvalue reference to slot [i] of the buffer of the vector
    denotes: the copy constructor receives the object in that slot. *)
Definition own_element (i : nat) (buf : list (option T)) : option (args T) :=
  match buf !! i with
  | Some (Some x) => Some (ByCopy x)
  | _ => None
  end.

(** [Emplace(pos, v[k])] called on [v] itself: [operator[]] is evaluated
    before the call and yields a reference to slot [k]. *)
Definition Emplace_own (pos k : nat) (this : Vector T) (tr : trace T)
    : outcome T nat (Vector T) :=
  match index_ref this k with
  | Some i => Emplace_from pos (own_element i) this tr
  | None => Undefined
  end.

(** [Insert(pos, v[k])] called on [v] itself. *)
Definition Insert_own (pos k : nat) (this : Vector T) (tr : trace T)
    : outcome T nat (Vector T) :=
  Emplace_own pos k this tr.

(** [Erase(pos)] *)
Definition Erase (pos : nat) (this : Vector T) (tr : trace T)
    : outcome T nat (Vector T) :=
  match RawMemory_plus (data_ this) (size_ this) with
  | Some e_ =>
      if S pos <=? e_ then
        match std_move (buffer_ (data_ this)) (S pos) (e_ - S pos) pos tr with
        | Normal _ b tr1 =>
            match size_ this with
            | 0 => Undefined
            | S size' =>
                match RawMemory_index (data_ this) size' with
                | Some i =>
                    match destroy_at b i tr1 with
                    | Normal _ b' tr2 =>
                        Normal pos
                          {| data_ := {| buffer_ := b';
                                         capacity_ := capacity_ (data_ this) |};
                             size_ := size' |} tr2
                    | _ => Undefined
                    end
                | None => Undefined
                end
            end
        | Throws e b tr1 => Throws e (with_buffer this b) tr1
        | Undefined => Undefined
        end
      else Undefined
  | None => Undefined
  end.

(** [Reserve(new_capacity)] *)
Definition Reserve (new_capacity : nat) (this : Vector T) (tr : trace T)
    : outcome T unit (Vector T) :=
  if new_capacity <=? RawMemory_Capacity (data_ this) then Normal tt this tr
  else
    match RawMemory_new_wrapping new_capacity tr with
    | Normal new_data _ tr1 =>
        match CopyN (buffer_ (data_ this)) 0 (size_ this)
                (buffer_ new_data) 0 tr1 with
        | Normal _ (ob, nb) tr2 =>
            match destroy_n ob 0 (size_ this) tr2 with
            | Normal _ _ tr3 =>
                Normal tt
                  {| data_ := {| buffer_ := nb;
                                 capacity_ := capacity_ new_data |};
                     size_ := size_ this |} tr3
            | _ => Undefined
            end
        | Throws e (ob, _) tr2 => Throws e (with_buffer this ob) tr2
        | Undefined => Undefined
        end
    | Throws e _ tr1 => Throws e this tr1
    | Undefined => Undefined
    end.

(** [Resize(new_size)] *)
Definition Resize (new_size : nat) (this : Vector T) (tr : trace T)
    : outcome T unit (Vector T) :=
  if new_size <? size_ this then
    match RawMemory_plus (data_ this) new_size with
    | Some p =>
        match destroy_n (buffer_ (data_ this)) p (size_ this - new_size) tr with
        | Normal _ b tr1 =>
            Normal tt
              {| data_ := {| buffer_ := b; capacity_ := capacity_ (data_ this) |};
                 size_ := new_size |} tr1
        | _ => Undefined
        end
    | None => Undefined
    end
  else
    match Reserve new_size this tr with
    | Normal _ this1 tr1 =>
        match RawMemory_plus (data_ this1) (size_ this1) with
        | Some p =>
            match uninitialized_value_construct_n (buffer_ (data_ this1)) p
                    (new_size - size_ this1) tr1 with
            | Normal _ b tr2 =>
                Normal tt
                  {| data_ := {| buffer_ := b;
                                 capacity_ := capacity_ (data_ this1) |};
                     size_ := new_size |} tr2
            | Throws e b tr2 => Throws e (with_buffer this1 b) tr2
            | Undefined => Undefined
            end
        | None => Undefined
        end
    | Throws e this1 tr1 => Throws e this1 tr1
    | Undefined => Undefined
    end.

(** *** Operations on two vector objects

    The objects are identified by their addresses in a store. *)

(** [Vector& operator=(const Vector& rhs)] *)
Definition Vector_copy_assign (this rhs : nat) (st : gmap nat (Vector T))
    (tr : trace T) : outcome T unit (gmap nat (Vector T)) :=
  match st !! this, st !! rhs with
  | Some v, Some r =>
      if decide (this = rhs) then Normal tt st tr
      else if RawMemory_Capacity (data_ v) <? size_ r then
        match Vector_copy r tr with
        | Normal rhs_copy _ tr1 =>
            let '(v', rhs_copy') := Swap v rhs_copy in
            match Vector_dtor rhs_copy' tr1 with
            | Normal _ _ tr2 => Normal tt (<[this := v']> st) tr2
            | _ => Undefined
            end
        | Throws e _ tr1 => Throws e st tr1
        | Undefined => Undefined
        end
      else if size_ r <? size_ v then
        match copy_n (buffer_ (data_ r)) 0 (size_ r)
                (buffer_ (data_ v)) 0 tr with
        | Normal _ b tr1 =>
            match RawMemory_plus (data_ v) (size_ r) with
            | Some p =>
                match destroy_n b p (size_ v - size_ r) tr1 with
                | Normal _ b' tr2 =>
                    Normal tt
                      (<[this := {| data_ := {| buffer_ := b';
                                                capacity_ := capacity_ (data_ v) |};
                                    size_ := size_ r |}]> st) tr2
                | _ => Undefined
                end
            | None => Undefined
            end
        | Throws e b tr1 => Throws e (<[this := with_buffer v b]> st) tr1
        | Undefined => Undefined
        end
      else
        match copy_n (buffer_ (data_ r)) 0 (size_ v)
                (buffer_ (data_ v)) 0 tr with
        | Normal _ b tr1 =>
            (* the destination is data_.GetAddress(), offset 0 *)
            match uninitialized_copy_n (buffer_ (data_ r)) (size_ v)
                    (size_ r - size_ v) b 0 tr1 with
            | Normal _ b' tr2 =>
                Normal tt
                  (<[this := {| data_ := {| buffer_ := b';
                                            capacity_ := capacity_ (data_ v) |};
                                size_ := size_ r |}]> st) tr2
            | Throws e b' tr2 => Throws e (<[this := with_buffer v b']> st) tr2
            | Undefined => Undefined
            end
        | Throws e b tr1 => Throws e (<[this := with_buffer v b]> st) tr1
        | Undefined => Undefined
        end
  | _, _ => Undefined
  end.

(** [Swap(Vector& other)] on objects in the store. *)
Definition Vector_Swap (this other : nat) (st : gmap nat (Vector T))
    : option (gmap nat (Vector T)) :=
  match st !! this, st !! other with
  | Some v, Some o =>
      if decide (this = other) then Some st
      else let '(v', o') := Swap v o in Some (<[other := o']> (<[this := v']> st))
  | _, _ => None
  end.

(** [Vector& operator=(Vector&& rhs) noexcept] *)
Definition Vector_move_assign (this rhs : nat) (st : gmap nat (Vector T))
    : option (gmap nat (Vector T)) :=
  match st !! this, st !! rhs with
  | Some _, Some _ =>
      if decide (this = rhs) then Some st else Vector_Swap this rhs st
  | _, _ => None
  end.

(** Running a method of the object at [this]. *)
Definition on_object {R : Type}
    (m : Vector T -> trace T -> outcome T R (Vector T))
    (this : nat) (st : gmap nat (Vector T)) (tr : trace T)
    : outcome T unit (gmap nat (Vector T)) :=
  match st !! this with
  | Some v =>
      match m v tr with
      | Normal _ v' tr' => Normal tt (<[this := v']> st) tr'
      | Throws e v' tr' => Throws e (<[this := v']> st) tr'
      | Undefined => Undefined
      end
  | None => Undefined
  end.

(** Constructing an object at a free address. *)
Definition on_new (m : trace T -> outcome T (Vector T) unit)
    (a : nat) (st : gmap nat (Vector T)) (tr : trace T)
    : outcome T unit (gmap nat (Vector T)) :=
  match st !! a with
  | Some _ => Undefined
  | None =>
      match m tr with
      | Normal v _ tr' => Normal tt (<[a := v]> st) tr'
      | Throws e _ tr' => Throws e st tr'
      | Undefined => Undefined
      end
  end.

Definition exec (c : call T) (st : gmap nat (Vector T)) (tr : trace T)
    : outcome T unit (gmap nat (Vector T)) :=
  match c with
  | CallNew a => on_new (fun tr => Normal Vector_default tt tr) a st tr
  | CallNewSized a n => on_new (Vector_sized n) a st tr
  | CallNewCopy a other =>
      match st !! other with
      | Some o => on_new (Vector_copy o) a st tr
      | None => Undefined
      end
  | CallNewMove a other =>
      match st !! other, st !! a with
      | Some o, None =>
          let '(v, o') := Vector_move o in
          Normal tt (<[a := v]> (<[other := o']> st)) tr
      | _, _ => Undefined
      end
  | CallCopyAssign this rhs => Vector_copy_assign this rhs st tr
  | CallMoveAssign this rhs =>
      match Vector_move_assign this rhs st with
      | Some st' => Normal tt st' tr
      | None => Undefined
      end
  | CallPushBack this x => on_object (PushBack x) this st tr
  | CallPopBack this => on_object PopBack this st tr
  | CallInsert this pos x => on_object (Insert pos x) this st tr
  | CallInsertOwn this pos k => on_object (Insert_own pos k) this st tr
  | CallErase this pos => on_object (Erase pos) this st tr
  | CallReserve this n => on_object (Reserve n) this st tr
  | CallResize this n => on_object (Resize n) this st tr
  | CallSwap this other =>
      match Vector_Swap this other st with
      | Some st' => Normal tt st' tr
      | None => Undefined
      end
  end.

(** A sequence of calls; it stops at the first exception. *)
Fixpoint run (cs : list (call T)) (st : gmap nat (Vector T)) (tr : trace T)
    : outcome T unit (gmap nat (Vector T)) :=
  match cs with
  | [] => Normal tt st tr
  | c :: cs' =>
      match exec c st tr with
      | Normal _ st' tr' => run cs' st' tr'
      | other => other
      end
  end.

(** *** The class invariant *)

Definition is_live (s : option T) : bool :=
  match s with Some _ => true | None => false end.

(** [size_ <= capacity_], the buffer has [capacity_] slots, the first
    [size_] of them hold live objects and the others are raw. *)
Definition Invariant (this : Vector T) : bool :=
  (length (buffer_ (data_ this)) =? capacity_ (data_ this))
  && (size_ this <=? capacity_ (data_ this))
  && forallb is_live (take (size_ this) (buffer_ (data_ this)))
  && forallb (fun s => negb (is_live s))
       (drop (size_ this) (buffer_ (data_ this))).

(** The slots of the live range, in order. *)
Definition elements (this : Vector T) : list (option T) :=
  take (size_ this) (buffer_ (data_ this)).

(** No attempt ever raises. *)
Definition quiet : Prop := forall tr o, raises E tr o = false.

End Model.

Arguments may_raise : simpl never.

(** ** Vectors that satisfy the invariant, in closed form *)

(** The vector of capacity [cap] whose elements are [xs]. *)
Definition vec {T : Type} (xs : list T) (cap : nat) : Vector T :=
  {| data_ := {| buffer_ := (Some <$> xs) ++ replicate (cap - length xs) None;
                 capacity_ := cap |};
     size_ := length xs |}.

(** The capacity chosen when a vector of capacity [cap] is full. *)
Definition grown (cap : nat) : nat := if cap =? 0 then 1 else cap * 2.

(** The condition of [CopyN]: whether a relocation moves the elements. *)
Definition uses_move {T : Type} (E : ElementType T) : bool :=
  is_nothrow_move_constructible E || negb (is_copy_constructible E).

(** Trace fragments of a relocation of the elements [xs]: the transfers into
    the new storage, and the destruction of what is left in the old one. *)
Definition transfers {T : Type} (E : ElementType T) (xs : list T)
    : trace T :=
  if uses_move E then (fun x => Did (MoveCtor x)) <$> xs
  else (fun x => Did (CopyCtor x)) <$> xs.

Definition releases {T : Type} (E : ElementType T) (xs : list T)
    : trace T :=
  if uses_move E then (fun x => Did (Dtor (moved_from E x))) <$> xs
  else (fun x => Did (Dtor x)) <$> xs.

(** Appending the values [xs] one after the other with [PushBack]; the
    result lists the capacity after each call. *)
Fixpoint PushBack_all {T : Type} (E : ElementType T) (xs : list (args T))
    (this : Vector T) (tr : trace T) : outcome T (list nat) (Vector T) :=
  match xs with
  | [] => Normal [] this tr
  | x :: xs' =>
      match PushBack E x this tr with
      | Normal _ this1 tr1 =>
          match PushBack_all E xs' this1 tr1 with
          | Normal caps this2 tr2 => Normal (Capacity this1 :: caps) this2 tr2
          | other => other
          end
      | Throws e this1 tr1 => Throws e this1 tr1
      | Undefined => Undefined
      end
  end.

(** The capacity after [n] appends to an empty vector. *)
Definition capacity_after (n : nat) : nat :=
  if n =? 0 then 0 else 2 ^ Nat.log2_up n.

(** ** Notions used in the statements *)

Section Notions.

Context {T : Type} (E : ElementType T).

(** The slots [first, first + length xs) of [buf] hold live objects with
    the values [xs]. *)
Definition live_at (buf : list (option T)) (first : nat) (xs : list T)
    : Prop :=
  forall j x, xs !! j = Some x -> buf !! (first + j) = Some (Some x).

(** The slots [lo, hi) of [buf] are raw. *)
Definition raw_at (buf : list (option T)) (lo hi : nat) : Prop :=
  forall j, lo <= j < hi -> buf !! j = Some None.

(** Trace fragments: the objects [xs] destroyed, copied, moved, in order. *)
Definition dtors (xs : list T) : trace T := (fun x => Did (Dtor x)) <$> xs.
Definition copies (xs : list T) : trace T := (fun x => Did (CopyCtor x)) <$> xs.
Definition moves (xs : list T) : trace T := (fun x => Did (MoveCtor x)) <$> xs.

(** The values in the old storage once a transfer of [xs] has succeeded,
    and the slots that hold them. *)
Definition left_behind (xs : list T) : list T :=
  if uses_move E then moved_from E <$> xs else xs.

Definition sources_after (xs : list T) : list (option T) :=
  if uses_move E then (fun x => Some (moved_from E x)) <$> xs
  else Some <$> xs.

(** Two outcomes that agree on how the call ended, on what it returned and
    on the vector it left; on normal return also on the trace. *)
Definition same_result {R : Type} (o1 o2 : outcome T R (Vector T)) : Prop :=
  match o1, o2 with
  | Normal r1 v1 t1, Normal r2 v2 t2 => r1 = r2 /\ v1 = v2 /\ t1 = t2
  | Throws e1 v1 _, Throws e2 v2 _ => e1 = e2 /\ v1 = v2
  | Undefined, Undefined => True
  | _, _ => False
  end.

(** The vector object at address [a] after a run that returned. *)
Definition object_after (a : nat)
    (o : outcome T unit (gmap nat (Vector T))) : option (Vector T) :=
  match o with
  | Normal _ st _ => st !! a
  | _ => None
  end.

End Notions.

(** ** Concrete states used in the examples *)

(** A store with the vector [7] of capacity 1 at address 0 and the vector
    [5, 6] of capacity 2 at address 1. *)
Definition two_vectors : gmap nat (Vector nat) :=
  <[1 := vec [5; 6] 2]> (<[0 := vec [7] 1]> ∅).

(** A store with the vector [1, 2] of capacity 2 at address 0. *)
Definition one_vector : gmap nat (Vector nat) := <[0 := vec [1; 2] 2]> ∅.

(** [Vector<int> v; v.PushBack(1); v.Reserve(3);
     Vector<int> w; w.PushBack(5); w.PushBack(6); v = w;] *)
Definition copy_assign_scenario : list (call nat) :=
  [CallNew 0; CallPushBack 0 (ByMove 1); CallReserve 0 3;
   CallNew 1; CallPushBack 1 (ByMove 5); CallPushBack 1 (ByMove 6);
   CallCopyAssign 0 1].

(** [Vector<int> v; v.PushBack(1); v.PushBack(2); v.PushBack(3);
     v.Insert(v.cbegin(), v[2]);] *)
Definition insert_own_scenario : list (call nat) :=
  [CallNew 0; CallPushBack 0 (ByMove 1); CallPushBack 0 (ByMove 2);
   CallPushBack 0 (ByMove 3); CallInsertOwn 0 0 2].

(** ** Notions used in the further properties *)

(** The vector a call leaves behind, whether it returned or raised. *)
Definition state_of {T R : Type} (o : outcome T R (Vector T))
    : option (Vector T) :=
  match o with
  | Normal _ s _ | Throws _ s _ => Some s
  | Undefined => None
  end.

(** An element type whose constructor from arbitrary arguments always
    raises, while its copy and move operations never do. *)
Definition throwing_construct : ElementType nat := {|
  is_nothrow_move_constructible := true;
  is_copy_constructible := true;
  size_of := 4;
  value_init := 0;
  moved_from := fun x => x;
  raises := fun _ o => match o with Construct _ => true | _ => false end
|}.

(** A store with the vector [1] of capacity 3 at address 0 and the vector
    [5, 6] of capacity 2 at address 1. *)
Definition short_and_long : gmap nat (Vector nat) :=
  <[1 := vec [5; 6] 2]> (<[0 := vec [1] 3]> ∅).

(** * Properties *)

Section Proofs.

Context {T : Type} (E : ElementType T).

Implicit Types (buf src dst : list (option T)) (xs ys : list T).
Implicit Types (tr : trace T) (this : Vector T).

Lemma live_at_nil buf first : live_at buf first [].
Proof. intros j x Hj. by rewrite lookup_nil in Hj. Qed.

Lemma live_at_cons buf first x xs :
  live_at buf first (x :: xs) <->
  buf !! first = Some (Some x) /\ live_at buf (S first) xs.
Proof.
  split.
  - intros H. split.
    + specialize (H 0 x eq_refl). by rewrite Nat.add_0_r in H.
    + intros j y Hj. specialize (H (S j) y Hj).
      by rewrite Nat.add_succ_r in H.
  - intros [H0 H] [|j] y Hj; simpl in Hj.
    + injection Hj as <-. by rewrite Nat.add_0_r.
    + rewrite Nat.add_succ_r. by apply (H j y).
Qed.

Lemma live_at_length buf first xs :
  live_at buf first xs -> xs <> [] -> first + length xs <= length buf.
Proof.
  intros H Hne.
  destruct (lookup_lt_is_Some_2 xs (length xs - 1)) as [x Hx].
  { destruct xs; [done | simpl; lia]. }
  apply H, lookup_lt_Some in Hx.
  destruct xs; [done | simpl in *; lia].
Qed.

Lemma live_at_insert_out buf first xs i s :
  i < first \/ first + length xs <= i ->
  live_at buf first xs -> live_at (<[i := s]> buf) first xs.
Proof.
  intros Hi H j x Hj. rewrite list_lookup_insert_ne; [by apply H |].
  apply lookup_lt_Some in Hj. lia.
Qed.

Lemma live_at_app buf first xs ys :
  live_at buf first (xs ++ ys) <->
  live_at buf first xs /\ live_at buf (first + length xs) ys.
Proof.
  split.
  - intros H. split.
    + intros j x Hj. apply H. by apply lookup_app_l_Some.
    + intros j y Hj. rewrite <- Nat.add_assoc. apply H.
      rewrite lookup_app_r by lia.
      by replace (length xs + j - length xs) with j by lia.
  - intros [H1 H2] j x Hj. apply lookup_app_Some in Hj as [Hj | [Hle Hj]].
    + by apply H1.
    + specialize (H2 _ _ Hj).
      by replace (first + length xs + (j - length xs)) with (first + j)
        in H2 by lia.
Qed.

Lemma live_at_vec xs cap : live_at (buffer_ (data_ (vec xs cap))) 0 xs.
Proof.
  intros j x Hj. simpl. rewrite lookup_app_l.
  - by rewrite list_lookup_fmap, Hj.
  - rewrite length_fmap. by eapply lookup_lt_Some.
Qed.

(** *** The oracle *)

Lemma may_raise_quiet tr o : quiet E -> may_raise E tr o = false.
Proof.
  intros Hq. unfold may_raise. destruct o; rewrite ?Hq; try done.
  by rewrite andb_false_r.
Qed.

Lemma may_raise_not_quiet tr o : may_raise E tr o = true -> ~ quiet E.
Proof. intros H Hq. by rewrite may_raise_quiet in H. Qed.

Lemma may_raise_nothrow_move tr x :
  is_nothrow_move_constructible E = true -> may_raise E tr (MoveCtor x) = false.
Proof. intros H. unfold may_raise. by rewrite H. Qed.

(** *** Destruction *)

Lemma destroy_n_live buf first xs tr :
  live_at buf first xs ->
  destroy_n buf first (length xs) tr =
    Normal tt (list_inserts first (replicate (length xs) None) buf)
      (tr ++ dtors xs).
Proof.
  revert buf first tr. induction xs as [|x xs IH]; intros buf first tr H.
  - simpl. by rewrite app_nil_r.
  - apply live_at_cons in H as [H0 H]. simpl. rewrite H0.
    rewrite IH.
    + rewrite <- app_assoc. simpl.
      by rewrite list_insert_inserts_lt by lia.
    + apply live_at_insert_out; [lia | done].
Qed.

Lemma destroy_n_frame buf first n tr r b t :
  destroy_n buf first n tr = Normal r b t ->
  length b = length buf /\
  forall j, j < first \/ first + n <= j -> b !! j = buf !! j.
Proof.
  revert buf first tr. induction n as [|n IH]; intros buf first tr H.
  - simpl in H. injection H as _ <- _. done.
  - simpl in H. destruct (buf !! first) as [[x|]|]; try done.
    apply IH in H as [Hl H]. rewrite length_insert in Hl. split; [done |].
    intros j Hj. rewrite H by lia. apply list_lookup_insert_ne. lia.
Qed.

Lemma destroy_n_no_throw buf first n tr e b t :
  destroy_n buf first n tr <> Throws e b t.
Proof.
  revert buf first tr. induction n as [|n IH]; intros buf first tr; simpl.
  - done.
  - destruct (buf !! first) as [[x|]|]; first [apply IH | done].
Qed.

Lemma destroy_n_total buf first n tr :
  (forall j, first <= j < first + n -> exists y, buf !! j = Some (Some y)) ->
  exists b t, destroy_n buf first n tr = Normal tt b t.
Proof.
  revert buf first tr. induction n as [|n IH]; intros buf first tr H; simpl.
  - eauto.
  - destruct (H first) as [y Hy]; [lia |]. rewrite Hy. apply IH.
    intros j Hj. rewrite list_lookup_insert_ne by lia. apply H. lia.
Qed.

(** *** Construction of a range of objects *)

Lemma uninitialized_copy_loop_spec src first xs dst result cur tr :
  live_at src first xs ->
  result <= cur ->
  cur + length xs <= length dst ->
  (forall j, result <= j < cur -> exists y, dst !! j = Some (Some y)) ->
  uninitialized_copy_loop E src first (length xs) dst result cur tr =
    Normal tt (list_inserts cur (Some <$> xs) dst) (tr ++ copies xs)
  \/ exists e d t,
       uninitialized_copy_loop E src first (length xs) dst result cur tr =
         Throws e d t /\ ~ quiet E.
Proof.
  revert first dst cur tr.
  induction xs as [|x xs IH]; intros first dst cur tr Hsrc Hle Hlen Hdst.
  - left. simpl. by rewrite app_nil_r.
  - apply live_at_cons in Hsrc as [H0 Hsrc]. simpl in Hlen |- *. rewrite H0.
    destruct (Nat.ltb_spec cur (length dst)) as [_|?]; [|lia].
    destruct (may_raise E tr (CopyCtor x)) eqn:Hr.
    + right.
      destruct (destroy_n_total dst result (cur - result)
                  (tr ++ [Raised (CopyCtor x)])) as (b & t & Hd).
      { intros j Hj. apply Hdst. lia. }
      rewrite Hd. do 3 eexists. split; [done |].
      by eapply may_raise_not_quiet.
    + destruct (IH (S first) (<[cur := Some x]> dst) (S cur)
                  (tr ++ [Did (CopyCtor x)])) as [-> | H]; try done.
      * lia.
      * rewrite length_insert. lia.
      * intros j Hj. destruct (decide (j = cur)) as [-> | Hne].
        -- exists x. apply list_lookup_insert_eq. lia.
        -- rewrite list_lookup_insert_ne by done. apply Hdst. lia.
      * left. rewrite <- app_assoc. simpl.
        by rewrite list_insert_inserts_lt by lia.
      * by right.
Qed.

Lemma uninitialized_copy_loop_frame src first n dst result cur tr e d t :
  result <= cur ->
  uninitialized_copy_loop E src first n dst result cur tr = Throws e d t ->
  length d = length dst /\
  forall j, j < result \/ cur + n <= j -> d !! j = dst !! j.
Proof.
  revert first dst cur tr. induction n as [|n IH]; intros first dst cur tr Hle H.
  - done.
  - simpl in H. destruct (src !! first) as [[x|]|]; try done.
    destruct (cur <? length dst); [|done].
    destruct (may_raise E tr (CopyCtor x)).
    + destruct (destroy_n dst result (cur - result) _) eqn:Hd; try done.
      injection H as _ <- _. apply destroy_n_frame in Hd as [Hl Hd].
      split; [done |]. intros j Hj. apply Hd. lia.
    + apply IH in H as [Hl H]; [|lia]. rewrite length_insert in Hl.
      split; [done |]. intros j Hj. rewrite H by lia.
      apply list_lookup_insert_ne. lia.
Qed.

Lemma uninitialized_move_loop_spec src first xs dst result cur tr :
  live_at src first xs ->
  result <= cur ->
  cur + length xs <= length dst ->
  (forall j, result <= j < cur -> exists y, dst !! j = Some (Some y)) ->
  uninitialized_move_loop E src first (length xs) dst result cur tr =
    Normal tt
      (list_inserts first ((fun x => Some (moved_from E x)) <$> xs) src,
       list_inserts cur (Some <$> xs) dst)
      (tr ++ moves xs)
  \/ exists e s t,
       uninitialized_move_loop E src first (length xs) dst result cur tr =
         Throws e s t /\ ~ quiet E.
Proof.
  revert src first dst cur tr.
  induction xs as [|x xs IH]; intros src first dst cur tr Hsrc Hle Hlen Hdst.
  - left. simpl. by rewrite app_nil_r.
  - apply live_at_cons in Hsrc as [H0 Hsrc]. simpl in Hlen |- *. rewrite H0.
    destruct (Nat.ltb_spec cur (length dst)) as [_|?]; [|lia].
    destruct (may_raise E tr (MoveCtor x)) eqn:Hr.
    + right.
      destruct (destroy_n_total dst result (cur - result)
                  (tr ++ [Raised (MoveCtor x)])) as (b & t & Hd).
      { intros j Hj. apply Hdst. lia. }
      rewrite Hd. do 3 eexists. split; [done |].
      by eapply may_raise_not_quiet.
    + destruct (IH (<[first := Some (moved_from E x)]> src) (S first)
                  (<[cur := Some x]> dst) (S cur)
                  (tr ++ [Did (MoveCtor x)])) as [-> | H]; try done.
      * apply live_at_insert_out; [lia | done].
      * lia.
      * rewrite length_insert. lia.
      * intros j Hj. destruct (decide (j = cur)) as [-> | Hne].
        -- exists x. apply list_lookup_insert_eq. lia.
        -- rewrite list_lookup_insert_ne by done. apply Hdst. lia.
      * left. rewrite <- app_assoc. simpl.
        by rewrite !list_insert_inserts_lt by lia.
      * by right.
Qed.

Lemma uninitialized_move_loop_frame src first n dst result cur tr e s d t :
  result <= cur ->
  uninitialized_move_loop E src first n dst result cur tr = Throws e (s, d) t ->
  length d = length dst /\
  forall j, j < result \/ cur + n <= j -> d !! j = dst !! j.
Proof.
  revert src first dst cur tr.
  induction n as [|n IH]; intros src first dst cur tr Hle H.
  - done.
  - simpl in H. destruct (src !! first) as [[x|]|]; try done.
    destruct (cur <? length dst); [|done].
    destruct (may_raise E tr (MoveCtor x)).
    + destruct (destroy_n dst result (cur - result) _) eqn:Hd; try done.
      injection H as _ _ <- _. apply destroy_n_frame in Hd as [Hl Hd].
      split; [done |]. intros j Hj. apply Hd. lia.
    + apply IH in H as [Hl H]; [|lia]. rewrite length_insert in Hl.
      split; [done |]. intros j Hj. rewrite H by lia.
      apply list_lookup_insert_ne. lia.
Qed.

Lemma uninitialized_move_loop_nothrow src first n dst result cur tr e s t :
  is_nothrow_move_constructible E = true ->
  uninitialized_move_loop E src first n dst result cur tr <> Throws e s t.
Proof.
  intros Hn. revert src first dst cur tr.
  induction n as [|n IH]; intros src first dst cur tr; simpl; [done |].
  destruct (src !! first) as [[x|]|]; try done.
  destruct (cur <? length dst); [|done].
  rewrite may_raise_nothrow_move by done. apply IH.
Qed.

(** *** The transfer policy *)

Lemma CopyN_spec src first xs dst result tr :
  live_at src first xs ->
  result + length xs <= length dst ->
  CopyN E src first (length xs) dst result tr =
    Normal tt
      (list_inserts first (sources_after E xs) src,
       list_inserts result (Some <$> xs) dst)
      (tr ++ transfers E xs)
  \/ exists e s t,
       CopyN E src first (length xs) dst result tr = Throws e s t /\
       ~ quiet E.
Proof.
  intros Hsrc Hlen. unfold CopyN, transfers, sources_after, uses_move.
  destruct (is_nothrow_move_constructible E || negb (is_copy_constructible E)).
  - apply uninitialized_move_loop_spec; try done. intros j Hj. lia.
  - unfold uninitialized_copy_n.
    destruct (uninitialized_copy_loop_spec src first xs dst result result tr)
      as [-> | (e & d & t & -> & Hq)]; try done.
    + intros j Hj. lia.
    + left. do 2 f_equal. f_equal. symmetry. apply list_eq. intros j.
      destruct (decide (first <= j < first + length xs)) as [Hj | Hj].
      * rewrite list_lookup_inserts by (rewrite ?length_fmap;
          destruct xs; [simpl in *; lia | apply live_at_length in Hsrc; [lia | done]]).
        rewrite list_lookup_fmap.
        destruct (lookup_lt_is_Some_2 xs (j - first)) as [x Hx]; [lia |].
        rewrite Hx. simpl. specialize (Hsrc _ _ Hx).
        by replace (first + (j - first)) with j in Hsrc by lia.
      * destruct (decide (j < first)).
        -- by rewrite list_lookup_inserts_lt.
        -- rewrite list_lookup_inserts_ge; [done |]. rewrite length_fmap. lia.
    + right. eauto.
Qed.

Lemma CopyN_frame src first n dst result tr e s d t :
  CopyN E src first n dst result tr = Throws e (s, d) t ->
  length d = length dst /\
  forall j, j < result \/ result + n <= j -> d !! j = dst !! j.
Proof.
  unfold CopyN, uninitialized_move_n, uninitialized_copy_n.
  destruct (is_nothrow_move_constructible E || negb (is_copy_constructible E)).
  - by apply uninitialized_move_loop_frame.
  - destruct (uninitialized_copy_loop _ _ _ _ _ _ _ _) eqn:H; try done.
    intros [= _ _ <- _]. by eapply uninitialized_copy_loop_frame.
Qed.

(** With the copying policy a failed transfer leaves the sources alone. *)
Lemma CopyN_throws_copy src first n dst result tr e s d t :
  uses_move E = false ->
  CopyN E src first n dst result tr = Throws e (s, d) t -> s = src.
Proof.
  unfold CopyN, uses_move. intros ->.
  destruct (uninitialized_copy_n _ _ _ _ _ _ _); try done. by intros [= _ <- _ _].
Qed.

(** A transfer by a non-raising move constructor cannot fail. *)
Lemma CopyN_nothrow src first n dst result tr e s t :
  is_nothrow_move_constructible E = true ->
  CopyN E src first n dst result tr <> Throws e s t.
Proof.
  intros Hn. unfold CopyN. rewrite Hn. simpl.
  by apply uninitialized_move_loop_nothrow.
Qed.

Lemma sources_after_left_behind xs : sources_after E xs = Some <$> left_behind E xs.
Proof.
  unfold sources_after, left_behind. destruct (uses_move E); [|done].
  by rewrite <- list_fmap_compose.
Qed.

Lemma releases_left_behind xs : releases E xs = dtors (left_behind E xs).
Proof.
  unfold releases, left_behind, dtors. destruct (uses_move E); [|done].
  by rewrite <- list_fmap_compose.
Qed.

Lemma length_left_behind xs : length (left_behind E xs) = length xs.
Proof. unfold left_behind. destruct (uses_move E); by rewrite ?length_fmap. Qed.

(** *** Buffers in closed form *)

Lemma live_at_inserts buf i xs :
  i + length xs <= length buf ->
  live_at (list_inserts i (Some <$> xs) buf) i xs.
Proof.
  intros Hlen j x Hj. pose proof (lookup_lt_Some _ _ _ Hj).
  rewrite list_lookup_inserts by (rewrite ?length_fmap; lia).
  replace (i + j - i) with j by lia. by rewrite list_lookup_fmap, Hj.
Qed.

Lemma live_at_inserts_out buf i xs i' (k : list (option T)) :
  i' + length k <= i \/ i + length xs <= i' ->
  live_at buf i xs -> live_at (list_inserts i' k buf) i xs.
Proof.
  intros Hd H j x Hj. pose proof (lookup_lt_Some _ _ _ Hj).
  destruct Hd.
  - rewrite list_lookup_inserts_ge by lia. by apply H.
  - rewrite list_lookup_inserts_lt by lia. by apply H.
Qed.

Lemma vec_intro buf xs cap :
  length buf = cap -> live_at buf 0 xs -> raw_at buf (length xs) cap ->
  {| data_ := {| buffer_ := buf; capacity_ := cap |}; size_ := length xs |}
  = vec xs cap.
Proof.
  intros Hlen Hlive Hraw. unfold vec. do 2 f_equal. apply list_eq. intros j.
  destruct (decide (j < length xs)) as [Hj | Hj].
  - destruct (lookup_lt_is_Some_2 xs j Hj) as [x Hx].
    pose proof (Hlive _ _ Hx) as Hb. simpl in Hb. rewrite Hb.
    rewrite lookup_app_l by (by rewrite length_fmap).
    by rewrite list_lookup_fmap, Hx.
  - rewrite lookup_app_r by (rewrite length_fmap; lia). rewrite length_fmap.
    destruct (decide (j < cap)) as [Hc | Hc].
    + rewrite Hraw by lia. symmetry. apply lookup_replicate_2. lia.
    + rewrite !lookup_ge_None_2; [done | rewrite length_replicate |]; lia.
Qed.

Lemma length_vec_buffer xs cap :
  length xs <= cap -> length (buffer_ (data_ (vec xs cap))) = cap.
Proof. intros. simpl. rewrite length_app, length_fmap, length_replicate. lia. Qed.

Lemma raw_at_vec xs cap : raw_at (buffer_ (data_ (vec xs cap))) (length xs) cap.
Proof.
  intros j Hj. simpl. rewrite lookup_app_r by (rewrite length_fmap; lia).
  rewrite length_fmap. apply lookup_replicate_2. lia.
Qed.

Lemma raw_at_replicate n lo hi :
  hi <= n -> raw_at (replicate n (@None T)) lo hi.
Proof. intros Hn j Hj. apply lookup_replicate_2. lia. Qed.

Lemma raw_at_inserts_out buf lo hi i (k : list (option T)) :
  i + length k <= lo \/ hi <= i ->
  raw_at buf lo hi -> raw_at (list_inserts i k buf) lo hi.
Proof.
  intros Hd H j Hj. destruct Hd.
  - rewrite list_lookup_inserts_ge by lia. by apply H.
  - rewrite list_lookup_inserts_lt by lia. by apply H.
Qed.

Lemma raw_at_insert_out buf lo hi i s :
  i < lo \/ hi <= i -> raw_at buf lo hi -> raw_at (<[i := s]> buf) lo hi.
Proof.
  intros Hd H j Hj. rewrite list_lookup_insert_ne by lia. by apply H.
Qed.

(** *** Reserve *)

Lemma Allocate_spec n tr :
  n <> 0 ->
  Allocate E n tr = Normal (replicate n None) tt (tr ++ [Did (Alloc n)])
  \/ Allocate E n tr = Throws BadAlloc tt (tr ++ [Raised (Alloc n)]) /\
     ~ quiet E.
Proof.
  intros Hn. unfold Allocate.
  destruct (Nat.eqb_spec n 0) as [|_]; [done |].
  destruct (may_raise E tr (Alloc n)) eqn:Hr; [right | by left].
  split; [done |]. by eapply may_raise_not_quiet.
Qed.

(** *** Requests whose byte count wraps *)

Lemma block_slots_fits n : fits E n -> block_slots E n = n.
Proof.
  unfold fits, block_slots, request_bytes. intros H.
  rewrite N.mod_small by done. rewrite N.div_mul by done. apply Nat2N.id.
Qed.

Lemma block_slots_short n : ~ fits E n -> block_slots E n < n.
Proof.
  unfold fits, block_slots, request_bytes. intros H.
  apply N.nlt_ge in H.
  assert (Hm : ((N.of_nat n * N.pos (size_of E)) mod 2 ^ 64 < 2 ^ 64)%N)
    by (by apply N.mod_lt).
  assert (Hd : ((N.of_nat n * N.pos (size_of E)) mod 2 ^ 64
                  / N.pos (size_of E) < N.of_nat n)%N).
  { apply N.Div0.div_lt_upper_bound. lia. }
  lia.
Qed.

Lemma Allocate_wrapping_spec n tr :
  n <> 0 ->
  Allocate_wrapping E n tr =
    Normal (replicate (block_slots E n) None) tt (tr ++ [Did (Alloc n)])
  \/ Allocate_wrapping E n tr = Throws BadAlloc tt (tr ++ [Raised (Alloc n)]) /\
     ~ quiet E.
Proof.
  intros Hn. unfold Allocate_wrapping.
  destruct (Nat.eqb_spec n 0) as [|_]; [done |].
  destruct (may_raise E tr (Alloc n)) eqn:Hr; [right | by left].
  split; [done |]. by eapply may_raise_not_quiet.
Qed.

Lemma RawMemory_new_wrapping_fits n tr :
  fits E n -> RawMemory_new_wrapping E n tr = RawMemory_new E n tr.
Proof.
  intros H. unfold RawMemory_new_wrapping, RawMemory_new, Allocate_wrapping,
    Allocate. by rewrite block_slots_fits.
Qed.

(** A loop that returns has found room for every object it constructed. *)
Lemma uninitialized_copy_loop_Normal_length src (first n : nat) dst
    (result cur : nat) tr r d t :
  uninitialized_copy_loop E src first n dst result cur tr = Normal r d t ->
  n = 0 \/ cur + n <= length dst.
Proof.
  revert first dst cur tr.
  induction n as [|n IH]; intros first dst cur tr; simpl; [by left |].
  destruct (src !! first) as [[x|]|]; try done.
  destruct (Nat.ltb_spec cur (length dst)) as [Hc|]; [|done].
  destruct (may_raise E tr (CopyCtor x)).
  { by destruct (destroy_n _ _ _ _). }
  intros H. apply IH in H. rewrite length_insert in H. right. lia.
Qed.

Lemma uninitialized_move_loop_Normal_length src (first n : nat) dst
    (result cur : nat) tr r s t :
  uninitialized_move_loop E src first n dst result cur tr = Normal r s t ->
  n = 0 \/ cur + n <= length dst.
Proof.
  revert src first dst cur tr.
  induction n as [|n IH]; intros src first dst cur tr; simpl; [by left |].
  destruct (src !! first) as [[x|]|]; try done.
  destruct (Nat.ltb_spec cur (length dst)) as [Hc|]; [|done].
  destruct (may_raise E tr (MoveCtor x)).
  { by destruct (destroy_n _ _ _ _). }
  intros H. apply IH in H. rewrite length_insert in H. right. lia.
Qed.

Lemma CopyN_Normal_length src (first n : nat) dst (result : nat) tr r s t :
  CopyN E src first n dst result tr = Normal r s t ->
  n = 0 \/ result + n <= length dst.
Proof.
  unfold CopyN, uninitialized_move_n, uninitialized_copy_n.
  destruct (is_nothrow_move_constructible E || negb (is_copy_constructible E)).
  - apply uninitialized_move_loop_Normal_length.
  - destruct (uninitialized_copy_loop _ _ _ _ _ _ _ _) eqn:H; try done.
    intros _. by eapply uninitialized_copy_loop_Normal_length.
Qed.

(** *** Reserve *)

(** The vector [Reserve(k)] leaves when it returns: capacity [k] over the
    block the request obtained. *)
Lemma Reserve_spec_slots xs cap k tr :
  length xs <= cap -> cap < k -> length xs <= block_slots E k ->
  Reserve E k (vec xs cap) tr =
    Normal tt
      {| data_ := {| buffer_ := buffer_ (data_ (vec xs (block_slots E k)));
                     capacity_ := k |};
         size_ := length xs |}
      (tr ++ Did (Alloc k) :: transfers E xs ++ releases E xs)
  \/ exists e s t, Reserve E k (vec xs cap) tr = Throws e s t /\ ~ quiet E.
Proof.
  intros Hlen Hk Hm. set (m := block_slots E k) in *.
  unfold Reserve, RawMemory_Capacity, RawMemory_new_wrapping.
  change (capacity_ (data_ (vec xs cap))) with cap.
  change (size_ (vec xs cap)) with (length xs).
  destruct (Nat.leb_spec k cap) as [|_]; [lia |].
  destruct (Allocate_wrapping_spec k tr) as [-> | [-> Hq]];
    [lia | | right; eauto].
  fold m. cbn [buffer_ capacity_].
  destruct (CopyN_spec (buffer_ (data_ (vec xs cap))) 0 xs
              (replicate m None) 0 (tr ++ [Did (Alloc k)]))
    as [-> | (e & s & t & -> & Hq)].
  - apply live_at_vec.
  - rewrite length_replicate. lia.
  - left. rewrite sources_after_left_behind.
    rewrite <- (length_left_behind xs) at 1. rewrite destroy_n_live.
    + f_equal.
      * do 2 f_equal.
        change (list_inserts 0 (Some <$> xs) (replicate m None) =
                buffer_ (data_ (vec xs m))).
        apply (f_equal (fun v : Vector T => buffer_ (data_ v))
                 (vec_intro (list_inserts 0 (Some <$> xs) (replicate m None))
                    xs m
                    ltac:(by rewrite length_inserts, length_replicate)
                    ltac:(apply live_at_inserts; rewrite length_replicate; lia)
                    ltac:(apply raw_at_inserts_out;
                            [rewrite length_fmap; lia |];
                            by apply raw_at_replicate))).
      * rewrite releases_left_behind, <- !app_assoc. done.
    + apply live_at_inserts.
      rewrite length_left_behind, length_vec_buffer; lia.
  - right. destruct s as [ob nb]. eauto.
Qed.

Lemma Reserve_spec xs cap k tr :
  length xs <= cap -> cap < k -> fits E k ->
  Reserve E k (vec xs cap) tr =
    Normal tt (vec xs k)
      (tr ++ Did (Alloc k) :: transfers E xs ++ releases E xs)
  \/ exists e s t, Reserve E k (vec xs cap) tr = Throws e s t /\ ~ quiet E.
Proof.
  intros Hlen Hk Hf.
  pose proof (Reserve_spec_slots xs cap k tr Hlen Hk) as H.
  rewrite (block_slots_fits k Hf) in H. apply H. lia.
Qed.

(** A [Reserve] that returns has found room in the block for every element,
    also when the request wrapped. *)
Lemma Reserve_Normal_slots xs cap k tr r this' tr' :
  cap < k -> Reserve E k (vec xs cap) tr = Normal r this' tr' ->
  length xs <= block_slots E k.
Proof.
  intros Hk. unfold Reserve, RawMemory_Capacity, RawMemory_new_wrapping.
  change (capacity_ (data_ (vec xs cap))) with cap.
  change (size_ (vec xs cap)) with (length xs).
  destruct (Nat.leb_spec k cap) as [|_]; [lia |].
  destruct (Allocate_wrapping_spec k tr) as [-> | [-> Hq]]; [lia | | done].
  cbn [buffer_ capacity_].
  destruct (CopyN E _ 0 (length xs) _ 0 _)
    as [[] [ob nb] t2 | e [ob nb] t2 |] eqn:HC; try done.
  intros _. apply CopyN_Normal_length in HC.
  rewrite length_replicate in HC. lia.
Qed.

Lemma Reserve_Normal_inv xs cap k tr r this' tr' :
  length xs <= cap -> cap < k ->
  Reserve E k (vec xs cap) tr = Normal r this' tr' ->
  length xs <= block_slots E k /\
  this' =
    {| data_ := {| buffer_ := buffer_ (data_ (vec xs (block_slots E k)));
                   capacity_ := k |};
       size_ := length xs |} /\
  tr' = tr ++ Did (Alloc k) :: transfers E xs ++ releases E xs.
Proof.
  intros Hlen Hk H.
  pose proof (Reserve_Normal_slots xs cap k tr r this' tr' Hk H) as Hm.
  destruct (Reserve_spec_slots xs cap k tr Hlen Hk Hm)
    as [H' | (e & s & t & H' & _)]; rewrite H' in H; [|done].
  by injection H as _ <- <-.
Qed.

Lemma live_at_exists buf first xs j :
  live_at buf first xs -> first <= j < first + length xs ->
  exists y, buf !! j = Some (Some y).
Proof.
  intros H Hj. destruct (lookup_lt_is_Some_2 xs (j - first)) as [x Hx]; [lia |].
  exists x. specialize (H _ _ Hx).
  by replace (first + (j - first)) with j in H by lia.
Qed.

Lemma live_at_inserts_snoc n xs v :
  length xs < n ->
  live_at (list_inserts 0 (Some <$> xs) (<[length xs := Some v]> (replicate n None)))
    0 (xs ++ [v]).
Proof.
  intros Hn. apply live_at_app. split.
  - apply live_at_inserts. rewrite length_insert, length_replicate. lia.
  - apply live_at_cons. split; [|apply live_at_nil].
    rewrite list_lookup_inserts_ge by (rewrite length_fmap; lia).
    apply list_lookup_insert_eq. rewrite length_replicate. lia.
Qed.

Lemma destroy_n_left_behind buf xs tr :
  live_at buf 0 (left_behind E xs) ->
  destroy_n buf 0 (length xs) tr =
    Normal tt (list_inserts 0 (replicate (length xs) None) buf)
      (tr ++ releases E xs).
Proof.
  intros H. rewrite releases_left_behind, <- (length_left_behind xs).
  by apply destroy_n_live.
Qed.

(** *** Emplace, when the vector is full *)

Lemma grown_gt cap : cap < grown cap.
Proof. unfold grown. destruct (Nat.eqb_spec cap 0); lia. Qed.

Lemma left_behind_app xs ys :
  left_behind E (xs ++ ys) = left_behind E xs ++ left_behind E ys.
Proof. unfold left_behind. destruct (uses_move E); by rewrite ?fmap_app. Qed.

Lemma transfers_app xs ys :
  transfers E (xs ++ ys) = transfers E xs ++ transfers E ys.
Proof. unfold transfers. destruct (uses_move E); by rewrite ?fmap_app. Qed.

Lemma construct_at_spec buf i a tr :
  i < length buf ->
  construct_at E buf i a tr =
    Normal tt (<[i := Some (arg_value a)]> buf) (tr ++ [Did (arg_op a)])
  \/ construct_at E buf i a tr =
       Throws (ElementError (arg_op a)) buf (tr ++ [Raised (arg_op a)]) /\
     ~ quiet E.
Proof.
  intros Hi. unfold construct_at.
  destruct (Nat.ltb_spec i (length buf)) as [_|]; [|lia].
  destruct (may_raise E tr (arg_op a)) eqn:Hr; [right | by left].
  split; [done |]. by eapply may_raise_not_quiet.
Qed.

Lemma Emplace_grow_spec xs1 xs2 a tr :
  let cap := length (xs1 ++ xs2) in
  Emplace E (length xs1) a (vec (xs1 ++ xs2) cap) tr =
    Normal (length xs1) (vec (xs1 ++ arg_value a :: xs2) (grown cap))
      (tr ++ Did (Alloc (grown cap)) :: Did (arg_op a) ::
         transfers E (xs1 ++ xs2) ++ releases E (xs1 ++ xs2))
  \/ exists e s t,
       Emplace E (length xs1) a (vec (xs1 ++ xs2) cap) tr = Throws e s t /\
       ~ quiet E.
Proof.
  intros cap. pose proof (grown_gt cap) as Hg.
  assert (Hcap : cap = length xs1 + length xs2)
    by (unfold cap; by rewrite length_app).
  unfold Emplace, Capacity, RawMemory_Capacity, RawMemory_new, RawMemory_plus.
  change (capacity_ (data_ (vec (xs1 ++ xs2) cap))) with cap.
  change (size_ (vec (xs1 ++ xs2) cap)) with cap.
  rewrite Nat.eqb_refl. fold (grown cap).
  destruct (Allocate_spec (grown cap) tr) as [-> | [-> Hq]];
    [lia | | right; eauto].
  cbn [buffer_ capacity_].
  destruct (Nat.leb_spec (length xs1) (grown cap)) as [_|]; [|lia].
  destruct (construct_at_spec (replicate (grown cap) None) (length xs1) a
              (tr ++ [Did (Alloc (grown cap))])) as [-> | [-> Hq]];
    [rewrite length_replicate; lia | | right; eauto].
  pose proof (live_at_vec (xs1 ++ xs2) cap) as Hlive.
  apply live_at_app in Hlive as [Hlive1 Hlive2].
  destruct (CopyN_spec (buffer_ (data_ (vec (xs1 ++ xs2) cap))) 0 xs1
              (<[length xs1 := Some (arg_value a)]>
                 (replicate (grown cap) None)) 0
              ((tr ++ [Did (Alloc (grown cap))]) ++ [Did (arg_op a)]))
    as [Hc | (e & [ob nb] & t & Hc & Hq)]; [done | | |].
  { rewrite length_insert, length_replicate. lia. }
  2: { rewrite Hc. apply CopyN_frame in Hc as [_ Hf]. right.
       unfold destroy_at. rewrite Hf by lia.
       rewrite list_lookup_insert_eq by (rewrite length_replicate; lia).
       eauto. }
  rewrite Hc. clear Hc.
  destruct (Nat.leb_spec (length xs1) cap) as [_|]; [|lia].
  replace (cap - length xs1) with (length xs2) by lia.
  pose proof (live_at_inserts_snoc (grown cap) xs1 (arg_value a)) as Hnb1.
  destruct (CopyN_spec
              (list_inserts 0 (sources_after E xs1)
                 (buffer_ (data_ (vec (xs1 ++ xs2) cap))))
              (length xs1) xs2
              (list_inserts 0 (Some <$> xs1)
                 (<[length xs1 := Some (arg_value a)]>
                    (replicate (grown cap) None)))
              (length xs1 + 1)
              (((tr ++ [Did (Alloc (grown cap))]) ++ [Did (arg_op a)]) ++
               transfers E xs1))
    as [Hc | (e & [ob nb] & t & Hc & Hq)].
  { apply live_at_inserts_out; [|done].
    unfold sources_after. destruct (uses_move E); rewrite length_fmap; lia. }
  { rewrite length_inserts, length_insert, length_replicate. lia. }
  2: { rewrite Hc. apply CopyN_frame in Hc as [_ Hf]. right.
       destruct (destroy_n_total nb 0 (length xs1 + 1) t) as (b & t' & ->);
         [|eauto].
       intros j Hj. rewrite Hf by lia. eapply live_at_exists; [apply Hnb1; lia |].
       rewrite length_app. simpl. lia. }
  rewrite Hc. clear Hc.
  subst cap. rewrite destroy_n_left_behind.
  2: { rewrite left_behind_app, !sources_after_left_behind.
       apply live_at_app. split.
       - apply live_at_inserts_out;
           [rewrite ?length_fmap, !length_left_behind; lia |].
         apply live_at_inserts.
         rewrite length_left_behind, length_vec_buffer; lia.
       - rewrite length_left_behind. apply live_at_inserts.
         rewrite length_left_behind, length_inserts, length_vec_buffer; lia. }
  left. f_equal.
  - replace (S (length (xs1 ++ xs2)))
      with (length (xs1 ++ arg_value a :: xs2))
      by (rewrite !length_app; simpl; lia).
    apply vec_intro.
    + by rewrite !length_inserts, length_insert, length_replicate.
    + apply live_at_app. split; [|apply live_at_cons; split].
      * apply live_at_inserts_out; [lia |]. apply live_at_inserts.
        rewrite length_insert, length_replicate. lia.
      * rewrite list_lookup_inserts_lt by lia.
        rewrite list_lookup_inserts_ge by (rewrite length_fmap; lia).
        apply list_lookup_insert_eq. rewrite length_replicate. lia.
      * replace (S (0 + length xs1)) with (length xs1 + 1) by lia.
        apply live_at_inserts.
        rewrite length_inserts, length_insert, length_replicate. lia.
    + apply raw_at_inserts_out;
        [rewrite length_fmap, !length_app; simpl; lia |].
      apply raw_at_inserts_out;
        [rewrite length_fmap, !length_app; simpl; lia |].
      apply raw_at_insert_out; [rewrite !length_app; simpl; lia |].
      by apply raw_at_replicate.
  - rewrite transfers_app, <- !app_assoc. done.
Qed.

(** *** Shifting elements inside one buffer *)

Lemma move_assign_slot_spec buf (to from : nat) tr d x :
  buf !! to = Some (Some d) -> buf !! from = Some (Some x) ->
  move_assign_slot E buf to from tr =
    Normal tt (<[from := Some (moved_from E x)]> (<[to := Some x]> buf))
      (tr ++ [Did (MoveAssign d x)])
  \/ move_assign_slot E buf to from tr =
       Throws (ElementError (MoveAssign d x)) buf
         (tr ++ [Raised (MoveAssign d x)]) /\
     ~ quiet E.
Proof.
  intros Hd Hs. unfold move_assign_slot. rewrite Hd, Hs.
  destruct (may_raise E tr (MoveAssign d x)) eqn:Hr; [right | by left].
  split; [done |]. by eapply may_raise_not_quiet.
Qed.

Lemma move_backward_spec buf lo n tr :
  (forall j, lo <= j <= lo + n -> exists y, buf !! j = Some (Some y)) ->
  (exists b t,
     move_backward E buf n (lo + n) (S (lo + n)) tr = Normal tt b t /\
     length b = length buf /\
     (forall j, j < lo \/ lo + n < j -> b !! j = buf !! j) /\
     (forall j, lo < j <= lo + n -> b !! j = buf !! (j - 1)) /\
     exists y, b !! lo = Some (Some y))
  \/ exists e b t,
       move_backward E buf n (lo + n) (S (lo + n)) tr = Throws e b t /\
       ~ quiet E.
Proof.
  revert buf tr. induction n as [|n IH]; intros buf tr Hlive.
  - left. exists buf, tr. simpl. repeat split; try done.
    + intros j Hj. lia.
    + apply Hlive. lia.
  - rewrite Nat.add_succ_r. simpl.
    destruct (Hlive (S (lo + n))) as [d Hd]; [lia |].
    destruct (Hlive (lo + n)) as [x Hx]; [lia |].
    destruct (move_assign_slot_spec buf (S (lo + n)) (lo + n) tr d x Hd Hx)
      as [-> | [-> Hq]]; [|right; eauto].
    set (buf' := <[lo + n := Some (moved_from E x)]>
                   (<[S (lo + n) := Some x]> buf)).
    assert (Hout : forall j, j <> lo + n -> j <> S (lo + n) ->
                     buf' !! j = buf !! j).
    { intros j H1 H2. unfold buf'. by rewrite !list_lookup_insert_ne. }
    assert (Hdst : buf' !! S (lo + n) = Some (Some x)).
    { unfold buf'. rewrite list_lookup_insert_ne by lia.
      apply list_lookup_insert_eq. by eapply lookup_lt_Some. }
    destruct (IH buf' (tr ++ [Did (MoveAssign d x)]))
      as [(b & t & -> & Hl & Hf & Hs & Hlo) | (e & b & t & -> & Hq)];
      [| |right; eauto].
    + intros j Hj. destruct (decide (j = lo + n)) as [-> | Hne].
      * exists (moved_from E x). unfold buf'. apply list_lookup_insert_eq.
        rewrite length_insert. by eapply lookup_lt_Some.
      * rewrite Hout by lia. apply Hlive. lia.
    + left. exists b, t. split; [done |]. split; [|split; [|split]].
      * unfold buf' in Hl. by rewrite !length_insert in Hl.
      * intros j Hj. rewrite Hf by lia. apply Hout; lia.
      * intros j Hj. destruct (decide (j = S (lo + n))) as [-> | Hne].
        -- rewrite Hf by lia. rewrite Hdst.
           by replace (S (lo + n) - 1) with (lo + n) by lia.
        -- rewrite Hs by lia. apply Hout; lia.
      * done.
Qed.

Lemma std_move_spec buf d n tr :
  (forall j, d <= j <= d + n -> exists y, buf !! j = Some (Some y)) ->
  (exists b t,
     std_move E buf (S d) n d tr = Normal tt b t /\
     length b = length buf /\
     (forall j, j < d \/ d + n < j -> b !! j = buf !! j) /\
     (forall j, d <= j < d + n -> b !! j = buf !! (S j)) /\
     exists y, b !! (d + n) = Some (Some y))
  \/ exists e b t, std_move E buf (S d) n d tr = Throws e b t /\ ~ quiet E.
Proof.
  revert buf d tr. induction n as [|n IH]; intros buf d tr Hlive.
  - left. exists buf, tr. simpl. repeat split; try done.
    + intros j Hj. lia.
    + apply Hlive. lia.
  - simpl.
    destruct (Hlive d) as [y Hy]; [lia |].
    destruct (Hlive (S d)) as [x Hx]; [lia |].
    destruct (move_assign_slot_spec buf d (S d) tr y x Hy Hx)
      as [-> | [-> Hq]]; [|right; eauto].
    set (buf' := <[S d := Some (moved_from E x)]> (<[d := Some x]> buf)).
    assert (Hout : forall j, j <> d -> j <> S d -> buf' !! j = buf !! j).
    { intros j H1 H2. unfold buf'. by rewrite !list_lookup_insert_ne. }
    assert (Hdst : buf' !! d = Some (Some x)).
    { unfold buf'. rewrite list_lookup_insert_ne by lia.
      apply list_lookup_insert_eq. by eapply lookup_lt_Some. }
    destruct (IH buf' (S d) (tr ++ [Did (MoveAssign y x)]))
      as [(b & t & -> & Hl & Hf & Hs & Hlast) | (e & b & t & -> & Hq)];
      [| |right; eauto].
    + intros j Hj. destruct (decide (j = S d)) as [-> | Hne].
      * exists (moved_from E x). unfold buf'. apply list_lookup_insert_eq.
        rewrite length_insert. by eapply lookup_lt_Some.
      * rewrite Hout by lia. apply Hlive. lia.
    + left. exists b, t. split; [done |]. split; [|split; [|split]].
      * unfold buf' in Hl. by rewrite !length_insert in Hl.
      * intros j Hj. rewrite Hf by lia. apply Hout; lia.
      * intros j Hj. destruct (decide (j = d)) as [-> | Hne].
        -- rewrite Hf by lia. by rewrite Hdst.
        -- rewrite Hs by lia. apply Hout; lia.
      * by replace (d + S n) with (S d + n) by lia.
Qed.

(** *** Emplace, when there is room *)

Lemma lookup_vec_live xs cap j x :
  xs !! j = Some x -> buffer_ (data_ (vec xs cap)) !! j = Some (Some x).
Proof. intros H. by apply (live_at_vec xs cap j x). Qed.

Lemma Emplace_fit_end_spec xs cap a tr :
  length xs < cap ->
  Emplace E (length xs) a (vec xs cap) tr =
    Normal (length xs) (vec (xs ++ [arg_value a]) cap) (tr ++ [Did (arg_op a)])
  \/ exists e s t,
       Emplace E (length xs) a (vec xs cap) tr = Throws e s t /\ ~ quiet E.
Proof.
  intros Hlen. unfold Emplace, Capacity, RawMemory_Capacity, RawMemory_plus.
  change (capacity_ (data_ (vec xs cap))) with cap.
  change (size_ (vec xs cap)) with (length xs).
  destruct (Nat.eqb_spec (length xs) cap) as [|_]; [lia |].
  rewrite Nat.ltb_irrefl.
  destruct (Nat.leb_spec (length xs) cap) as [_|]; [|lia].
  destruct (construct_at_spec (buffer_ (data_ (vec xs cap))) (length xs) a tr)
    as [-> | [-> Hq]]; [rewrite length_vec_buffer; lia | | right; eauto].
  cbn [capacity_]. destruct (Nat.leb_spec (length xs) cap) as [_|]; [|lia].
  left. f_equal.
  replace (S (length xs)) with (length (xs ++ [arg_value a]))
    by (rewrite length_app; simpl; lia).
  apply vec_intro.
  - rewrite length_insert, length_vec_buffer; lia.
  - apply live_at_app. split.
    + apply live_at_insert_out; [lia | apply live_at_vec].
    + apply live_at_cons. split; [|apply live_at_nil].
      apply list_lookup_insert_eq. rewrite length_vec_buffer; lia.
  - apply raw_at_insert_out; [rewrite length_app; simpl; lia |].
    intros j Hj. apply raw_at_vec. rewrite length_app in Hj. simpl in Hj. lia.
Qed.

Lemma Emplace_fit_mid_spec xs1 y ys cap a tr :
  length (xs1 ++ y :: ys) < cap ->
  (exists t,
     Emplace E (length xs1) a (vec (xs1 ++ y :: ys) cap) tr =
       Normal (length xs1) (vec (xs1 ++ arg_value a :: y :: ys) cap) t)
  \/ exists e s t,
       Emplace E (length xs1) a (vec (xs1 ++ y :: ys) cap) tr = Throws e s t /\
       ~ quiet E.
Proof.
  intros Hlen. set (lo := length xs1). set (k := length ys).
  assert (Hn : length (xs1 ++ y :: ys) = S (lo + k))
    by (rewrite length_app; simpl; lia).
  set (buf := buffer_ (data_ (vec (xs1 ++ y :: ys) cap))).
  assert (Hbuf : length buf = cap) by (apply length_vec_buffer; lia).
  assert (Hlive : forall j, j <= lo + k -> exists x,
            (xs1 ++ y :: ys) !! j = Some x /\ buf !! j = Some (Some x)).
  { intros j Hj. destruct (lookup_lt_is_Some_2 (xs1 ++ y :: ys) j) as [x Hx];
      [lia |]. exists x. split; [done |]. by apply lookup_vec_live. }
  assert (Hraw : forall j, S (lo + k) <= j < cap -> buf !! j = Some None).
  { intros j Hj. apply raw_at_vec. lia. }
  unfold Emplace, Capacity, RawMemory_Capacity, RawMemory_plus, RawMemory_index.
  change (capacity_ (data_ (vec (xs1 ++ y :: ys) cap))) with cap.
  change (size_ (vec (xs1 ++ y :: ys) cap)) with (length (xs1 ++ y :: ys)).
  fold buf. rewrite Hn.
  destruct (Nat.eqb_spec (S (lo + k)) cap) as [|_]; [lia |].
  destruct (Nat.ltb_spec lo (S (lo + k))) as [_|]; [|lia].
  destruct (Nat.leb_spec (S (lo + k)) cap) as [_|]; [|lia].
  replace (S (lo + k) - 1) with (lo + k) by lia.
  replace (lo + k - lo) with k by lia.
  destruct (Hlive (lo + k)) as (l & Hl & Hbl); [lia |].
  unfold move_construct_at. rewrite Hbl.
  destruct (Nat.ltb_spec (S (lo + k)) (length buf)) as [_|]; [|lia].
  destruct (may_raise E tr (MoveCtor l)) eqn:Hr1.
  { right. do 3 eexists. split; [done |]. by eapply may_raise_not_quiet. }
  set (b1 := <[lo + k := Some (moved_from E l)]>
               (<[S (lo + k) := Some l]> buf)).
assert (Hb1 : length b1 = cap) by (unfold b1; by rewrite !length_insert).
  assert (Hb1out : forall j, j <> lo + k -> j <> S (lo + k) ->
                     b1 !! j = buf !! j).
  { intros j H1 H2. unfold b1. by rewrite !list_lookup_insert_ne. }
  assert (Hb1last : b1 !! S (lo + k) = Some (Some l)).
  { unfold b1. rewrite list_lookup_insert_ne by lia.
    apply list_lookup_insert_eq. lia. }
  destruct (move_backward_spec b1 lo k (tr ++ [Did (MoveCtor l)]))
    as [(b2 & t2 & -> & Hl2 & Hf & Hs & [d Hd]) | (e & b & t & -> & Hq)];
    [| |right; eauto].
  { intros j Hj. destruct (decide (j = lo + k)) as [-> | Hne].
    - exists (moved_from E l). unfold b1. apply list_lookup_insert_eq.
      rewrite length_insert. lia.
    - rewrite Hb1out by lia. destruct (Hlive j) as (x & _ & Hx); [lia |].
      eauto. }
  destruct (may_raise E t2 (arg_op a)) eqn:Hr2.
  { right. do 3 eexists. split; [done |]. by eapply may_raise_not_quiet. }
  destruct (Nat.ltb_spec lo cap) as [_|]; [|lia]. rewrite Hd.
  destruct (may_raise E (t2 ++ [Did (arg_op a)]) (MoveAssign d (arg_value a)))
    eqn:Hr3.
  { right. do 3 eexists. split; [done |]. by eapply may_raise_not_quiet. }
  cbn [capacity_]. destruct (Nat.leb_spec lo cap) as [_|]; [|lia].
  left. eexists. f_equal.
  replace (S (S (lo + k))) with (length (xs1 ++ arg_value a :: y :: ys))
    by (rewrite length_app; simpl; lia).
  apply vec_intro.
  - by rewrite length_insert, Hl2.
  - intros j x Hj. simpl.
    destruct (decide (j = lo)) as [-> | Hne].
    + rewrite list_lookup_middle in Hj by done. injection Hj as <-.
      apply list_lookup_insert_eq. lia.
    + rewrite list_lookup_insert_ne by done.
      destruct (decide (j < lo)) as [Hlt | Hge].
      * rewrite lookup_app_l in Hj by done.
        rewrite Hf, Hb1out by lia. apply lookup_vec_live.
        by apply lookup_app_l_Some.
      * rewrite lookup_app_r in Hj by (fold lo; lia). fold lo in Hj.
        replace (j - lo) with (S (j - lo - 1)) in Hj by lia. simpl in Hj.
        pose proof (lookup_lt_Some _ _ _ Hj) as Hjl. simpl in Hjl. fold k in Hjl.
        assert (Hold : buf !! (j - 1) = Some (Some x)).
        { apply lookup_vec_live. rewrite lookup_app_r by (fold lo; lia).
          fold lo. by replace (j - 1 - lo) with (j - lo - 1) by lia. }
        destruct (decide (j = S (lo + k))) as [-> | Hne2].
        -- rewrite Hf, Hb1last by lia.
           replace (S (lo + k) - 1) with (lo + k) in Hold by lia. congruence.
        -- rewrite Hs, Hb1out by lia. done.
  - intros j Hj. rewrite length_app in Hj. simpl in Hj. fold lo k in Hj.
    rewrite list_lookup_insert_ne by lia.
    rewrite Hf, Hb1out by lia. apply Hraw. lia.
Qed.

(** *** Erase *)

Lemma Erase_spec xs1 y xs2 cap tr :
  length (xs1 ++ y :: xs2) <= cap ->
  (exists t,
     Erase E (length xs1) (vec (xs1 ++ y :: xs2) cap) tr =
       Normal (length xs1) (vec (xs1 ++ xs2) cap) t)
  \/ exists e s t,
       Erase E (length xs1) (vec (xs1 ++ y :: xs2) cap) tr = Throws e s t /\
       ~ quiet E.
Proof.
  intros Hlen. set (lo := length xs1). set (k := length xs2).
  assert (Hn : length (xs1 ++ y :: xs2) = S (lo + k))
    by (rewrite length_app; simpl; lia).
  set (buf := buffer_ (data_ (vec (xs1 ++ y :: xs2) cap))).
  assert (Hbuf : length buf = cap) by (by apply length_vec_buffer).
  assert (Hraw : forall j, S (lo + k) <= j < cap -> buf !! j = Some None).
  { intros j Hj. apply raw_at_vec. lia. }
  unfold Erase, RawMemory_plus, RawMemory_index.
  change (capacity_ (data_ (vec (xs1 ++ y :: xs2) cap))) with cap.
  change (size_ (vec (xs1 ++ y :: xs2) cap)) with (length (xs1 ++ y :: xs2)).
  fold buf. rewrite Hn.
  destruct (Nat.leb_spec (S (lo + k)) cap) as [_|]; [|lia].
  destruct (Nat.leb_spec (S lo) (S (lo + k))) as [_|]; [|lia].
  replace (S (lo + k) - S lo) with k by lia.
  destruct (std_move_spec buf lo k tr)
    as [(b & t & -> & Hl & Hf & Hs & [z Hz]) | (e & b & t & -> & Hq)];
    [| |right; eauto].
  { intros j Hj. destruct (lookup_lt_is_Some_2 (xs1 ++ y :: xs2) j) as [x Hx];
      [lia |]. exists x. by apply lookup_vec_live. }
  destruct (Nat.ltb_spec (lo + k) cap) as [_|]; [|lia].
  unfold destroy_at. rewrite Hz. left. eexists. f_equal.
  replace (lo + k) with (length (xs1 ++ xs2)) at 2
    by (rewrite length_app; done).
  apply vec_intro.
  - by rewrite length_insert, Hl.
  - intros j x Hj. simpl. pose proof (lookup_lt_Some _ _ _ Hj) as Hjl.
    rewrite length_app in Hjl. fold lo k in Hjl.
    rewrite list_lookup_insert_ne by lia.
    destruct (decide (j < lo)) as [Hlt | Hge].
    + rewrite lookup_app_l in Hj by done. rewrite Hf by lia.
      apply lookup_vec_live. by apply lookup_app_l_Some.
    + rewrite lookup_app_r in Hj by (fold lo; lia). fold lo in Hj.
      rewrite Hs by lia. apply lookup_vec_live.
      rewrite lookup_app_r by (fold lo; lia). fold lo.
      by replace (S j - lo) with (S (j - lo)) by lia.
  - intros j Hj. rewrite length_app in Hj. fold lo k in Hj.
    destruct (decide (j = lo + k)) as [-> | Hne].
    + apply list_lookup_insert_eq. lia.
    + rewrite list_lookup_insert_ne by done. rewrite Hf by lia.
      apply Hraw. lia.
Qed.

(** *** Emplace at the end and EmplaceBack *)

Lemma CopyN_zero src first dst result tr :
  CopyN E src first 0 dst result tr = Normal tt (src, dst) tr.
Proof.
  unfold CopyN. by destruct (is_nothrow_move_constructible E || _).
Qed.

Lemma construct_at_Normal buf i a tr r b t :
  construct_at E buf i a tr = Normal r b t ->
  i < length buf /\ b = <[i := Some (arg_value a)]> buf.
Proof.
  unfold construct_at. destruct (Nat.ltb_spec i (length buf)); [|done].
  destruct (may_raise E tr (arg_op a)); [done |]. by intros [= _ <- _].
Qed.

Lemma Emplace_end_EmplaceBack this a tr :
  same_result (Emplace E (size_ this) a this tr) (EmplaceBack E a this tr).
Proof.
  unfold Emplace, EmplaceBack, index_ref, RawMemory_index, RawMemory_plus,
    RawMemory_new, Capacity, RawMemory_Capacity.
  destruct (Nat.eqb_spec (size_ this) (capacity_ (data_ this))) as [Hc | Hc].
  - set (g := if size_ this =? 0 then 1 else size_ this * 2).
    assert (Hg : size_ this < g)
      by (unfold g; destruct (Nat.eqb_spec (size_ this) 0); lia).
    destruct (Allocate E g tr) as [nb0 [] tr1 | e [] tr1 |]; simpl; try done.
    destruct (Nat.leb_spec (size_ this) g) as [_|]; [|lia].
    destruct (construct_at E nb0 (size_ this) a tr1) as [[] nb tr2 | e nb tr2 |]
      eqn:Hcons; simpl; try done.
    apply construct_at_Normal in Hcons as [Hi ->].
    destruct (CopyN E (buffer_ (data_ this)) 0 (size_ this)
                (<[size_ this := Some (arg_value a)]> nb0) 0 tr2)
      as [[] [ob nb1] tr3 | e [ob nb1] tr3 |] eqn:HC; simpl; try done.
    + rewrite <- Hc, Nat.leb_refl, Nat.sub_diag, CopyN_zero.
      destruct (destroy_n ob 0 (size_ this) tr3) as [[] b tr4 | |]; try done.
      simpl. replace (size_ this - 0) with (size_ this) by lia.
      destruct (Nat.leb_spec (size_ this) g) as [_|]; [|lia].
      destruct (Nat.ltb_spec (size_ this) (S (size_ this))) as [_|]; [|lia].
      destruct (Nat.ltb_spec (size_ this) g) as [_|]; [|lia].
      done.
    + apply CopyN_frame in HC as [_ Hf]. unfold destroy_at.
      rewrite Hf by lia. by rewrite list_lookup_insert_eq.
  - destruct (Nat.ltb_spec (size_ this) (size_ this)) as [|_]; [lia |].
    destruct (Nat.leb_spec (size_ this) (capacity_ (data_ this))) as [Hle|];
      [|done].
    destruct (construct_at E (buffer_ (data_ this)) (size_ this) a tr)
      as [[] b tr1 | e b tr1 |]; simpl; try done.
    replace (size_ this - 0) with (size_ this) by lia.
    destruct (Nat.leb_spec (size_ this) (capacity_ (data_ this))) as [_|];
      [|lia].
    destruct (Nat.ltb_spec (size_ this) (S (size_ this))) as [_|]; [|lia].
    destruct (Nat.ltb_spec (size_ this) (capacity_ (data_ this))) as [_|];
      [|lia].
    done.
Qed.

(** *** The invariant and the closed form *)

Lemma all_live_fmap (l : list (option T)) :
  forallb is_live l = true -> exists xs, l = Some <$> xs.
Proof.
  induction l as [|[x|] l IH]; simpl; intros H.
  - by exists [].
  - destruct (IH H) as [xs ->]. by exists (x :: xs).
  - done.
Qed.

Lemma all_raw_replicate (l : list (option T)) :
  forallb (fun s => negb (is_live s)) l = true ->
  l = replicate (length l) None.
Proof.
  induction l as [|[x|] l IH]; simpl; intros H; try done.
  f_equal. by apply IH.
Qed.

Lemma Invariant_vec xs cap : length xs <= cap -> Invariant (vec xs cap) = true.
Proof.
  intros Hlen. unfold Invariant.
  rewrite length_vec_buffer by done. simpl.
  rewrite Nat.eqb_refl. simpl.
  destruct (Nat.leb_spec (length xs) cap) as [_|]; [|lia]. simpl.
  rewrite take_app_length' by (by rewrite length_fmap).
  rewrite drop_app_length' by (by rewrite length_fmap).
  apply andb_true_iff. split.
  - apply forallb_forall. intros s Hs. apply list_elem_of_In in Hs.
    apply list_elem_of_fmap in Hs as (x & -> & _). done.
  - apply forallb_forall. intros s Hs. apply list_elem_of_In in Hs.
    apply elem_of_replicate in Hs as [-> _]. done.
Qed.

Lemma Invariant_inv this :
  Invariant this = true ->
  exists xs cap, length xs <= cap /\ this = vec xs cap.
Proof.
  destruct this as [[buf cap] size]. unfold Invariant. simpl.
  rewrite !andb_true_iff. intros [[[Hl Hs] Hlive] Hraw].
  apply Nat.eqb_eq in Hl. apply Nat.leb_le in Hs.
  apply all_live_fmap in Hlive as [xs Hxs].
  apply all_raw_replicate in Hraw.
  assert (Hsize : length xs = size).
  { rewrite <- (length_fmap Some xs), <- Hxs, length_take. lia. }
  exists xs, cap. split; [lia |]. unfold vec. rewrite Hsize. do 2 f_equal.
  rewrite <- (take_drop size buf) at 1. rewrite Hxs, Hraw at 1.
  by rewrite length_drop, Hl.
Qed.

Lemma elements_vec xs cap : elements (vec xs cap) = Some <$> xs.
Proof.
  unfold elements. simpl. by rewrite take_app_length' by (by rewrite length_fmap).
Qed.

Lemma Capacity_vec xs cap : Capacity (vec xs cap) = cap.
Proof. done. Qed.

Lemma vec_inj xs ys cap cap' : vec xs cap = vec ys cap' -> xs = ys /\ cap = cap'.
Proof.
  intros H. assert (He : elements (vec xs cap) = elements (vec ys cap'))
    by (by rewrite H).
  rewrite !elements_vec in He. split.
  - by apply (inj (fmap Some)) in He.
  - by injection H.
Qed.

(** *** EmplaceBack *)

Lemma EmplaceBack_spec xs cap a tr :
  length xs <= cap ->
  (exists t,
     EmplaceBack E a (vec xs cap) tr =
       Normal (length xs)
         (vec (xs ++ [arg_value a])
            (if length xs =? cap then grown cap else cap)) t)
  \/ exists e s t,
       EmplaceBack E a (vec xs cap) tr = Throws e s t /\ ~ quiet E.
Proof.
  intros Hlen.
  pose proof (Emplace_end_EmplaceBack (vec xs cap) a tr) as Heq.
  change (size_ (vec xs cap)) with (length xs) in Heq.
  assert (H :
    (exists t, Emplace E (length xs) a (vec xs cap) tr =
       Normal (length xs)
         (vec (xs ++ [arg_value a])
            (if length xs =? cap then grown cap else cap)) t)
    \/ exists e s t,
         Emplace E (length xs) a (vec xs cap) tr = Throws e s t /\ ~ quiet E).
  { destruct (Nat.eqb_spec (length xs) cap) as [<- | Hc].
    - pose proof (Emplace_grow_spec xs [] a tr) as H. simpl in H.
      rewrite app_nil_r in H. destruct H as [-> | H]; eauto.
    - destruct (Emplace_fit_end_spec xs cap a tr) as [-> | H]; eauto. lia. }
  destruct H as [[t H] | (e & s & t & H & Hq)]; rewrite H in Heq;
    destruct (EmplaceBack E a (vec xs cap) tr); try done.
  - destruct Heq as (<- & <- & <-). left. eauto.
  - destruct Heq as (<- & <-). right. eauto.
Qed.

(** *** Emplace at any valid position *)

Lemma Emplace_spec xs cap pos a tr :
  pos <= length xs -> length xs <= cap ->
  (exists t,
     Emplace E pos a (vec xs cap) tr =
       Normal pos
         (vec (take pos xs ++ arg_value a :: drop pos xs)
            (if length xs =? cap then grown cap else cap)) t)
  \/ exists e s t,
       Emplace E pos a (vec xs cap) tr = Throws e s t /\ ~ quiet E.
Proof.
  intros Hpos Hlen.
  assert (Hxs : xs = take pos xs ++ drop pos xs) by (by rewrite take_drop).
  assert (Hp : pos = length (take pos xs)) by (rewrite length_take; lia).
  revert Hxs Hp. generalize (take pos xs) (drop pos xs).
  intros xs1 xs2 -> ->. clear Hpos.
  destruct (Nat.eqb_spec (length (xs1 ++ xs2)) cap) as [<- | Hc].
  - destruct (Emplace_grow_spec xs1 xs2 a tr) as [-> | H]; eauto.
  - destruct xs2 as [|y ys].
    + revert Hlen Hc. rewrite app_nil_r. intros Hlen Hc.
      destruct (Emplace_fit_end_spec xs1 cap a tr) as [-> | H]; eauto. lia.
    + destruct (Emplace_fit_mid_spec xs1 y ys cap a tr) as [[t ->] | H];
        eauto. lia.
Qed.

Lemma lookup_insert_middle xs pos (v : T) :
  pos <= length xs -> (take pos xs ++ v :: drop pos xs) !! pos = Some v.
Proof.
  intros Hpos. apply list_lookup_middle. rewrite length_take. lia.
Qed.

Lemma delete_insert_middle xs pos (v : T) :
  pos <= length xs -> delete pos (take pos xs ++ v :: drop pos xs) = xs.
Proof.
  intros Hpos. rewrite delete_take_drop.
  rewrite take_app_length' by (rewrite length_take; lia).
  rewrite cons_middle, app_assoc.
  rewrite drop_app_length' by (rewrite length_app, length_take; simpl; lia).
  apply take_drop.
Qed.

Lemma Erase_spec_at xs cap pos tr :
  pos < length xs -> length xs <= cap ->
  (exists t, Erase E pos (vec xs cap) tr = Normal pos (vec (delete pos xs) cap) t)
  \/ exists e s t, Erase E pos (vec xs cap) tr = Throws e s t /\ ~ quiet E.
Proof.
  intros Hpos Hlen.
  destruct (lookup_lt_is_Some_2 xs pos Hpos) as [y Hy].
  rewrite delete_take_drop.
  assert (Hxs : xs = take pos xs ++ y :: drop (S pos) xs)
    by (by rewrite take_drop_middle).
  assert (Hp : pos = length (take pos xs)) by (rewrite length_take; lia).
  revert Hxs Hp. generalize (take pos xs) (drop (S pos) xs).
  intros xs1 xs2 Hxs ->. subst xs. by apply Erase_spec.
Qed.

Lemma at_vec xs cap i x :
  xs !! i = Some x -> length xs <= cap -> at_ (vec xs cap) i = Some x.
Proof.
  intros Hx Hlen. pose proof (lookup_lt_Some _ _ _ Hx) as Hi.
  unfold at_, index_ref, RawMemory_index.
  change (size_ (vec xs cap)) with (length xs).
  change (capacity_ (data_ (vec xs cap))) with cap.
  destruct (Nat.ltb_spec i (length xs)) as [_|]; [|lia].
  destruct (Nat.ltb_spec i cap) as [_|]; [|lia].
  by rewrite (lookup_vec_live _ _ _ _ Hx).
Qed.

Lemma length_insert_middle xs pos (v : T) :
  length (take pos xs ++ v :: drop pos xs) = S (length xs).
Proof.
  rewrite length_app. simpl. rewrite length_take, length_drop. lia.
Qed.

Lemma room_after_insert xs cap :
  length xs <= cap -> S (length xs) <= if length xs =? cap then grown cap else cap.
Proof.
  intros Hlen. pose proof (grown_gt cap).
  destruct (Nat.eqb_spec (length xs) cap); lia.
Qed.

(** *** Arguments that refer into the vector *)

(** [Emplace] is [Emplace_from] for an argument that does not depend on the
    state of the buffer. *)
Lemma Emplace_from_const pos a this tr :
  Emplace_from E pos (fun _ => Some a) this tr = Emplace E pos a this tr.
Proof. reflexivity. Qed.

(** On the growth path and in place at the end the argument is read before
    the buffer changes. *)
Lemma Emplace_from_before_shift pos value a this tr :
  size_ this = Capacity this \/ size_ this <= pos ->
  value (buffer_ (data_ this)) = Some a ->
  Emplace_from E pos value this tr = Emplace E pos a this tr.
Proof.
  intros Hb Hv. unfold Emplace_from, Emplace.
  destruct (size_ this =? Capacity this) eqn:Hc.
  - destruct (RawMemory_new E _ tr) as [nd [] tr1 | |]; try done.
    destruct (RawMemory_plus nd pos); [|done]. by rewrite Hv.
  - destruct (Nat.ltb_spec pos (size_ this)) as [Hlt|].
    + apply Nat.eqb_neq in Hc. lia.
    + destruct (RawMemory_plus (data_ this) pos); [|done]. by rewrite Hv.
Qed.

Lemma move_backward_throws_kind buf (n last d_last : nat) tr e b t :
  move_backward E buf n last d_last tr = Throws e b t ->
  exists d x, e = ElementError (MoveAssign d x).
Proof.
  revert buf last d_last tr.
  induction n as [|n IH]; intros buf last d_last tr; simpl; [done |].
  destruct last as [|last]; [done |]. destruct d_last as [|d_last]; [done |].
  unfold move_assign_slot.
  destruct (buf !! d_last) as [[d|]|]; try done.
  destruct (buf !! last) as [[x|]|]; try done.
  destruct (may_raise E tr (MoveAssign d x)).
  - intros [= <- _ _]. eauto.
  - apply IH.
Qed.

(** The slot the shift starts from is left in the moved-from state of its
    object. *)
Lemma move_backward_lo buf (lo n : nat) tr b t y :
  0 < n -> buf !! lo = Some (Some y) ->
  move_backward E buf n (lo + n) (S (lo + n)) tr = Normal tt b t ->
  b !! lo = Some (Some (moved_from E y)).
Proof.
  revert buf tr. induction n as [|n IH]; intros buf tr Hn Hy; [lia |].
  rewrite Nat.add_succ_r. simpl. unfold move_assign_slot.
  destruct (buf !! S (lo + n)) as [[d|]|] eqn:Hd; try done.
  destruct (buf !! (lo + n)) as [[x|]|] eqn:Hx; try done.
  destruct (may_raise E tr (MoveAssign d x)); [done |].
  pose proof (lookup_lt_Some _ _ _ Hd) as Hl.
  destruct n as [|n].
  - simpl. intros [= <- _]. rewrite Nat.add_0_r in *.
    rewrite Hy in Hx. injection Hx as <-.
    apply list_lookup_insert_eq. rewrite length_insert. lia.
  - apply IH; [lia |]. by rewrite !list_lookup_insert_ne by lia.
Qed.

Lemma insert_vec_buffer xs1 (m v : T) rest cap :
  <[length xs1 := Some v]> (buffer_ (data_ (vec (xs1 ++ m :: rest) cap))) =
  buffer_ (data_ (vec (xs1 ++ v :: rest) cap)).
Proof.
  simpl. rewrite !fmap_app, !fmap_cons, <- !app_assoc, !length_app. simpl.
  rewrite insert_app_r_alt by (by rewrite length_fmap).
  by rewrite length_fmap, Nat.sub_diag.
Qed.

(** [Emplace_from] in the middle of a vector with room, step by step: the
    shift either raises (in the move construction of the last element or in
    a move assignment) or leaves the buffer of
    [xs1 ++ moved_from y :: y :: ys]; only then is the argument read. *)
Lemma Emplace_from_fit_mid xs1 y ys cap value tr :
  length (xs1 ++ y :: ys) < cap ->
  let this := vec (xs1 ++ y :: ys) cap in
  let b2 := buffer_ (data_ (vec (xs1 ++ moved_from E y :: y :: ys) cap)) in
  (exists e s t,
     Emplace_from E (length xs1) value this tr = Throws e s t /\ ~ quiet E /\
     ((exists x, e = ElementError (MoveCtor x)) \/
      (exists d x, e = ElementError (MoveAssign d x))))
  \/ (value b2 = None /\
      Emplace_from E (length xs1) value this tr = Undefined)
  \/ (exists a t2,
        value b2 = Some a /\ ~ quiet E /\
        Emplace_from E (length xs1) value this tr =
          Throws (ElementError (arg_op a)) (with_buffer this b2)
            (t2 ++ [Raised (arg_op a)]))
  \/ (exists a t,
        value b2 = Some a /\
        Emplace_from E (length xs1) value this tr =
          Normal (length xs1) (vec (xs1 ++ arg_value a :: y :: ys) cap) t).
Proof.
  intros Hlen this b2. unfold this.
  set (lo := length xs1). set (k := length ys).
  assert (Hn : length (xs1 ++ y :: ys) = S (lo + k))
    by (rewrite length_app; simpl; lia).
  set (buf := buffer_ (data_ (vec (xs1 ++ y :: ys) cap))).
  assert (Hbuf : length buf = cap) by (apply length_vec_buffer; lia).
  assert (Hlive : forall j, j <= lo + k -> exists x,
            (xs1 ++ y :: ys) !! j = Some x /\ buf !! j = Some (Some x)).
  { intros j Hj. destruct (lookup_lt_is_Some_2 (xs1 ++ y :: ys) j) as [x Hx];
      [lia |]. exists x. split; [done |]. by apply lookup_vec_live. }
  assert (Hraw : forall j, S (lo + k) <= j < cap -> buf !! j = Some None).
  { intros j Hj. apply raw_at_vec. lia. }
  assert (Hlo : buf !! lo = Some (Some y)).
  { apply lookup_vec_live. by apply list_lookup_middle. }
  unfold Emplace_from, Capacity, RawMemory_Capacity, RawMemory_plus,
    RawMemory_index.
  change (capacity_ (data_ (vec (xs1 ++ y :: ys) cap))) with cap.
  change (size_ (vec (xs1 ++ y :: ys) cap)) with (length (xs1 ++ y :: ys)).
  fold buf. rewrite Hn.
  destruct (Nat.eqb_spec (S (lo + k)) cap) as [|_]; [lia |].
  destruct (Nat.ltb_spec lo (S (lo + k))) as [_|]; [|lia].
  destruct (Nat.leb_spec (S (lo + k)) cap) as [_|]; [|lia].
  replace (S (lo + k) - 1) with (lo + k) by lia.
  replace (lo + k - lo) with k by lia.
  destruct (Hlive (lo + k)) as (l & Hl & Hbl); [lia |].
  unfold move_construct_at. rewrite Hbl.
  destruct (Nat.ltb_spec (S (lo + k)) (length buf)) as [_|]; [|lia].
  destruct (may_raise E tr (MoveCtor l)) eqn:Hr1.
  { left. do 3 eexists. split; [done |].
    split; [by eapply may_raise_not_quiet | left; eauto]. }
  set (b1 := <[lo + k := Some (moved_from E l)]>
               (<[S (lo + k) := Some l]> buf)).
  assert (Hb1 : length b1 = cap) by (unfold b1; by rewrite !length_insert).
  assert (Hb1out : forall j, j <> lo + k -> j <> S (lo + k) ->
                     b1 !! j = buf !! j).
  { intros j H1 H2. unfold b1. by rewrite !list_lookup_insert_ne. }
  assert (Hb1last : b1 !! S (lo + k) = Some (Some l)).
  { unfold b1. rewrite list_lookup_insert_ne by lia.
    apply list_lookup_insert_eq. lia. }
  destruct (move_backward E b1 k (lo + k) (S (lo + k))
              (tr ++ [Did (MoveCtor l)])) as [[] b2' t2 | e b t |] eqn:Hmb.
  2:{ left. destruct (move_backward_throws_kind _ _ _ _ _ _ _ _ Hmb)
        as (d & x & ->).
      destruct (move_backward_spec b1 lo k (tr ++ [Did (MoveCtor l)]))
        as [(b' & t' & Hmb' & _) | (e' & b' & t' & Hmb' & Hq)].
      - intros j Hj. destruct (decide (j = lo + k)) as [-> | Hne].
        + exists (moved_from E l). unfold b1. apply list_lookup_insert_eq.
          rewrite length_insert. lia.
        + rewrite Hb1out by lia. destruct (Hlive j) as (x' & _ & Hx'); [lia |].
          eauto.
      - congruence.
      - do 3 eexists. split; [done |]. split; [done | right; eauto]. }
  2:{ destruct (move_backward_spec b1 lo k (tr ++ [Did (MoveCtor l)]))
        as [(b' & t' & Hmb' & _) | (e' & b' & t' & Hmb' & Hq)];
        [| congruence | congruence].
      intros j Hj. destruct (decide (j = lo + k)) as [-> | Hne].
      - exists (moved_from E l). unfold b1. apply list_lookup_insert_eq.
        rewrite length_insert. lia.
      - rewrite Hb1out by lia. destruct (Hlive j) as (x' & _ & Hx'); [lia |].
        eauto. }
  assert (Hb2 : b2' = b2).
  { destruct (move_backward_spec b1 lo k (tr ++ [Did (MoveCtor l)]))
      as [(b' & t' & Hmb' & Hl2 & Hf & Hs & _) | (e' & b' & t' & Hmb' & _)];
      [| |congruence].
    { intros j Hj. destruct (decide (j = lo + k)) as [-> | Hne].
      - exists (moved_from E l). unfold b1. apply list_lookup_insert_eq.
        rewrite length_insert. lia.
      - rewrite Hb1out by lia. destruct (Hlive j) as (x' & _ & Hx'); [lia |].
        eauto. }
    rewrite Hmb in Hmb'. injection Hmb' as <- <-.
    assert (Hm : b2' !! lo = Some (Some (moved_from E y))).
    { destruct k as [|k'] eqn:Hk.
      - simpl in Hmb. injection Hmb as <- _.
        rewrite Nat.add_0_r in *. rewrite Hlo in Hbl. injection Hbl as <-.
        unfold b1. rewrite Nat.add_0_r. apply list_lookup_insert_eq.
        rewrite length_insert. lia.
      - eapply move_backward_lo; [| |exact Hmb]; [lia |].
        rewrite Hb1out by lia. done. }
    unfold b2.
    apply (f_equal (fun v : Vector T => buffer_ (data_ v))
             (x := {| data_ := {| buffer_ := b2'; capacity_ := cap |};
                      size_ := length (xs1 ++ moved_from E y :: y :: ys) |})).
    apply vec_intro.
    - by rewrite Hl2.
    - intros j x Hj. simpl.
      destruct (decide (j = lo)) as [-> | Hne].
      + rewrite list_lookup_middle in Hj by done. by injection Hj as <-.
      + destruct (decide (j < lo)) as [Hlt | Hge].
        * rewrite lookup_app_l in Hj by done.
          rewrite Hf, Hb1out by lia. apply lookup_vec_live.
          by apply lookup_app_l_Some.
        * rewrite lookup_app_r in Hj by (fold lo; lia). fold lo in Hj.
          replace (j - lo) with (S (j - lo - 1)) in Hj by lia. simpl in Hj.
          pose proof (lookup_lt_Some _ _ _ Hj) as Hjl. simpl in Hjl.
          fold k in Hjl.
          assert (Hold : buf !! (j - 1) = Some (Some x)).
          { apply lookup_vec_live. rewrite lookup_app_r by (fold lo; lia).
            fold lo. by replace (j - 1 - lo) with (j - lo - 1) by lia. }
          destruct (decide (j = S (lo + k))) as [-> | Hne2].
          -- rewrite Hf, Hb1last by lia.
             replace (S (lo + k) - 1) with (lo + k) in Hold by lia. congruence.
          -- rewrite Hs, Hb1out by lia. done.
    - intros j Hj. rewrite length_app in Hj. simpl in Hj. fold lo k in Hj.
      rewrite Hf, Hb1out by lia. apply Hraw. lia. }
  subst b2'.
  destruct (value b2) as [a|] eqn:Hv; [|by right; left].
  destruct (may_raise E t2 (arg_op a)) eqn:Hr2.
  { right; right; left. exists a, t2. split; [done |].
    split; [by eapply may_raise_not_quiet | done]. }
  destruct (Nat.ltb_spec lo cap) as [_|]; [|lia].
  assert (Hd : b2 !! lo = Some (Some (moved_from E y))).
  { apply lookup_vec_live. by apply list_lookup_middle. }
  rewrite Hd.
  destruct (may_raise E (t2 ++ [Did (arg_op a)])
              (MoveAssign (moved_from E y) (arg_value a))) eqn:Hr3.
  { left. do 3 eexists. split; [done |].
    split; [by eapply may_raise_not_quiet | right; eauto]. }
  cbn [capacity_]. destruct (Nat.leb_spec lo cap) as [_|]; [|lia].
  right; right; right. exists a. eexists. split; [done |]. f_equal.
  unfold b2, lo. rewrite insert_vec_buffer.
  replace (S (S (length xs1 + k)))
    with (length (xs1 ++ arg_value a :: y :: ys))
    by (rewrite length_app; simpl; lia).
  done.
Qed.

Lemma index_ref_vec xs cap (k : nat) :
  k < length xs -> length xs <= cap -> index_ref (vec xs cap) k = Some k.
Proof.
  intros Hk Hlen. unfold index_ref, RawMemory_index.
  change (size_ (vec xs cap)) with (length xs).
  change (capacity_ (data_ (vec xs cap))) with cap.
  destruct (Nat.ltb_spec k (length xs)) as [_|]; [|lia].
  by destruct (Nat.ltb_spec k cap) as [_|]; [|lia].
Qed.

Lemma own_element_vec xs cap (k : nat) x :
  xs !! k = Some x ->
  own_element k (buffer_ (data_ (vec xs cap))) = Some (ByCopy x).
Proof. intros Hx. unfold own_element. by rewrite (lookup_vec_live _ _ _ _ Hx). Qed.

(** [Emplace(pos, v[k])] on [v] itself, for every position and every
    element: which value ends up at [pos]. *)
Lemma Emplace_own_spec xs cap (pos k : nat) x tr :
  pos <= length xs -> length xs <= cap -> xs !! k = Some x ->
  exists y,
    (length xs = cap \/ k < pos -> y = x) /\
    (length xs < cap -> k = pos -> y = moved_from E x) /\
    (length xs < cap -> pos < k -> xs !! (k - 1) = Some y) /\
    ((exists t,
        Emplace_own E pos k (vec xs cap) tr =
          Normal pos
            (vec (take pos xs ++ y :: drop pos xs)
               (if length xs =? cap then grown cap else cap)) t)
     \/ exists e s t,
          Emplace_own E pos k (vec xs cap) tr = Throws e s t /\ ~ quiet E).
Proof.
  intros Hpos Hlen Hx. pose proof (lookup_lt_Some _ _ _ Hx) as Hk.
  unfold Emplace_own. rewrite index_ref_vec by done.
  destruct (decide (length xs = cap \/ length xs <= pos)) as [Hb | Hb].
  - exists x.
    rewrite (Emplace_from_before_shift pos _ (ByCopy x));
      [|exact Hb | by apply own_element_vec].
    split; [done |]. split; [intros; lia |]. split; [intros; lia |].
    apply (Emplace_spec xs cap pos (ByCopy x) tr Hpos Hlen).
  - assert (Hc : length xs <> cap) by tauto.
    assert (Hlt : pos < length xs) by lia. clear Hb.
    destruct (lookup_lt_is_Some_2 xs pos Hlt) as [z Hz].
    assert (Hxs : xs = take pos xs ++ z :: drop (S pos) xs)
      by (by rewrite take_drop_middle).
    assert (Hp : pos = length (take pos xs)) by (rewrite length_take; lia).
    revert Hxs Hp. generalize (take pos xs) (drop (S pos) xs).
    intros xs1 ys -> ->. clear Hz Hpos Hlt.
    rewrite drop_app_length.
    destruct (Nat.eqb_spec (length (xs1 ++ z :: ys)) cap) as [|_]; [done |].
    set (zs := xs1 ++ moved_from E z :: z :: ys).
    assert (Hzk : k < length zs).
    { unfold zs. rewrite length_app in Hk |- *. simpl in *. lia. }
    destruct (lookup_lt_is_Some_2 zs k Hzk) as [y Hy].
    exists y. split; [|split; [|split]].
    + intros [|Hkp]; [done |].
      unfold zs in Hy. rewrite lookup_app_l in Hy, Hx by done. congruence.
    + intros _ ->. unfold zs in Hy.
      rewrite list_lookup_middle in Hy, Hx by done. congruence.
    + intros _ Hkp. unfold zs in Hy.
      rewrite lookup_app_r in Hy by lia. rewrite lookup_app_r by lia.
      replace (k - length xs1) with (S (k - 1 - length xs1)) in Hy by lia.
      done.
    + destruct (Emplace_from_fit_mid xs1 z ys cap (own_element k) tr)
        as [(e & s & t & H & Hq & _) | [[Hv _] | [(a & t2 & _ & Hq & H)
             | (a & t & Hv & H)]]]; [lia | | | |].
      * right. eauto.
      * fold zs in Hv. by rewrite (own_element_vec zs cap k y Hy) in Hv.
      * right. eauto.
      * fold zs in Hv. rewrite (own_element_vec zs cap k y Hy) in Hv.
        injection Hv as <-. left. eauto.
Qed.

(** * The claims *)

(** C4: for a vector that satisfies the invariant and a position
    [pos <= size], [Insert] at [pos] followed by [Erase] at [pos] gives back
    the original sequence of elements and the original size.  With an
    element type that never raises both calls return. *)
Theorem Insert_then_Erase_restores this pos a tr :
  Invariant this = true -> pos <= Size this ->
  (forall r1 this1 tr1 r2 this2 tr2,
     Insert E pos a this tr = Normal r1 this1 tr1 ->
     Erase E pos this1 tr1 = Normal r2 this2 tr2 ->
     elements this2 = elements this /\ Size this2 = Size this) /\
  (quiet E -> exists r1 this1 tr1 r2 this2 tr2,
     Insert E pos a this tr = Normal r1 this1 tr1 /\
     Erase E pos this1 tr1 = Normal r2 this2 tr2).
Proof.
  intros Hinv Hpos. apply Invariant_inv in Hinv as (xs & cap & Hlen & ->).
  change (Size (vec xs cap)) with (length xs) in Hpos |- *. unfold Insert.
  set (ys := take pos xs ++ arg_value a :: drop pos xs).
  set (cap' := if length xs =? cap then grown cap else cap).
  assert (Hys : length ys = S (length xs)) by apply length_insert_middle.
  assert (Hcap' : length ys <= cap')
    by (rewrite Hys; by apply room_after_insert).
  assert (Hdel : delete pos ys = xs) by (by apply delete_insert_middle).
  destruct (Emplace_spec xs cap pos a tr Hpos Hlen)
    as [[t H] | (e & s & t & H & Hq)]; rewrite H; fold ys cap'.
  - assert (He : forall tr1,
        (exists t2, Erase E pos (vec ys cap') tr1 = Normal pos (vec xs cap') t2)
        \/ exists e s t2,
             Erase E pos (vec ys cap') tr1 = Throws e s t2 /\ ~ quiet E).
    { intros tr1.
      replace (vec xs cap') with (vec (delete pos ys) cap') by (by rewrite Hdel).
      apply Erase_spec_at; lia. }
    split.
    + intros r1 this1 tr1 r2 this2 tr2 [= <- <- <-] H2.
      destruct (He t) as [[t2 H3] | (e & s & t2 & H3 & _)];
        rewrite H3 in H2; [|done].
      injection H2 as <- <- <-. by rewrite !elements_vec.
    + intros Hquiet. destruct (He t) as [[t2 H3] | (e & s & t2 & H3 & Hq)];
        [|by destruct Hq].
      by exists pos, (vec ys cap'), t, pos, (vec xs cap'), t2.
  - split; [done |]. intros Hquiet. by destruct Hq.
Qed.

(** C8: inserting at the end is appending.  From any state [Emplace] at
    offset [size()] and [EmplaceBack] end the same way; on normal return
    they leave the same vector (buffer, capacity and size) and have
    performed the same element operations, and both return the offset of
    the new element; when they raise they raise the same exception and leave
    the same vector.  The same holds for [Insert] and [PushBack]. *)
Theorem Emplace_at_end_is_EmplaceBack this a tr :
  same_result (Emplace E (Size this) a this tr) (EmplaceBack E a this tr) /\
  same_result (Insert E (Size this) a this tr) (EmplaceBack E a this tr) /\
  same_result (PushBack E a this tr)
    (match Insert E (Size this) a this tr with
     | Normal _ v t => Normal tt v t
     | Throws e v t => Throws e v t
     | Undefined => Undefined
     end).
Proof.
  pose proof (Emplace_end_EmplaceBack this a tr) as H.
  unfold Insert, PushBack, Size. repeat split; try done.
  destruct (Emplace E (size_ this) a this tr) as [r1 v1 t1 | e1 v1 t1 |],
    (EmplaceBack E a this tr) as [r2 v2 t2 | e2 v2 t2 |]; simpl in *;
    try done.
  - by destruct H as (_ & -> & ->).
  - by destruct H as (-> & ->).
Qed.

Lemma with_buffer_same this : with_buffer this (buffer_ (data_ this)) = this.
Proof. by destruct this as [[buf cap] size]. Qed.

Lemma uses_move_false :
  is_nothrow_move_constructible E = false -> is_copy_constructible E = true ->
  uses_move E = false.
Proof. unfold uses_move. by intros -> ->. Qed.

Lemma CopyN_Normal_copy src first n dst result tr r s d t :
  uses_move E = false ->
  CopyN E src first n dst result tr = Normal r (s, d) t -> s = src.
Proof.
  unfold CopyN, uses_move. intros ->.
  destruct (uninitialized_copy_n _ _ _ _ _ _ _); try done. by intros [= _ <- _ _].
Qed.

Lemma Reserve_Throws this k tr e this' tr' :
  Reserve E k this tr = Throws e this' tr' ->
  Capacity this' = Capacity this /\ Size this' = Size this /\
  (is_nothrow_move_constructible E = true \/ is_copy_constructible E = true ->
   this' = this).
Proof.
  unfold Reserve, RawMemory_new_wrapping.
  destruct (k <=? RawMemory_Capacity (data_ this)); [done |].
  destruct (Allocate_wrapping E k tr) as [nb [] tr1 | e1 [] tr1 |]; try done.
  - destruct (CopyN E _ 0 _ _ 0 tr1) as [[] [ob nb'] tr2 | e2 [ob nb'] tr2 |]
      eqn:HC; try done.
    + destruct (destroy_n ob 0 (size_ this) tr2); done.
    + intros [= <- <- <-]. repeat split; try done. intros Htraits.
      destruct (is_nothrow_move_constructible E) eqn:Hn.
      * by apply CopyN_nothrow in HC.
      * destruct Htraits as [|Hc]; [done |].
        apply CopyN_throws_copy in HC as ->; [|by apply uses_move_false].
        apply with_buffer_same.
  - by intros [= <- <- <-].
Qed.





Lemma EmplaceBack_Throws_copy this a tr e this' tr' :
  uses_move E = false -> size_ this = Capacity this ->
  EmplaceBack E a this tr = Throws e this' tr' -> this' = this.
Proof.
  intros Hpol Hfull. unfold EmplaceBack, RawMemory_new.
  rewrite Hfull, Nat.eqb_refl.
  destruct (Allocate E _ tr) as [nb0 [] tr1 | e1 [] tr1 |]; try done;
    [|by intros [= _ <- _]].
  destruct (RawMemory_plus _ _) as [p|]; [|done].
  cbn [buffer_ capacity_].
  destruct (construct_at E nb0 p a tr1) as [[] nb tr2 | e2 nb tr2 |]; try done;
    [|by intros [= _ <- _]].
  destruct (CopyN E _ 0 _ nb 0 tr2) as [[] [ob nb'] tr3 | e3 [ob nb'] tr3 |]
    eqn:HC; try done.
  - destruct (destroy_n ob 0 _ tr3); try done. by destruct (index_ref _ _).
  - intros [= _ <- _]. apply CopyN_throws_copy in HC as ->; [|done].
    apply with_buffer_same.
Qed.

Lemma Emplace_Throws_copy this pos a tr e this' tr' :
  uses_move E = false -> size_ this = Capacity this ->
  Emplace E pos a this tr = Throws e this' tr' -> this' = this.
Proof.
  intros Hpol Hfull. unfold Emplace, RawMemory_new.
  rewrite Hfull, Nat.eqb_refl.
  destruct (Allocate E _ tr) as [nb0 [] tr1 | e1 [] tr1 |]; try done;
    [|by intros [= _ <- _]].
  destruct (RawMemory_plus _ pos) as [p|]; [|done].
  cbn [buffer_ capacity_].
  destruct (construct_at E nb0 p a tr1) as [[] nb tr2 | e2 nb tr2 |]; try done;
    [|by intros [= _ <- _]].
  destruct (CopyN E _ 0 pos nb 0 tr2) as [[] [ob nb1] tr3 | e3 [ob nb1] tr3 |]
    eqn:HC1; try done.
  - apply CopyN_Normal_copy in HC1 as ->; [|done].
    destruct (RawMemory_plus (data_ this) pos) as [q|]; [|done].
    destruct (pos <=? Capacity this); [|done].
    destruct (CopyN E _ q _ nb1 _ tr3)
      as [[] [ob2 nb2] tr4 | e4 [ob2 nb2] tr4 |] eqn:HC2; try done.
    + destruct (destroy_n ob2 0 _ tr4); try done.
      by destruct (RawMemory_plus _ _).
    + apply CopyN_throws_copy in HC2 as ->; [|done].
      destruct (destroy_n nb2 0 _ tr4); try done.
      intros [= _ <- _]. apply with_buffer_same.
  - apply CopyN_throws_copy in HC1 as ->; [|done].
    destruct (destroy_at nb1 p tr3); try done.
    intros [= _ <- _]. apply with_buffer_same.
Qed.

(** C2: let the element type have a copy constructor and a move constructor
    that is not declared non-raising, so relocation copies.  If an append
    ([EmplaceBack], [PushBack]) or an insert ([Emplace], [Insert]) on a full
    vector ends with an exception -- in particular one raised by an element
    copy during relocation -- the vector is exactly as it was before the
    call: same buffer contents, same capacity, same size. *)
Theorem growth_failure_leaves_vector_unchanged this pos a tr e this' tr' :
  is_nothrow_move_constructible E = false ->
  is_copy_constructible E = true ->
  Size this = Capacity this ->
  EmplaceBack E a this tr = Throws e this' tr' \/
  PushBack E a this tr = Throws e this' tr' \/
  Emplace E pos a this tr = Throws e this' tr' \/
  Insert E pos a this tr = Throws e this' tr' ->
  this' = this.
Proof.
  intros Hn Hc Hfull H. pose proof (uses_move_false Hn Hc) as Hpol.
  destruct H as [H | [H | [H | H]]].
  - by eapply EmplaceBack_Throws_copy.
  - unfold PushBack in H.
    destruct (EmplaceBack E a this tr) as [r v t | e1 v t |] eqn:H1; try done.
    injection H as <- <- <-. by eapply EmplaceBack_Throws_copy.
  - by eapply Emplace_Throws_copy.
  - by eapply Emplace_Throws_copy.
Qed.

(** C10: assigning a vector to itself changes nothing.  Copy assignment
    with [this == &rhs] returns at once, without any element operation, and
    so does move assignment; the store, and with it the size, capacity and
    elements of the vector, is unchanged. *)
Theorem self_assignment_is_noop (a : nat) (st : gmap nat (Vector T)) tr v :
  st !! a = Some v ->
  Vector_copy_assign E a a st tr = Normal tt st tr /\
  Vector_move_assign a a st = Some st.
Proof.
  intros Ha. unfold Vector_copy_assign, Vector_move_assign. rewrite Ha.
  by destruct (decide (a = a)).
Qed.

Lemma Vector_move_assign_distinct (this rhs : nat) (st : gmap nat (Vector T))
    v r :
  this <> rhs -> st !! this = Some v -> st !! rhs = Some r ->
  Vector_move_assign this rhs st = Some (<[rhs := v]> (<[this := r]> st)).
Proof.
  intros Hne Hv Hr. unfold Vector_move_assign, Vector_Swap. rewrite Hv, Hr.
  destruct (decide (this = rhs)); [done |]. by destruct v as [[]], r as [[]].
Qed.

(** C1 (amended): move construction leaves the source with size 0 and
    capacity 0 and gives the new vector exactly the former state of the
    source.  Move assignment between two distinct vectors exchanges their
    states: the destination gets exactly the former state of the source, and
    the source gets the former state of the destination (so it is empty only
    if the destination was).  Neither operation can raise, and neither
    performs any element operation or allocation. *)
Theorem move_transfers_state (this rhs : nat) (st : gmap nat (Vector T)) v r :
  this <> rhs -> st !! this = Some v -> st !! rhs = Some r ->
  Vector_move r = (r, Vector_default) /\
  Size (@Vector_default T) = 0 /\ Capacity (@Vector_default T) = 0 /\
  exists st',
    Vector_move_assign this rhs st = Some st' /\
    st' !! this = Some r /\ st' !! rhs = Some v /\
    forall a, a <> this -> a <> rhs -> st' !! a = st !! a.
Proof.
  intros Hne Hv Hr. split; [by destruct r as [[]] |].
  split; [done |]. split; [done |].
  exists (<[rhs := v]> (<[this := r]> st)).
  split; [by apply Vector_move_assign_distinct |].
  split; [by rewrite lookup_insert_ne, lookup_insert_eq |].
  split; [by rewrite lookup_insert_eq |].
  intros a H1 H2. by rewrite !lookup_insert_ne.
Qed.

(** *** The growth policy *)

Lemma grown_max cap : grown cap = Nat.max 1 (2 * cap).
Proof. unfold grown. destruct (Nat.eqb_spec cap 0); lia. Qed.

Lemma EmplaceBack_Normal_capacity this a tr r this' tr' :
  EmplaceBack E a this tr = Normal r this' tr' ->
  Capacity this' =
    if Size this =? Capacity this then Nat.max 1 (2 * Capacity this)
    else Capacity this.
Proof.
  unfold EmplaceBack, RawMemory_new, Size, Capacity, RawMemory_Capacity.
  destruct (Nat.eqb_spec (size_ this) (capacity_ (data_ this))) as [Hc | Hc].
  - rewrite <- grown_max, <- Hc. fold (grown (size_ this)).
    destruct (Allocate E _ tr) as [nb0 [] tr1 | |]; try done.
    destruct (RawMemory_plus _ _) as [p|]; [|done].
    destruct (construct_at E _ p a tr1) as [[] nb tr2 | |]; try done.
    destruct (CopyN E _ 0 _ nb 0 tr2) as [[] [ob nb'] tr3 | ? [ob nb'] ? |];
      try done.
    destruct (destroy_n ob 0 _ tr3); try done.
    destruct (index_ref _ _); [|done]. by intros [= _ <- _].
  - destruct (RawMemory_plus _ _) as [p|]; [|done].
    destruct (construct_at E _ p a tr) as [[] nb tr2 | |]; try done.
    destruct (index_ref _ _); [|done]. by intros [= _ <- _].
Qed.

Lemma Emplace_Normal_capacity this pos a tr r this' tr' :
  Emplace E pos a this tr = Normal r this' tr' ->
  Capacity this' =
    if Size this =? Capacity this then Nat.max 1 (2 * Capacity this)
    else Capacity this.
Proof.
  unfold Emplace, RawMemory_new, Size, Capacity, RawMemory_Capacity.
  destruct (Nat.eqb_spec (size_ this) (capacity_ (data_ this))) as [Hc | Hc].
  - rewrite <- grown_max, <- Hc. fold (grown (size_ this)).
    destruct (Allocate E _ tr) as [nb0 [] tr1 | |]; try done.
    destruct (RawMemory_plus _ pos) as [p|]; [|done].
    destruct (construct_at E _ p a tr1) as [[] nb tr2 | |]; try done.
    destruct (CopyN E _ 0 _ nb 0 tr2) as [[] [ob nb1] tr3 | ? [ob nb1] ? |];
      try done; [|by destruct (destroy_at _ _ _)].
    destruct (RawMemory_plus (data_ this) pos) as [q|]; [|done].
    destruct (pos <=? size_ this); [|done].
    destruct (CopyN E ob q _ nb1 _ tr3) as [[] [ob2 nb2] tr4 | ? [ob2 nb2] ? |];
      try done; [|by destruct (destroy_n _ _ _ _)].
    destruct (destroy_n ob2 0 _ tr4); try done.
    destruct (RawMemory_plus _ _); [|done]. by intros [= _ <- _].
  - destruct (pos <? size_ this).
    + destruct (RawMemory_plus _ _) as [e_|]; [|done].
      destruct (move_construct_at E _ e_ _ tr) as [[] b1 tr1 | |]; try done.
      destruct (move_backward E b1 _ _ e_ tr1) as [[] b2 tr2 | |]; try done.
      destruct (may_raise E tr2 (arg_op a)); [done |].
      destruct (RawMemory_index _ _) as [i|]; [|done].
      destruct (b2 !! i) as [[d|]|]; try done.
      destruct (may_raise E _ (MoveAssign d _)); [done |].
      destruct (RawMemory_plus _ _); [|done]. by intros [= _ <- _].
    + destruct (RawMemory_plus _ _) as [p|]; [|done].
      destruct (construct_at E _ p a tr) as [[] b tr1 | |]; try done.
      destruct (RawMemory_plus _ _); [|done]. by intros [= _ <- _].
Qed.

Lemma le_capacity_after n : n <= capacity_after n.
Proof.
  unfold capacity_after. destruct (Nat.eqb_spec n 0); [lia |].
  apply Nat.log2_log2_up_spec. lia.
Qed.

Lemma capacity_after_succ n :
  capacity_after (S n) =
    if n =? capacity_after n then grown (capacity_after n)
    else capacity_after n.
Proof.
  destruct n as [|n]; [done |].
  pose proof (le_capacity_after (S n)) as Hle. revert Hle.
  unfold capacity_after, grown.
  change (S (S n) =? 0) with false. change (S n =? 0) with false.
  cbv iota. set (m := S n). set (a := Nat.log2_up m). intros Hle.
  destruct (Nat.eqb_spec m (2 ^ a)) as [Hm | Hm].
  - destruct (Nat.eqb_spec (2 ^ a) 0) as [H0 | _]; [unfold m in *; lia |].
    rewrite Hm at 1. rewrite Nat.log2_up_succ_pow2 by lia.
    rewrite Nat.pow_succ_r'. lia.
  - f_equal. apply Nat.le_antisymm.
    + apply Nat.log2_up_le_pow2; [lia |]. fold a. lia.
    + apply Nat.log2_up_le_mono. lia.
Qed.

Lemma capacity_after_step n :
  capacity_after (S n) = capacity_after n \/
  capacity_after (S n) = Nat.max 1 (2 * capacity_after n).
Proof.
  rewrite capacity_after_succ, <- grown_max.
  destruct (n =? capacity_after n); auto.
Qed.

Lemma PushBack_all_spec (xs : list (args T)) ys tr :
  (exists t,
     PushBack_all E xs (vec ys (capacity_after (length ys))) tr =
       Normal (capacity_after <$> seq (S (length ys)) (length xs))
         (vec (ys ++ (arg_value <$> xs))
            (capacity_after (length ys + length xs))) t)
  \/ exists e s t,
       PushBack_all E xs (vec ys (capacity_after (length ys))) tr =
         Throws e s t /\ ~ quiet E.
Proof.
  revert ys tr. induction xs as [|a xs IH]; intros ys tr.
  - left. exists tr. simpl. by rewrite app_nil_r, Nat.add_0_r.
  - simpl. unfold PushBack.
    destruct (EmplaceBack_spec ys (capacity_after (length ys)) a tr)
      as [[t ->] | (e & s & t & -> & Hq)];
      [apply le_capacity_after | | right; eauto].
    rewrite <- capacity_after_succ.
    replace (S (length ys)) with (length (ys ++ [arg_value a]))
      by (rewrite length_app; simpl; lia).
    destruct (IH (ys ++ [arg_value a]) t)
      as [[t' ->] | (e & s & t' & -> & Hq)]; [|right; eauto].
    left. exists t'. rewrite Capacity_vec, <- app_assoc, length_app. simpl.
    by replace (length ys + 1 + length xs) with (length ys + S (length xs))
      by lia.
Qed.

Lemma Forall2_le_capacity_after (l : list nat) :
  Forall2 le l (capacity_after <$> l).
Proof.
  induction l as [|n l IH]; constructor; [apply le_capacity_after | done].
Qed.

Lemma Emplace_from_Normal_capacity this pos value tr r this' tr' :
  Emplace_from E pos value this tr = Normal r this' tr' ->
  Capacity this' =
    if Size this =? Capacity this then Nat.max 1 (2 * Capacity this)
    else Capacity this.
Proof.
  unfold Emplace_from, RawMemory_new, Size, Capacity, RawMemory_Capacity.
  destruct (Nat.eqb_spec (size_ this) (capacity_ (data_ this))) as [Hc | Hc].
  - rewrite <- grown_max, <- Hc. fold (grown (size_ this)).
    destruct (Allocate E _ tr) as [nb0 [] tr1 | |]; try done.
    destruct (RawMemory_plus _ pos) as [p|]; [|done].
    destruct (value _) as [a|]; [|done].
    destruct (construct_at E _ p a tr1) as [[] nb tr2 | |]; try done.
    destruct (CopyN E _ 0 _ nb 0 tr2) as [[] [ob nb1] tr3 | ? [ob nb1] ? |];
      try done; [|by destruct (destroy_at _ _ _)].
    destruct (RawMemory_plus (data_ this) pos) as [q|]; [|done].
    destruct (pos <=? size_ this); [|done].
    destruct (CopyN E ob q _ nb1 _ tr3) as [[] [ob2 nb2] tr4 | ? [ob2 nb2] ? |];
      try done; [|by destruct (destroy_n _ _ _ _)].
    destruct (destroy_n ob2 0 _ tr4); try done.
    destruct (RawMemory_plus _ _); [|done]. by intros [= _ <- _].
  - destruct (pos <? size_ this).
    + destruct (RawMemory_plus _ _) as [e_|]; [|done].
      destruct (move_construct_at E _ e_ _ tr) as [[] b1 tr1 | |]; try done.
      destruct (move_backward E b1 _ _ e_ tr1) as [[] b2 tr2 | |]; try done.
      destruct (value b2) as [a|]; [|done].
      destruct (may_raise E tr2 (arg_op a)); [done |].
      destruct (RawMemory_index _ _) as [i|]; [|done].
      destruct (b2 !! i) as [[d|]|]; try done.
      destruct (may_raise E _ (MoveAssign d _)); [done |].
      destruct (RawMemory_plus _ _); [|done]. by intros [= _ <- _].
    + destruct (RawMemory_plus _ _) as [p|]; [|done].
      destruct (value _) as [a|]; [|done].
      destruct (construct_at E _ p a tr) as [[] nb tr2 | |]; try done.
      destruct (RawMemory_plus _ _); [|done]. by intros [= _ <- _].
Qed.

Lemma Emplace_own_Normal_capacity this (pos k : nat) tr r this' tr' :
  Emplace_own E pos k this tr = Normal r this' tr' ->
  Capacity this' =
    if Size this =? Capacity this then Nat.max 1 (2 * Capacity this)
    else Capacity this.
Proof.
  unfold Emplace_own. destruct (index_ref this k) as [i|]; [|done].
  apply Emplace_from_Normal_capacity.
Qed.

(** C3: when [EmplaceBack] / [PushBack] or [Emplace] / [Insert] finds the
    vector full ([size == capacity]) and returns, the new capacity is
    [max(1, 2 * old capacity)]; when there is room the capacity stays.  This
    holds as well when the value inserted is an element of the vector
    itself.  On a vector that satisfies the invariant, with an element type
    that never raises, each of these calls returns, at a full vector too,
    with one element more.  Appending [n] values one after the other to an
    empty vector gives size [n] and the appended values in order; after the
    [i]-th append the capacity is the least power of two that is at least
    [i] (1, 2, 4, 4, 8, ...), which is at least [i]; from one append to the
    next the capacity stays or doubles.  With an element type that never
    raises the appends all return. *)
Theorem growth_policy :
  (forall this a tr r this' tr',
     EmplaceBack E a this tr = Normal r this' tr' ->
     Capacity this' =
       if Size this =? Capacity this then Nat.max 1 (2 * Capacity this)
       else Capacity this) /\
  (forall this pos a tr r this' tr',
     Emplace E pos a this tr = Normal r this' tr' ->
     Capacity this' =
       if Size this =? Capacity this then Nat.max 1 (2 * Capacity this)
       else Capacity this) /\
  (forall (vs : list (args T)) tr caps this' tr',
     PushBack_all E vs Vector_default tr = Normal caps this' tr' ->
     Size this' = length vs /\
     elements this' = (fun a => Some (arg_value a)) <$> vs /\
     caps = capacity_after <$> seq 1 (length vs) /\
     Forall2 le (seq 1 (length vs)) caps) /\
  (forall n,
     capacity_after (S n) = capacity_after n \/
     capacity_after (S n) = Nat.max 1 (2 * capacity_after n)) /\
  (quiet E -> forall (vs : list (args T)) tr, exists caps this' tr',
     PushBack_all E vs Vector_default tr = Normal caps this' tr') /\
  (forall this a tr this' tr',
     PushBack E a this tr = Normal tt this' tr' ->
     Capacity this' =
       if Size this =? Capacity this then Nat.max 1 (2 * Capacity this)
       else Capacity this) /\
  (forall this pos a tr r this' tr',
     Insert E pos a this tr = Normal r this' tr' ->
     Capacity this' =
       if Size this =? Capacity this then Nat.max 1 (2 * Capacity this)
       else Capacity this) /\
  (forall this pos k tr r this' tr',
     Emplace_own E pos k this tr = Normal r this' tr' \/
     Insert_own E pos k this tr = Normal r this' tr' ->
     Capacity this' =
       if Size this =? Capacity this then Nat.max 1 (2 * Capacity this)
       else Capacity this) /\
  (quiet E -> forall this pos a tr,
     Invariant this = true -> pos <= Size this ->
     exists this' tr',
       Emplace E pos a this tr = Normal pos this' tr' /\
       Insert E pos a this tr = Normal pos this' tr' /\
       Size this' = S (Size this) /\
       Capacity this' =
         if Size this =? Capacity this then Nat.max 1 (2 * Capacity this)
         else Capacity this) /\
  (quiet E -> forall this a tr,
     Invariant this = true ->
     exists this' tr',
       EmplaceBack E a this tr = Normal (Size this) this' tr' /\
       PushBack E a this tr = Normal tt this' tr' /\
       Size this' = S (Size this) /\
       Capacity this' =
         if Size this =? Capacity this then Nat.max 1 (2 * Capacity this)
         else Capacity this) /\
  (quiet E -> forall this pos k tr,
     Invariant this = true -> pos <= Size this -> k < Size this ->
     exists this' tr',
       Emplace_own E pos k this tr = Normal pos this' tr' /\
       Insert_own E pos k this tr = Normal pos this' tr' /\
       Size this' = S (Size this) /\
       Capacity this' =
         if Size this =? Capacity this then Nat.max 1 (2 * Capacity this)
         else Capacity this).
Proof.
  split; [apply EmplaceBack_Normal_capacity |].
  split; [apply Emplace_Normal_capacity |].
  split; [|split; [apply capacity_after_step |]].
  - intros vs tr caps this' tr' H.
    destruct (PushBack_all_spec vs [] tr)
      as [[t H'] | (e & s & t & H' & _)];
      change (vec [] (capacity_after (length []))) with (@Vector_default T)
        in H'; rewrite H' in H; [|done].
    injection H as <- <- <-. simpl. rewrite elements_vec.
    unfold Size. simpl. rewrite length_fmap, <- list_fmap_compose.
    repeat split; try done. apply Forall2_le_capacity_after.
  - split; [|split; [|split; [apply Emplace_Normal_capacity |split;
                                [|split; [|split]]]]].
    + intros Hquiet vs tr.
      destruct (PushBack_all_spec vs [] tr)
        as [[t H'] | (e & s & t & H' & Hq)]; [|by destruct Hq].
      change (vec [] (capacity_after (length []))) with (@Vector_default T)
        in H'.
      eauto.
    + intros this a tr this' tr'. unfold PushBack.
      destruct (EmplaceBack E a this tr) as [r v t | |] eqn:H; try done.
      intros [= <- <-]. by eapply EmplaceBack_Normal_capacity.
    + intros this pos k tr r this' tr' [H | H];
        by eapply Emplace_own_Normal_capacity.
    + intros Hquiet this pos a tr Hinv Hpos.
      apply Invariant_inv in Hinv as (xs & cap & Hlen & ->).
      change (Size (vec xs cap)) with (length xs) in Hpos.
      destruct (Emplace_spec xs cap pos a tr Hpos Hlen)
        as [[t H] | (e & s & t & H & Hq)]; [|by destruct Hq].
      do 2 eexists. unfold Insert. split; [exact H |]. split; [exact H |].
      rewrite Capacity_vec, <- grown_max.
      change (Size (vec xs cap)) with (length xs). unfold Size. simpl.
      by rewrite length_insert_middle.
    + intros Hquiet this a tr Hinv.
      apply Invariant_inv in Hinv as (xs & cap & Hlen & ->).
      destruct (EmplaceBack_spec xs cap a tr Hlen)
        as [[t H] | (e & s & t & H & Hq)]; [|by destruct Hq].
      do 2 eexists. unfold PushBack. rewrite H.
      change (Size (vec xs cap)) with (length xs).
      split; [done |]. split; [done |].
      rewrite !Capacity_vec, <- grown_max. unfold Size. simpl.
      rewrite length_app. simpl. split; [lia | done].
    + intros Hquiet this pos k tr Hinv Hpos Hk.
      apply Invariant_inv in Hinv as (xs & cap & Hlen & ->).
      change (Size (vec xs cap)) with (length xs) in Hpos, Hk.
      destruct (lookup_lt_is_Some_2 xs k Hk) as [x Hx].
      destruct (Emplace_own_spec xs cap pos k x tr Hpos Hlen Hx)
        as (y & _ & _ & _ & [[t H] | (e & s & t & H & Hq)]);
        [|by destruct Hq].
      do 2 eexists. unfold Insert_own. split; [exact H |]. split; [exact H |].
      rewrite Capacity_vec, <- grown_max.
      change (Size (vec xs cap)) with (length xs). unfold Size. simpl.
      by rewrite length_insert_middle.
Qed.

(** *** Copy construction and the rebuilding branch of copy assignment *)

Lemma Vector_copy_spec ys cap tr :
  0 < length ys ->
  Vector_copy E (vec ys cap) tr =
    Normal (vec ys (length ys)) tt
      (tr ++ Did (Alloc (length ys)) :: copies ys)
  \/ exists e t, Vector_copy E (vec ys cap) tr = Throws e tt t /\ ~ quiet E.
Proof.
  intros Hpos. unfold Vector_copy, RawMemory_new.
  change (size_ (vec ys cap)) with (length ys).
  destruct (Allocate_spec (length ys) tr) as [-> | [-> Hq]];
    [lia | | right; eauto].
  cbn [buffer_ capacity_]. unfold uninitialized_copy_n.
  destruct (uninitialized_copy_loop_spec (buffer_ (data_ (vec ys cap))) 0 ys
              (replicate (length ys) None) 0 0
              (tr ++ [Did (Alloc (length ys))]))
    as [-> | (e & d & t & -> & Hq)].
  - apply live_at_vec.
  - done.
  - by rewrite length_replicate.
  - intros j Hj. lia.
  - left. f_equal.
    + apply vec_intro.
      * by rewrite length_inserts, length_replicate.
      * apply live_at_inserts. by rewrite length_replicate.
      * intros j Hj. lia.
    + by rewrite <- app_assoc.
  - right. eauto.
Qed.

Lemma Vector_dtor_spec xs cap tr :
  Vector_dtor (vec xs cap) tr = Normal tt tt (tr ++ dtors xs).
Proof.
  unfold Vector_dtor. change (size_ (vec xs cap)) with (length xs).
  by rewrite destroy_n_live by apply live_at_vec.
Qed.

Lemma copy_assign_rebuild_spec (this rhs : nat) (st : gmap nat (Vector T))
    xs cap ys cap2 tr :
  this <> rhs ->
  st !! this = Some (vec xs cap) -> st !! rhs = Some (vec ys cap2) ->
  cap < length ys ->
  Vector_copy_assign E this rhs st tr =
    Normal tt (<[this := vec ys (length ys)]> st)
      (tr ++ Did (Alloc (length ys)) :: copies ys ++ dtors xs)
  \/ exists e t,
       Vector_copy_assign E this rhs st tr = Throws e st t /\ ~ quiet E.
Proof.
  intros Hne Hthis Hrhs Hcap. unfold Vector_copy_assign.
  rewrite Hthis, Hrhs. destruct (decide (this = rhs)); [done |].
  unfold RawMemory_Capacity.
  change (capacity_ (data_ (vec xs cap))) with cap.
  change (size_ (vec ys cap2)) with (length ys).
  destruct (Nat.ltb_spec cap (length ys)) as [_|]; [|lia].
  destruct (Vector_copy_spec ys cap2 tr) as [-> | (e & t & -> & Hq)];
    [lia | | right; eauto].
  unfold Swap, RawMemory_Swap.
  change {| data_ := {| buffer_ := buffer_ (data_ (vec xs cap));
                        capacity_ := capacity_ (data_ (vec xs cap)) |};
            size_ := size_ (vec xs cap) |} with (vec xs cap).
  rewrite Vector_dtor_spec. left. f_equal.
  rewrite <- !app_assoc. done.
Qed.

Lemma EmplaceBack_grow_trace xs a tr r this' tr' :
  EmplaceBack E a (vec xs (length xs)) tr = Normal r this' tr' ->
  tr' = tr ++ Did (Alloc (grown (length xs))) :: Did (arg_op a) ::
          transfers E xs ++ releases E xs.
Proof.
  intros H. pose proof (Emplace_end_EmplaceBack (vec xs (length xs)) a tr) as Heq.
  rewrite H in Heq. change (size_ (vec xs (length xs))) with (length xs) in Heq.
  pose proof (Emplace_grow_spec xs [] a tr) as Hs. simpl in Hs.
  rewrite app_nil_r in Hs.
  destruct Hs as [Hs | (e & s & t & Hs & _)]; rewrite Hs in Heq; [|done].
  by destruct Heq as (_ & _ & ->).
Qed.

Lemma Invariant_elements this xs :
  Invariant this = true -> elements this = Some <$> xs ->
  this = vec xs (Capacity this) /\ length xs <= Capacity this.
Proof.
  intros Hinv He. apply Invariant_inv in Hinv as (xs' & cap & Hlen & ->).
  rewrite elements_vec in He. apply (inj (fmap Some)) in He as ->.
  by rewrite Capacity_vec.
Qed.

Lemma Emplace_grow_trace xs pos a tr r this' tr' :
  pos <= length xs ->
  Emplace E pos a (vec xs (length xs)) tr = Normal r this' tr' ->
  tr' = tr ++ Did (Alloc (grown (length xs))) :: Did (arg_op a) ::
          transfers E xs ++ releases E xs.
Proof.
  intros Hpos.
  assert (Hxs : xs = take pos xs ++ drop pos xs) by (by rewrite take_drop).
  assert (Hp : pos = length (take pos xs)) by (rewrite length_take; lia).
  revert Hxs Hp. generalize (take pos xs) (drop pos xs).
  intros xs1 xs2 -> -> H.
  destruct (Emplace_grow_spec xs1 xs2 a tr) as [Hs | (e & s & t & Hs & _)];
    simpl in Hs; rewrite Hs in H; [|done].
  by injection H as _ _ <-.
Qed.

(** C7 (amended): when [Reserve] or a growing [EmplaceBack] / [Emplace]
    relocates the elements [xs] and returns, the elements were transferred to
    the new storage by [CopyN] and only afterwards the old objects were
    destroyed.  [CopyN] move-constructs every element if the move
    constructor of [T] is non-raising or [T] is not copy-constructible, and
    copy-constructs every element otherwise; the choice depends on these two
    traits of [T] only.  Under the copying policy a call that raises
    leaves every old element alive and the vector unchanged.  The rebuilding
    branch of copy assignment does not use this policy: it always
    copy-constructs the elements of the right-hand side and afterwards
    destroys the old elements of the destination. *)
Theorem relocation_policy this xs tr :
  Invariant this = true -> elements this = Some <$> xs ->
  (forall k r this' tr',
     Capacity this < k -> Reserve E k this tr = Normal r this' tr' ->
     tr' = tr ++ Did (Alloc k) :: transfers E xs ++ releases E xs) /\
  (forall a r this' tr',
     Size this = Capacity this ->
     EmplaceBack E a this tr = Normal r this' tr' ->
     tr' = tr ++ Did (Alloc (grown (Capacity this))) :: Did (arg_op a) ::
             transfers E xs ++ releases E xs) /\
  (forall pos a r this' tr',
     Size this = Capacity this -> pos <= Size this ->
     Emplace E pos a this tr = Normal r this' tr' ->
     tr' = tr ++ Did (Alloc (grown (Capacity this))) :: Did (arg_op a) ::
             transfers E xs ++ releases E xs) /\
  (is_nothrow_move_constructible E = false ->
   is_copy_constructible E = true ->
   forall k pos a e this' tr',
     Reserve E k this tr = Throws e this' tr' \/
     Size this = Capacity this /\
     (EmplaceBack E a this tr = Throws e this' tr' \/
      Emplace E pos a this tr = Throws e this' tr') ->
     this' = this) /\
  (forall (a b : nat) (st : gmap nat (Vector T)) rhs ys st' tr',
     a <> b -> st !! a = Some this -> st !! b = Some rhs ->
     Invariant rhs = true -> elements rhs = Some <$> ys ->
     Capacity this < Size rhs ->
     Vector_copy_assign E a b st tr = Normal tt st' tr' ->
     tr' = tr ++ Did (Alloc (length ys)) ::
             ((fun y => Did (CopyCtor y)) <$> ys) ++
             ((fun x => Did (Dtor x)) <$> xs)).
Proof.
  intros Hinv He. destruct (Invariant_elements this xs Hinv He) as [Hthis Hlen].
  set (cap := Capacity this) in *. clearbody cap. subst this.
  change (Size (vec xs cap)) with (length xs).
  split; [|split; [|split; [|split]]].
  - intros k r this' tr' Hk H.
    by apply Reserve_Normal_inv in H as (_ & _ & ->).
  - intros a r this' tr' <- H. by eapply EmplaceBack_grow_trace.
  - intros pos a r this' tr' <- Hpos H. by eapply Emplace_grow_trace.
  - intros Hn Hc k pos a e this' tr' H.
    pose proof (uses_move_false Hn Hc) as Hpol.
    destruct H as [H | [Hfull [H | H]]].
    + apply Reserve_Throws in H as (_ & _ & H). apply H. by right.
    + by eapply EmplaceBack_Throws_copy.
    + by eapply Emplace_Throws_copy.
  - intros a b st rhs ys st' tr' Hne Ha Hb Hinv2 He2 Hcap H.
    destruct (Invariant_elements rhs ys Hinv2 He2) as [Hrhs Hlen2].
    set (cap2 := Capacity rhs) in *. clearbody cap2. subst rhs.
    change (Size (vec ys cap2)) with (length ys) in Hcap.
    destruct (copy_assign_rebuild_spec a b st xs cap ys cap2 tr Hne Ha Hb Hcap)
      as [Hs | (e & t & Hs & _)]; rewrite Hs in H; [|done].
    by injection H as _ <-.
Qed.

End Proofs.

(** * Concrete runs *)

Lemma emptied_by_move_quiet : quiet emptied_by_move.
Proof. intros tr o. reflexivity. Qed.

Lemma plain_quiet : quiet plain.
Proof. intros tr o. reflexivity. Qed.

(** C1, as stated, fails for move assignment: the vector [7] is
    move-assigned from the vector [5, 6]; afterwards the source holds [7],
    with size 1 and capacity 1. *)
Lemma move_assign_source_not_emptied :
  ~ (forall st' s,
       Vector_move_assign 0 1 two_vectors = Some st' ->
       st' !! 1 = Some s -> Size s = 0 /\ Capacity s = 0).
Proof.
  intros H.
  destruct (H (<[1 := vec [7] 1]> (<[0 := vec [5; 6] 2]> two_vectors))
              (vec [7] 1) eq_refl eq_refl) as [H0 _].
  discriminate H0.
Qed.

Lemma move_transfers_state_witness :
  0 <> 1 /\
  two_vectors !! 0 = Some (vec [7] 1) /\
  two_vectors !! 1 = Some (vec [5; 6] 2) /\
  Vector_move (vec [5; 6] 2) = (vec [5; 6] 2, Vector_default) /\
  exists st',
    Vector_move_assign 0 1 two_vectors = Some st' /\
    st' !! 0 = Some (vec [5; 6] 2) /\ st' !! 1 = Some (vec [7] 1).
Proof.
  assert (Hne : 0 <> 1) by discriminate.
  destruct (move_transfers_state 0 1 two_vectors (vec [7] 1) (vec [5; 6] 2)
              Hne eq_refl eq_refl)
    as (Hm & _ & _ & st' & Ha & H0 & H1 & _).
  repeat split; try done. by exists st'.
Defined.

Lemma growth_failure_leaves_vector_unchanged_witness :
  is_nothrow_move_constructible (throwing_copy 2) = false /\
  is_copy_constructible (throwing_copy 2) = true /\
  Size (vec [1; 2] 2) = Capacity (vec [1; 2] 2) /\
  EmplaceBack (throwing_copy 2) (ByCopy 3) (vec [1; 2] 2) [] =
    Throws (ElementError (CopyCtor 2)) (vec [1; 2] 2)
      [Did (Alloc 4); Did (CopyCtor 3); Did (CopyCtor 1);
       Raised (CopyCtor 2); Did (Dtor 1)] /\
  vec [1; 2] 2 = vec [1; 2] 2.
Proof.
  split; [reflexivity |]. split; [reflexivity |]. split; [reflexivity |].
  split; [reflexivity |].
  apply (growth_failure_leaves_vector_unchanged (throwing_copy 2)
           (vec [1; 2] 2) 0 (ByCopy 3) [] (ElementError (CopyCtor 2))
           (vec [1; 2] 2)
           [Did (Alloc 4); Did (CopyCtor 3); Did (CopyCtor 1);
            Raised (CopyCtor 2); Did (Dtor 1)]);
    [reflexivity | reflexivity | reflexivity | left; reflexivity].
Defined.

Lemma growth_policy_witness :
  (exists this' tr',
     PushBack_all plain [ByArgs 1; ByArgs 2; ByArgs 3; ByArgs 4; ByArgs 5]
       Vector_default [] = Normal [1; 2; 4; 4; 8] this' tr' /\
     Size this' = 5 /\
     elements this' = [Some 1; Some 2; Some 3; Some 4; Some 5] /\
     [1; 2; 4; 4; 8] = capacity_after <$> seq 1 5 /\
     Forall2 le (seq 1 5) [1; 2; 4; 4; 8]) /\
  Invariant (vec [1; 2] 2) = true /\
  1 <= Size (vec [1; 2] 2) /\
  Size (vec [1; 2] 2) = Capacity (vec [1; 2] 2) /\
  exists this' tr',
    Emplace plain 1 (ByArgs 9) (vec [1; 2] 2) [] = Normal 1 this' tr' /\
    Insert plain 1 (ByArgs 9) (vec [1; 2] 2) [] = Normal 1 this' tr' /\
    Size this' = S (Size (vec [1; 2] 2)) /\
    Capacity this' =
      if Size (vec [1; 2] 2) =? Capacity (vec [1; 2] 2)
      then Nat.max 1 (2 * Capacity (vec [1; 2] 2))
      else Capacity (vec [1; 2] 2).
Proof.
  assert (Hpos : 1 <= Size (vec [1; 2] 2)) by (simpl; lia).
  destruct (growth_policy plain)
    as (_ & _ & H3 & _ & _ & _ & _ & _ & H9 & _).
  split.
  - do 2 eexists. split; [reflexivity |].
    eapply (H3 [ByArgs 1; ByArgs 2; ByArgs 3; ByArgs 4; ByArgs 5] []).
    reflexivity.
  - split; [reflexivity |]. split; [exact Hpos |]. split; [reflexivity |].
    exact (H9 plain_quiet (vec [1; 2] 2) 1 (ByArgs 9) [] eq_refl Hpos).
Defined.

Lemma Insert_then_Erase_restores_witness :
  Invariant (vec [1; 2; 3] 4) = true /\
  1 <= Size (vec [1; 2; 3] 4) /\
  exists r1 this1 tr1 r2 this2 tr2,
    Insert emptied_by_move 1 (ByArgs 99) (vec [1; 2; 3] 4) [] =
      Normal r1 this1 tr1 /\
    Erase emptied_by_move 1 this1 tr1 = Normal r2 this2 tr2 /\
    elements this2 = elements (vec [1; 2; 3] 4) /\
    Size this2 = Size (vec [1; 2; 3] 4).
Proof.
  assert (Hpos : 1 <= Size (vec [1; 2; 3] 4)) by (simpl; lia).
  destruct (Insert_then_Erase_restores emptied_by_move (vec [1; 2; 3] 4) 1
              (ByArgs 99) [] eq_refl Hpos) as [H1 H2].
  destruct (H2 emptied_by_move_quiet)
    as (r1 & this1 & tr1 & r2 & this2 & tr2 & Hi & He).
  split; [reflexivity |]. split; [exact Hpos |].
  exists r1, this1, tr1, r2, this2, tr2.
  split; [exact Hi |]. split; [exact He |]. exact (H1 _ _ _ _ _ _ Hi He).
Defined.


(** C6 fails on the code.  After [v.PushBack(1); v.Reserve(3)] and
    [w.PushBack(5); w.PushBack(6)] both vectors satisfy the invariant: [v]
    holds [1] with capacity 3 and [w] holds [5, 6].  The assignment [v = w]
    then takes the branch for a right-hand side that fits the capacity; the
    second element is constructed at offset 0 instead of offset 1, so [v]
    ends with size 2 while its slot 1 is raw storage. *)
Lemma copy_assign_within_capacity_breaks_invariant :
  object_after 0 (run plain (take 6 copy_assign_scenario) ∅ []) =
    Some (vec [1] 3) /\
  object_after 1 (run plain (take 6 copy_assign_scenario) ∅ []) =
    Some (vec [5; 6] 2) /\
  Invariant (vec [1] 3) = true /\ Invariant (vec [5; 6] 2) = true /\
  object_after 0 (run plain copy_assign_scenario ∅ []) =
    Some {| data_ := {| buffer_ := [Some 6; None; None]; capacity_ := 3 |};
            size_ := 2 |} /\
  Invariant {| data_ := {| buffer_ := [Some 6; None; None]; capacity_ := 3 |};
               size_ := 2 |} = false /\
  at_ {| data_ := {| buffer_ := [Some 6; None; None]; capacity_ := 3 |};
         size_ := 2 |} 1 = None.
Proof. repeat split; reflexivity. Qed.

(** C9 fails on the code.  After [v.PushBack(1); v.PushBack(2);
    v.PushBack(3)] the vector holds [1, 2, 3] with capacity 4 and satisfies
    the invariant.  [v.Insert(v.cbegin(), v[2])] passes a reference to the
    element 3.  There is room, so the elements are shifted in place first
    and only then is the new element copied from the reference, which by
    then denotes the shifted neighbour 2: the call returns [begin()], but
    the element there is 2, not the value 3 that was passed, and the vector
    holds [2, 1, 2, 3].  The same call with the value 3 given from outside
    the vector, or on a full vector, inserts 3. *)
Lemma Insert_of_own_element_reads_shifted_slot :
  object_after 0 (run plain (take 4 insert_own_scenario) ∅ []) =
    Some (vec [1; 2; 3] 4) /\
  Invariant (vec [1; 2; 3] 4) = true /\
  at_ (vec [1; 2; 3] 4) 2 = Some 3 /\
  Insert_own plain 0 2 (vec [1; 2; 3] 4) [] =
    Normal 0 (vec [2; 1; 2; 3] 4)
      [Did (MoveCtor 3); Did (MoveAssign 3 2); Did (MoveAssign 2 1);
       Did (CopyCtor 2); Did (MoveAssign 1 2); Did (Dtor 2)] /\
  object_after 0 (run plain insert_own_scenario ∅ []) =
    Some (vec [2; 1; 2; 3] 4) /\
  at_ (vec [2; 1; 2; 3] 4) 0 = Some 2 /\
  Insert plain 0 (ByCopy 3) (vec [1; 2; 3] 4) [] =
    Normal 0 (vec [3; 1; 2; 3] 4)
      [Did (MoveCtor 3); Did (MoveAssign 3 2); Did (MoveAssign 2 1);
       Did (CopyCtor 3); Did (MoveAssign 1 3); Did (Dtor 3)] /\
  Insert_own plain 0 2 (vec [1; 2; 3] 3) [] =
    Normal 0 (vec [3; 1; 2; 3] 6)
      [Did (Alloc 6); Did (CopyCtor 3); Did (MoveCtor 1); Did (MoveCtor 2);
       Did (MoveCtor 3); Did (Dtor 1); Did (Dtor 2); Did (Dtor 3)].
Proof. repeat split; reflexivity. Qed.


(** C7, as stated, fails for the rebuilding branch of copy assignment: the
    element type [plain] has a non-raising move constructor, yet assigning
    the vector [5, 6] to the vector [7] of capacity 1 copy-constructs the
    elements. *)
Lemma copy_assign_rebuild_copies :
  ~ (is_nothrow_move_constructible plain = true ->
     forall st' tr',
       Vector_copy_assign plain 0 1 two_vectors [] = Normal tt st' tr' ->
       forall x, ~ In (Did (CopyCtor x)) tr').
Proof.
  intros H.
  apply (H eq_refl (<[0 := vec [5; 6] 2]> two_vectors)
           [Did (Alloc 2); Did (CopyCtor 5); Did (CopyCtor 6); Did (Dtor 7)]
           eq_refl 5).
  simpl. auto.
Qed.

Lemma relocation_policy_witness :
  Invariant (vec [1; 2] 2) = true /\
  elements (vec [1; 2] 2) = Some <$> [1; 2] /\
  Reserve (throwing_copy 9) 5 (vec [1; 2] 2) [] =
    Normal tt (vec [1; 2] 5)
      [Did (Alloc 5); Did (CopyCtor 1); Did (CopyCtor 2);
       Did (Dtor 1); Did (Dtor 2)] /\
  [Did (Alloc 5); Did (CopyCtor 1); Did (CopyCtor 2);
   Did (Dtor 1); Did (Dtor 2)] =
    [] ++ Did (Alloc 5) :: transfers (throwing_copy 9) [1; 2] ++
            releases (throwing_copy 9) [1; 2].
Proof.
  split; [reflexivity |]. split; [reflexivity |]. split; [reflexivity |].
  assert (Hk : Capacity (vec [1; 2] 2) < 5)
    by (unfold Capacity, RawMemory_Capacity; simpl; lia).
  exact (proj1 (relocation_policy (throwing_copy 9) (vec [1; 2] 2) [1; 2] []
                  eq_refl eq_refl)
           5 tt (vec [1; 2] 5) _ Hk eq_refl).
Defined.

Lemma self_assignment_is_noop_witness :
  one_vector !! 0 = Some (vec [1; 2] 2) /\
  Vector_copy_assign plain 0 0 one_vector [] = Normal tt one_vector [] /\
  Vector_move_assign 0 0 one_vector = Some one_vector.
Proof.
  split; [reflexivity |].
  apply (self_assignment_is_noop plain 0 one_vector [] (vec [1; 2] 2)).
  reflexivity.
Defined.

(** * Further properties of the two classes *)

Section More.

Context {T : Type} (E : ElementType T).

Implicit Types (buf : list (option T)) (xs ys : list T).
Implicit Types (tr : trace T) (this : Vector T).

(** *** Helpers *)

(** Size and capacity of a vector in closed form, everywhere. *)
Ltac norm_vec :=
  repeat match goal with
  | H : context [Size (vec ?xs ?c)] |- _ =>
      change (Size (vec xs c)) with (length xs) in H
  | H : context [Capacity (vec ?xs ?c)] |- _ =>
      change (Capacity (vec xs c)) with c in H
  | |- context [Size (vec ?xs ?c)] =>
      change (Size (vec xs c)) with (length xs)
  | |- context [Capacity (vec ?xs ?c)] =>
      change (Capacity (vec xs c)) with c
  end.

Lemma vec_intro_size buf xs cap size :
  size = length xs -> length buf = cap -> live_at buf 0 xs ->
  raw_at buf (length xs) cap ->
  {| data_ := {| buffer_ := buf; capacity_ := cap |}; size_ := size |}
  = vec xs cap.
Proof. intros ->. apply vec_intro. Qed.

Lemma Invariant_live this j :
  Invariant this = true -> j < size_ this ->
  exists x, buffer_ (data_ this) !! j = Some (Some x).
Proof.
  intros Hinv Hj. apply Invariant_inv in Hinv as (xs & cap & Hlen & ->).
  change (size_ (vec xs cap)) with (length xs) in Hj.
  destruct (lookup_lt_is_Some_2 xs j Hj) as [x Hx].
  exists x. by apply lookup_vec_live.
Qed.

Lemma Invariant_raw this j :
  Invariant this = true -> size_ this <= j < capacity_ (data_ this) ->
  buffer_ (data_ this) !! j = Some None.
Proof.
  intros Hinv Hj. apply Invariant_inv in Hinv as (xs & cap & Hlen & ->).
  by apply raw_at_vec.
Qed.

Lemma uninitialized_value_construct_loop_spec n buf (result cur : nat) tr :
  result <= cur ->
  cur + n <= length buf ->
  (forall j, result <= j < cur -> exists y, buf !! j = Some (Some y)) ->
  uninitialized_value_construct_loop E n buf result cur tr =
    Normal tt (list_inserts cur (Some <$> replicate n (value_init E)) buf)
      (tr ++ replicate n (Did ValueInit))
  \/ exists e d t,
       uninitialized_value_construct_loop E n buf result cur tr =
         Throws e d t /\ ~ quiet E.
Proof.
  revert buf cur tr. induction n as [|n IH]; intros buf cur tr Hle Hlen Hdst.
  - left. simpl. by rewrite app_nil_r.
  - simpl. destruct (Nat.ltb_spec cur (length buf)) as [_|]; [|lia].
    destruct (may_raise E tr ValueInit) eqn:Hr.
    + right.
      destruct (destroy_n_total buf result (cur - result)
                  (tr ++ [Raised ValueInit])) as (b & t & Hd).
      { intros j Hj. apply Hdst. lia. }
      rewrite Hd. do 3 eexists. split; [done |].
      by eapply may_raise_not_quiet.
    + destruct (IH (<[cur := Some (value_init E)]> buf) (S cur)
                  (tr ++ [Did ValueInit])) as [-> | H]; try done.
      * lia.
      * rewrite length_insert. lia.
      * intros j Hj. destruct (decide (j = cur)) as [-> | Hne].
        -- eexists. apply list_lookup_insert_eq. lia.
        -- rewrite list_lookup_insert_ne by done. apply Hdst. lia.
      * left. rewrite <- app_assoc. simpl.
        by rewrite list_insert_inserts_lt by lia.
      * by right.
Qed.

(** *** The sized constructor *)

Lemma Allocate_zero tr : Allocate E 0 tr = Normal [] tt tr.
Proof. done. Qed.

Lemma uninitialized_value_construct_loop_Normal_length (n : nat) buf
    (result cur : nat) tr r d t :
  uninitialized_value_construct_loop E n buf result cur tr = Normal r d t ->
  n = 0 \/ cur + n <= length buf.
Proof.
  revert buf cur tr.
  induction n as [|n IH]; intros buf cur tr; simpl; [by left |].
  destruct (Nat.ltb_spec cur (length buf)) as [Hc|]; [|done].
  destruct (may_raise E tr ValueInit).
  { by destruct (destroy_n _ _ _ _). }
  intros H. apply IH in H. rewrite length_insert in H. right. lia.
Qed.

Lemma uninitialized_value_construct_loop_short (n : nat) buf
    (result cur : nat) tr :
  quiet E -> cur <= length buf -> length buf < cur + n ->
  uninitialized_value_construct_loop E n buf result cur tr = Undefined.
Proof.
  intros Hq. revert buf cur tr.
  induction n as [|n IH]; intros buf cur tr Hcur Hlen; simpl; [lia |].
  destruct (Nat.ltb_spec cur (length buf)) as [Hc|]; [|done].
  rewrite may_raise_quiet by done. apply IH; rewrite length_insert; lia.
Qed.

Lemma Vector_sized_spec n tr :
  fits E n ->
  Vector_sized E n tr =
    Normal (vec (replicate n (value_init E)) n) tt
      (tr ++ (if n =? 0 then [] else [Did (Alloc n)]) ++
         replicate n (Did ValueInit))
  \/ exists e t, Vector_sized E n tr = Throws e tt t /\ ~ quiet E.
Proof.
  intros Hf. unfold Vector_sized.
  rewrite (RawMemory_new_wrapping_fits E n tr Hf).
  unfold RawMemory_new, uninitialized_value_construct_n.
  destruct (Nat.eqb_spec n 0) as [-> | Hn].
  - left. simpl. by rewrite app_nil_r.
  - destruct (Allocate_spec E n tr Hn) as [-> | [-> Hq]]; [|right; eauto].
    cbn [buffer_ capacity_].
    destruct (uninitialized_value_construct_loop_spec n (replicate n None) 0 0
                (tr ++ [Did (Alloc n)]))
      as [-> | (e & d & t & -> & Hq)]; [done | | | | right; eauto].
    + by rewrite length_replicate.
    + intros j Hj. lia.
    + left. f_equal.
      * apply vec_intro_size.
        -- by rewrite length_replicate.
        -- by rewrite length_inserts, length_replicate.
        -- apply live_at_inserts. by rewrite !length_replicate.
        -- intros j Hj. rewrite length_replicate in Hj. lia.
      * by rewrite <- app_assoc.
Qed.

(** *** PopBack and Resize *)

Lemma PopBack_spec xs y cap tr :
  length (xs ++ [y]) <= cap ->
  PopBack (vec (xs ++ [y]) cap) tr =
    Normal tt (vec xs cap) (tr ++ [Did (Dtor y)]).
Proof.
  intros Hlen. rewrite length_app in Hlen. simpl in Hlen.
  unfold PopBack, RawMemory_index, destroy_at.
  change (size_ (vec (xs ++ [y]) cap)) with (length (xs ++ [y])).
  change (capacity_ (data_ (vec (xs ++ [y]) cap))) with cap.
  rewrite length_app. change (length [y]) with 1. rewrite Nat.add_1_r.
  destruct (Nat.ltb_spec (length xs) cap) as [_|]; [|lia].
  rewrite (lookup_vec_live (xs ++ [y]) cap (length xs) y)
    by (by rewrite list_lookup_middle).
  f_equal. apply vec_intro.
  - rewrite length_insert, length_vec_buffer; [done |].
    rewrite length_app. simpl. lia.
  - intros j x Hj. simpl. pose proof (lookup_lt_Some _ _ _ Hj).
    rewrite list_lookup_insert_ne by lia.
    apply lookup_vec_live. by apply lookup_app_l_Some.
  - intros j Hj. destruct (decide (j = length xs)) as [-> | Hne].
    + apply list_lookup_insert_eq. rewrite length_vec_buffer; [lia |].
      rewrite length_app. simpl. lia.
    + rewrite list_lookup_insert_ne by done. apply raw_at_vec.
      rewrite length_app. simpl. lia.
Qed.

Lemma Resize_shrink_spec xs cap n tr :
  n < length xs -> length xs <= cap ->
  Resize E n (vec xs cap) tr =
    Normal tt (vec (take n xs) cap) (tr ++ dtors (drop n xs)).
Proof.
  intros Hn Hlen. unfold Resize, RawMemory_plus.
  change (size_ (vec xs cap)) with (length xs).
  change (capacity_ (data_ (vec xs cap))) with cap.
  destruct (Nat.ltb_spec n (length xs)) as [_|]; [|lia].
  destruct (Nat.leb_spec n cap) as [_|]; [|lia].
  replace (length xs - n) with (length (drop n xs)) by (by rewrite length_drop).
  assert (Hlive : live_at (buffer_ (data_ (vec xs cap))) n (drop n xs)).
  { intros j x Hj. rewrite lookup_drop in Hj. by apply lookup_vec_live. }
  rewrite destroy_n_live by done. f_equal.
  rewrite length_drop. apply vec_intro_size.
  - rewrite length_take. lia.
  - by rewrite length_inserts, length_vec_buffer.
  - intros j x Hj. simpl. pose proof (lookup_lt_Some _ _ _ Hj) as Hjl.
    rewrite length_take in Hjl.
    rewrite list_lookup_inserts_lt by lia.
    rewrite lookup_take_lt in Hj by lia. by apply lookup_vec_live.
  - intros j Hj. rewrite length_take in Hj.
    destruct (decide (j < length xs)) as [Hlt | Hge].
    + rewrite list_lookup_inserts
        by (rewrite ?length_replicate, ?length_vec_buffer; lia).
      apply lookup_replicate_2. lia.
    + rewrite list_lookup_inserts_ge by (rewrite length_replicate; lia).
      apply raw_at_vec. lia.
Qed.

Lemma fits_dec (n : nat) : fits E n \/ ~ fits E n.
Proof.
  unfold fits.
  destruct (N.lt_ge_cases (N.of_nat n * N.pos (size_of E)) (2 ^ 64));
    [by left | right; by apply N.nlt_ge].
Qed.

(** A growing [Resize] that returns has value-initialised every new slot,
    so the block had room for [n] objects: the request did not wrap. *)
Lemma Resize_Normal_fits xs cap n tr r this' tr' :
  length xs <= cap -> cap < n ->
  Resize E n (vec xs cap) tr = Normal r this' tr' -> fits E n.
Proof.
  intros Hlen Hk H. destruct (fits_dec n) as [|Hf]; [done |]. exfalso.
  pose proof (block_slots_short E n Hf) as Hm.
  revert H. unfold Resize.
  change (size_ (vec xs cap)) with (length xs).
  destruct (Nat.ltb_spec n (length xs)) as [|_]; [lia |].
  destruct (Reserve E n (vec xs cap) tr) as [[] this1 tr1 | |] eqn:HR;
    try done.
  apply Reserve_Normal_inv in HR as (Hm' & -> & _); [|done..].
  unfold RawMemory_plus, uninitialized_value_construct_n.
  cbn [data_ size_ capacity_ buffer_].
  destruct (Nat.leb_spec (length xs) n) as [_|]; [|lia].
  destruct (uninitialized_value_construct_loop E _ _ _ _ _)
    as [[] b t | |] eqn:HL; try done.
  apply uninitialized_value_construct_loop_Normal_length in HL.
  rewrite length_vec_buffer in HL by done. lia.
Qed.

Lemma Resize_grow_spec xs cap n tr :
  length xs <= n -> length xs <= cap -> n <= cap \/ fits E n ->
  (exists t,
     Resize E n (vec xs cap) tr =
       Normal tt
         (vec (xs ++ replicate (n - length xs) (value_init E)) (Nat.max cap n))
         t)
  \/ exists e s t, Resize E n (vec xs cap) tr = Throws e s t /\ ~ quiet E.
Proof.
  intros Hn Hlen Hf. unfold Resize.
  change (size_ (vec xs cap)) with (length xs).
  destruct (Nat.ltb_spec n (length xs)) as [|_]; [lia |].
  assert (HR : (exists t, Reserve E n (vec xs cap) tr =
                  Normal tt (vec xs (Nat.max cap n)) t)
               \/ exists e s t,
                    Reserve E n (vec xs cap) tr = Throws e s t /\ ~ quiet E).
  { destruct (Nat.le_gt_cases n cap) as [Hk | Hk].
    - left. exists tr. unfold Reserve, RawMemory_Capacity.
      change (capacity_ (data_ (vec xs cap))) with cap.
      destruct (Nat.leb_spec n cap); [|lia].
      by replace (Nat.max cap n) with cap by lia.
    - replace (Nat.max cap n) with n by lia.
      destruct Hf as [|Hf]; [lia |].
      destruct (Reserve_spec E xs cap n tr Hlen Hk Hf) as [-> | H]; eauto. }
  destruct HR as [[t ->] | (e & s & t & -> & Hq)]; [|right; eauto].
  set (c := Nat.max cap n). assert (Hc : n <= c) by lia.
  unfold RawMemory_plus, uninitialized_value_construct_n.
  change (size_ (vec xs c)) with (length xs).
  change (capacity_ (data_ (vec xs c))) with c.
  destruct (Nat.leb_spec (length xs) c) as [_|]; [|lia].
  destruct (uninitialized_value_construct_loop_spec (n - length xs)
              (buffer_ (data_ (vec xs c))) (length xs) (length xs) t)
    as [-> | (e & d & t' & -> & Hq)]; [done | | | | right; eauto].
  - rewrite length_vec_buffer; lia.
  - intros j Hj. lia.
  - left. eexists. f_equal. apply vec_intro_size.
    + rewrite length_app, length_replicate. lia.
    + rewrite length_inserts, length_vec_buffer; lia.
    + apply live_at_app. split.
      * apply live_at_inserts_out; [lia | apply live_at_vec].
      * apply live_at_inserts.
        rewrite length_replicate, length_vec_buffer; lia.
    + rewrite length_app, length_replicate.
      apply raw_at_inserts_out;
        [rewrite length_fmap, length_replicate; lia |].
      intros j Hj. apply raw_at_vec. lia.
Qed.

(** *** The copy constructor *)

Lemma Vector_copy_empty cap tr :
  Vector_copy E (vec [] cap) tr = Normal (vec [] 0) tt tr.
Proof. done. Qed.

Lemma Vector_copy_general ys cap tr :
  Vector_copy E (vec ys cap) tr =
    Normal (vec ys (length ys)) tt
      (tr ++ (if length ys =? 0 then [] else [Did (Alloc (length ys))]) ++
         copies ys)
  \/ exists e t, Vector_copy E (vec ys cap) tr = Throws e tt t /\ ~ quiet E.
Proof.
  destruct ys as [|y ys].
  - left. rewrite Vector_copy_empty. simpl. by rewrite app_nil_r.
  - destruct (Vector_copy_spec E (y :: ys) cap tr) as [-> | H];
      [simpl; lia | by left | by right].
Qed.

(** *** Copy assignment when the right-hand side fits *)

Lemma copy_n_spec (src : list (option T)) (first : nat) ys buf (result : nat)
    (ds : list T) tr :
  live_at src first ys -> live_at buf result ds -> length ds = length ys ->
  copy_n E src first (length ys) buf result tr =
    Normal tt (list_inserts result (Some <$> ys) buf)
      (tr ++ zip_with (fun d x => Did (CopyAssign d x)) ds ys)
  \/ exists e d t,
       copy_n E src first (length ys) buf result tr = Throws e d t /\
       ~ quiet E.
Proof.
  revert first buf result ds tr.
  induction ys as [|x ys IH]; intros first buf result ds tr Hsrc Hdst Hlen.
  - left. destruct ds; [|done]. simpl. by rewrite app_nil_r.
  - destruct ds as [|d ds]; [done |]. injection Hlen as Hlen.
    apply live_at_cons in Hsrc as [Hs0 Hsrc].
    apply live_at_cons in Hdst as [Hd0 Hdst].
    simpl. rewrite Hs0, Hd0.
    destruct (may_raise E tr (CopyAssign d x)) eqn:Hr.
    + right. do 3 eexists. split; [done |]. by eapply may_raise_not_quiet.
    + destruct (IH (S first) (<[result := Some x]> buf) (S result) ds
                  (tr ++ [Did (CopyAssign d x)])) as [-> | H]; try done.
      * apply live_at_insert_out; [lia | done].
      * left. rewrite <- app_assoc. simpl.
        by rewrite list_insert_inserts_lt by lia.
      * by right.
Qed.

Lemma copy_assign_shrink_spec (this rhs : nat) (st : gmap nat (Vector T))
    xs cap ys cap2 tr :
  this <> rhs ->
  st !! this = Some (vec xs cap) -> st !! rhs = Some (vec ys cap2) ->
  length ys < length xs -> length xs <= cap ->
  Vector_copy_assign E this rhs st tr =
    Normal tt (<[this := vec ys cap]> st)
      (tr ++ zip_with (fun d x => Did (CopyAssign d x)) (take (length ys) xs) ys
          ++ dtors (drop (length ys) xs))
  \/ exists e st' t,
       Vector_copy_assign E this rhs st tr = Throws e st' t /\ ~ quiet E.
Proof.
  intros Hne Hthis Hrhs Hlt Hlen. unfold Vector_copy_assign.
  rewrite Hthis, Hrhs. destruct (decide (this = rhs)); [done |].
  unfold RawMemory_Capacity, RawMemory_plus.
  change (capacity_ (data_ (vec xs cap))) with cap.
  change (size_ (vec ys cap2)) with (length ys).
  change (size_ (vec xs cap)) with (length xs).
  destruct (Nat.ltb_spec cap (length ys)) as [|_]; [lia |].
  destruct (Nat.ltb_spec (length ys) (length xs)) as [_|]; [|lia].
  set (buf := buffer_ (data_ (vec xs cap))).
  assert (Hbuf : length buf = cap) by (by apply length_vec_buffer).
  destruct (copy_n_spec (buffer_ (data_ (vec ys cap2))) 0 ys buf 0
              (take (length ys) xs) tr)
    as [-> | (e & d & t & -> & Hq)]; [| | | | right; eauto].
  - apply live_at_vec.
  - intros j x Hj. pose proof (lookup_lt_Some _ _ _ Hj) as Hjl.
    rewrite length_take in Hjl.
    rewrite lookup_take_lt in Hj by lia. by apply lookup_vec_live.
  - rewrite length_take. lia.
  - destruct (Nat.leb_spec (length ys) cap) as [_|]; [|lia].
    replace (length xs - length ys) with (length (drop (length ys) xs))
      by (by rewrite length_drop).
    rewrite destroy_n_live.
    + left. f_equal.
      * f_equal. rewrite length_drop. apply vec_intro.
        -- by rewrite !length_inserts.
        -- apply live_at_inserts_out; [lia |]. apply live_at_inserts. lia.
        -- intros j Hj. destruct (decide (j < length xs)) as [Hj' | Hj'].
           ++ rewrite list_lookup_inserts
                by (rewrite ?length_replicate, ?length_inserts; lia).
              apply lookup_replicate_2. lia.
           ++ rewrite list_lookup_inserts_ge by (rewrite length_replicate; lia).
              rewrite list_lookup_inserts_ge by (rewrite length_fmap; lia).
              apply raw_at_vec. lia.
      * by rewrite <- app_assoc.
    + apply live_at_inserts_out; [rewrite length_fmap; lia |].
      intros j x Hj. rewrite lookup_drop in Hj. by apply lookup_vec_live.
Qed.

(** The state the branch for [size_ <= rhs.size_ <= Capacity()] leaves:
    the first [size_] elements are assigned, the others are constructed from
    offset 0 on. *)
Lemma copy_assign_fit_spec (this rhs : nat) (st : gmap nat (Vector T))
    xs cap ys cap2 tr :
  this <> rhs ->
  st !! this = Some (vec xs cap) -> st !! rhs = Some (vec ys cap2) ->
  length xs <= length ys -> length ys <= cap ->
  (exists t,
     Vector_copy_assign E this rhs st tr =
       Normal tt
         (<[this :=
              {| data_ :=
                   {| buffer_ :=
                        list_inserts 0 (Some <$> drop (length xs) ys)
                          (list_inserts 0 (Some <$> take (length xs) ys)
                             (buffer_ (data_ (vec xs cap))));
                      capacity_ := cap |};
                 size_ := length ys |}]> st) t)
  \/ exists e st' t,
       Vector_copy_assign E this rhs st tr = Throws e st' t /\ ~ quiet E.
Proof.
  intros Hne Hthis Hrhs Hle Hlen. unfold Vector_copy_assign.
  rewrite Hthis, Hrhs. destruct (decide (this = rhs)); [done |].
  unfold RawMemory_Capacity, uninitialized_copy_n.
  change (capacity_ (data_ (vec xs cap))) with cap.
  change (size_ (vec ys cap2)) with (length ys).
  change (size_ (vec xs cap)) with (length xs).
  destruct (Nat.ltb_spec cap (length ys)) as [|_]; [lia |].
  destruct (Nat.ltb_spec (length ys) (length xs)) as [|_]; [lia |].
  set (buf := buffer_ (data_ (vec xs cap))).
  assert (Hbuf : length buf = cap) by (apply length_vec_buffer; lia).
  pose proof (live_at_vec ys cap2) as Hys.
  rewrite <- (take_drop (length xs) ys) in Hys at 2.
  apply live_at_app in Hys as [Hys1 Hys2].
  rewrite length_take, Nat.min_l in Hys2 by done. simpl in Hys2.
  assert (Ht : length (take (length xs) ys) = length xs)
    by (rewrite length_take; lia).
  pose proof (copy_n_spec (buffer_ (data_ (vec ys cap2))) 0
                (take (length xs) ys) buf 0 xs tr Hys1 (live_at_vec xs cap)
                (eq_sym Ht)) as Hc.
  rewrite Ht in Hc.
  destruct Hc as [-> | (e & d & t & -> & Hq)]; [|right; eauto].
  replace (length ys - length xs) with (length (drop (length xs) ys))
    by (by rewrite length_drop).
  destruct (uninitialized_copy_loop_spec E (buffer_ (data_ (vec ys cap2)))
              (length xs) (drop (length xs) ys)
              (list_inserts 0 (Some <$> take (length xs) ys) buf) 0 0
              (tr ++ zip_with (fun d x => Did (CopyAssign d x)) xs
                       (take (length xs) ys)))
    as [-> | (e & d & t & -> & Hq)]; [done | done | | | | right; eauto].
  - rewrite length_inserts, length_drop. lia.
  - intros j Hj. lia.
  - left. eauto.
Qed.

(** *** Statements in terms of the elements *)

Lemma Invariant_shape this :
  Invariant this = true ->
  exists xs cap,
    length xs <= cap /\ this = vec xs cap /\ elements this = Some <$> xs.
Proof.
  intros Hinv. apply Invariant_inv in Hinv as (xs & cap & Hlen & ->).
  exists xs, cap. by rewrite elements_vec.
Qed.

Lemma Size_vec xs cap : Size (vec xs cap) = length xs.
Proof. done. Qed.

Lemma Vector_sized_short n tr :
  ~ fits E n ->
  (forall v r tr', Vector_sized E n tr <> Normal v r tr') /\
  (quiet E -> Vector_sized E n tr = Undefined).
Proof.
  intros Hf. pose proof (block_slots_short E n Hf) as Hm.
  unfold Vector_sized, RawMemory_new_wrapping, uninitialized_value_construct_n.
  destruct (Allocate_wrapping_spec E n tr) as [-> | [-> Hq]]; [lia | |].
  - cbn [buffer_ capacity_]. split.
    + intros v r tr' H.
      destruct (uninitialized_value_construct_loop E n _ 0 0 _)
        as [[] b t | |] eqn:HL; try done.
      apply uninitialized_value_construct_loop_Normal_length in HL.
      rewrite length_replicate in HL. lia.
    + intros Hq. rewrite uninitialized_value_construct_loop_short; try done;
        rewrite length_replicate; lia.
  - split; [done |]. intros Hquiet. by destruct Hq.
Qed.

(** X1: for a [size] whose byte count [size * sizeof(T)] is representable,
    [Vector(size)] either raises or returns a vector of size and capacity
    [size] whose elements are all value-initialised; it allocates once (not
    at all for [size = 0]) and value-initialises [size] objects; it has no
    undefined behaviour and returns when nothing raises.  For a [size]
    whose byte count wraps the call never returns: the block is shorter
    than [size] objects, and when nothing raises value-initialisation runs
    past its end, which is undefined. *)
Theorem Vector_sized_value_initialises n tr :
  (fits E n ->
   (forall v r tr',
      Vector_sized E n tr = Normal v r tr' ->
      Size v = n /\ Capacity v = n /\
      elements v = replicate n (Some (value_init E)) /\
      Invariant v = true /\
      tr' = tr ++ (if n =? 0 then [] else [Did (Alloc n)]) ++
              replicate n (Did ValueInit)) /\
   Vector_sized E n tr <> Undefined /\
   (quiet E -> exists v tr', Vector_sized E n tr = Normal v tt tr')) /\
  (~ fits E n ->
   (forall v r tr', Vector_sized E n tr <> Normal v r tr') /\
   (quiet E -> Vector_sized E n tr = Undefined)).
Proof.
  split; [|apply Vector_sized_short].
  intros Hf.
  destruct (Vector_sized_spec n tr Hf) as [H | (e & t & H & Hq)]; rewrite H.
  - split; [|split; [done | eauto]].
    intros v r tr' [= <- <- <-].
    rewrite elements_vec, fmap_replicate, Size_vec, length_replicate.
    repeat split. apply Invariant_vec. by rewrite length_replicate.
  - split; [done |]. split; [done |]. intros Hquiet. by destruct Hq.
Qed.

(** X2: the copy constructor, applied to a vector that satisfies the
    invariant, either raises or returns a vector with the same size and the
    same elements whose capacity is the size of the original (not its
    capacity).  Copying an empty vector allocates nothing and cannot
    raise. *)
Theorem Vector_copy_equal_elements other tr :
  Invariant other = true ->
  (forall v r tr',
     Vector_copy E other tr = Normal v r tr' ->
     Size v = Size other /\ Capacity v = Size other /\
     elements v = elements other /\ Invariant v = true) /\
  (Size other = 0 -> Vector_copy E other tr = Normal Vector_default tt tr) /\
  Vector_copy E other tr <> Undefined /\
  (quiet E -> exists v tr', Vector_copy E other tr = Normal v tt tr').
Proof.
  intros Hinv. apply Invariant_shape in Hinv as (ys & cap & Hlen & -> & He).
  rewrite He, Size_vec.
  split; [|split].
  - intros v r tr' H.
    destruct (Vector_copy_general ys cap tr) as [H' | (e & t & H' & _)];
      rewrite H' in H; [|done].
    injection H as <- <- <-. rewrite elements_vec, Size_vec, Capacity_vec.
    repeat split. by apply Invariant_vec.
  - intros H0. destruct ys; [|done]. apply Vector_copy_empty.
  - destruct (Vector_copy_general ys cap tr) as [H' | (e & t & H' & Hq)];
      rewrite H'.
    + split; [done | eauto].
    + split; [done |]. intros Hquiet. by destruct Hq.
Qed.

(** X3: [PopBack] on a non-empty vector that satisfies the invariant always
    returns: it destroys the last element and nothing else, the other
    elements and the capacity are unchanged and the size drops by one.  On an
    empty vector the call is undefined. *)
Theorem PopBack_removes_last this tr :
  Invariant this = true ->
  (0 < Size this ->
   exists this' y,
     PopBack this tr = Normal tt this' (tr ++ [Did (Dtor y)]) /\
     elements this = elements this' ++ [Some y] /\
     Size this = S (Size this') /\ Capacity this' = Capacity this /\
     Invariant this' = true) /\
  (Size this = 0 -> PopBack this tr = Undefined).
Proof.
  intros Hinv. split.
  - intros Hpos.
    apply Invariant_shape in Hinv as (xs & cap & Hlen & -> & He).
    rewrite Size_vec in Hpos.
    destruct (exists_last (l := xs)) as (xs' & y & ->);
      [intros ->; simpl in Hpos; lia |].
    exists (vec xs' cap), y. rewrite PopBack_spec by done.
    rewrite !elements_vec, fmap_snoc, !Size_vec, length_app. simpl.
    repeat split; try lia. apply Invariant_vec.
    rewrite length_app in Hlen. simpl in Hlen. lia.
  - intros H0. unfold PopBack, Size in *. by rewrite H0.
Qed.

(** X4: [PopBack] right after a [PushBack] that returned gives back the
    elements and the size the vector had before; it destroys exactly the
    appended element.  The capacity stays what the append made it, and when
    the append found room the vector is the one from before. *)
Theorem PushBack_then_PopBack this a tr :
  Invariant this = true ->
  (forall this1 tr1,
     PushBack E a this tr = Normal tt this1 tr1 ->
     exists this2,
       PopBack this1 tr1 =
         Normal tt this2 (tr1 ++ [Did (Dtor (arg_value a))]) /\
       elements this2 = elements this /\ Size this2 = Size this /\
       Capacity this2 = Capacity this1 /\
       (Size this < Capacity this -> this2 = this)) /\
  (quiet E -> exists this1 tr1, PushBack E a this tr = Normal tt this1 tr1).
Proof.
  intros Hinv. apply Invariant_shape in Hinv as (xs & cap & Hlen & -> & He).
  unfold PushBack. rewrite Size_vec, Capacity_vec.
  pose proof (room_after_insert xs cap Hlen) as Hroom.
  destruct (EmplaceBack_spec E xs cap a tr Hlen)
    as [[t H] | (e & s & t & H & Hq)]; rewrite H.
  - split; [|eauto]. intros this1 tr1 [= <- <-].
    eexists. rewrite PopBack_spec by (rewrite length_app; simpl; lia).
    split; [done |]. rewrite !elements_vec, !Capacity_vec, Size_vec.
    repeat split. intros Hlt.
    by destruct (Nat.eqb_spec (length xs) cap); [lia |].
  - split; [done |]. intros Hquiet. by destruct Hq.
Qed.

Lemma at_vec_inv xs cap (k : nat) x :
  length xs <= cap -> at_ (vec xs cap) k = Some x -> xs !! k = Some x.
Proof.
  intros Hlen H. destruct (xs !! k) as [x'|] eqn:Hx.
  - rewrite (at_vec xs cap k x' Hx Hlen) in H. done.
  - apply lookup_ge_None in Hx. revert H. unfold at_, index_ref.
    change (size_ (vec xs cap)) with (length xs).
    by destruct (Nat.ltb_spec k (length xs)); [lia |].
Qed.

(** X5: [Emplace] at a valid position of a vector that satisfies the
    invariant, when it returns, has put one new element at that position
    and kept all other elements in their order: those before the position
    stay, those from the position on follow the new element.  The iterator
    returned is the position, the size grows by one and the invariant holds
    again.  For an argument that is not an element of the vector the new
    element is the value passed.  For an lvalue argument that refers to the
    element at index [k] of the vector itself the new element is a copy of
    what that slot holds when the constructor runs: the value of the
    element if the vector is full or [k < pos]; when there is room, the
    moved-from state of the element if [k = pos], and the value of the
    element before it if [k > pos]. *)
Theorem Emplace_inserts_in_order this pos tr :
  Invariant this = true -> pos <= Size this ->
  (forall a r this' tr',
     Emplace E pos a this tr = Normal r this' tr' ->
     r = pos /\ at_ this' r = Some (arg_value a) /\
     elements this' =
       take pos (elements this) ++
       Some (arg_value a) :: drop pos (elements this) /\
     Size this' = S (Size this) /\ Invariant this' = true) /\
  (forall k x r this' tr',
     at_ this k = Some x ->
     Emplace_own E pos k this tr = Normal r this' tr' ->
     exists y,
       r = pos /\ at_ this' r = Some y /\
       elements this' =
         take pos (elements this) ++ Some y :: drop pos (elements this) /\
       Size this' = S (Size this) /\ Invariant this' = true /\
       (Size this = Capacity this \/ k < pos -> y = x) /\
       (Size this < Capacity this -> k = pos -> y = moved_from E x) /\
       (Size this < Capacity this -> pos < k -> at_ this (k - 1) = Some y)).
Proof.
  intros Hinv Hpos.
  apply Invariant_shape in Hinv as (xs & cap & Hlen & -> & He).
  rewrite He. rewrite Size_vec in Hpos |- *. rewrite Capacity_vec.
  assert (Hshape : forall y t r this' tr',
    Normal pos
      (vec (take pos xs ++ y :: drop pos xs)
         (if length xs =? cap then grown cap else cap)) t =
      Normal r this' tr' ->
    r = pos /\ at_ this' r = Some y /\
    elements this' = take pos (Some <$> xs) ++ Some y :: drop pos (Some <$> xs) /\
    Size this' = S (length xs) /\ Invariant this' = true).
  { intros y t r this' tr' [= <- <- _].
    pose proof (room_after_insert xs cap Hlen) as Hroom.
    rewrite <- (length_insert_middle xs pos y) in Hroom.
    rewrite elements_vec, Size_vec, length_insert_middle.
    rewrite fmap_app, fmap_cons, fmap_take, fmap_drop.
    split; [done |]. split; [|split; [done | split; [done |]]].
    - apply at_vec; [by apply lookup_insert_middle | done].
    - by apply Invariant_vec. }
  split.
  - intros a r this' tr' H.
    destruct (Emplace_spec E xs cap pos a tr Hpos Hlen)
      as [[t H'] | (e & s & t & H' & _)]; rewrite H' in H; [|done].
    by apply Hshape in H.
  - intros k x r this' tr' Hx H. apply at_vec_inv in Hx; [|done].
    destruct (Emplace_own_spec E xs cap pos k x tr Hpos Hlen Hx)
      as (y & H1 & H2 & H3 & [[t H'] | (e & s & t & H' & _)]);
      rewrite H' in H; [|done].
    apply Hshape in H as (-> & Ha & Hel & Hs & Hi).
    exists y. do 5 (split; [done |]). split; [done |]. split; [done |].
    intros Hc Hk. apply at_vec; [|done]. by apply H3.
Qed.

(** X6: [Erase] at a position below the size, on a vector that satisfies
    the invariant, when it returns, has removed exactly the element at that
    position; the others keep their order, the capacity is unchanged, the
    size drops by one and the iterator returned is the position.  It returns
    when nothing raises.  For a position at or past the end the call is
    undefined. *)
Theorem Erase_removes_element this pos tr :
  Invariant this = true ->
  (pos < Size this ->
   (forall r this' tr',
      Erase E pos this tr = Normal r this' tr' ->
      r = pos /\ elements this' = delete pos (elements this) /\
      Size this = S (Size this') /\ Capacity this' = Capacity this /\
      Invariant this' = true) /\
   (quiet E -> exists this' tr', Erase E pos this tr = Normal pos this' tr')) /\
  (Size this <= pos -> Erase E pos this tr = Undefined).
Proof.
  intros Hinv. apply Invariant_shape in Hinv as (xs & cap & Hlen & -> & He).
  rewrite He, Size_vec, Capacity_vec. split.
  - intros Hpos.
    destruct (Erase_spec_at E xs cap pos tr Hpos Hlen)
      as [[t H] | (e & s & t & H & Hq)]; rewrite H.
    + split; [|eauto]. intros r this' tr' [= <- <- <-].
      rewrite elements_vec, Size_vec, Capacity_vec, list_fmap_delete.
      assert (Hd : length xs = S (length (delete pos xs))).
      { rewrite length_delete by (by apply lookup_lt_is_Some_2). lia. }
      repeat split; try done. apply Invariant_vec. lia.
    + split; [done |]. intros Hquiet. by destruct Hq.
  - intros Hpos. unfold Erase, RawMemory_plus.
    change (capacity_ (data_ (vec xs cap))) with cap.
    change (size_ (vec xs cap)) with (length xs).
    destruct (Nat.leb_spec (length xs) cap); [|lia].
    by destruct (Nat.leb_spec (S pos) (length xs)); [lia |].
Qed.

(** X7: [EmplaceBack] on a vector that satisfies the invariant, when it
    returns, has appended the new value: the reference returned designates
    the element at the old size, reading it gives the new value, every
    element that was there reads as before, and the invariant holds. *)
Theorem EmplaceBack_returns_new_element this a tr r this' tr' :
  Invariant this = true ->
  EmplaceBack E a this tr = Normal r this' tr' ->
  r = Size this /\ at_ this' r = Some (arg_value a) /\
  (forall i, i < Size this -> at_ this' i = at_ this i) /\
  elements this' = elements this ++ [Some (arg_value a)] /\
  Invariant this' = true.
Proof.
  intros Hinv H.
  apply Invariant_shape in Hinv as (xs & cap & Hlen & -> & He).
  rewrite He, Size_vec.
  pose proof (room_after_insert xs cap Hlen) as Hroom.
  destruct (EmplaceBack_spec E xs cap a tr Hlen)
    as [[t H'] | (e & s & t & H' & _)]; rewrite H' in H; [|done].
  injection H as <- <- <-.
  assert (Hl : length (xs ++ [arg_value a]) = S (length xs))
    by (rewrite length_app; simpl; lia).
  split; [done |]. split; [|split; [|split]].
  - apply at_vec; [by rewrite list_lookup_middle | lia].
  - intros i Hi. destruct (lookup_lt_is_Some_2 xs i Hi) as [x Hx].
    rewrite (at_vec xs cap i x) by done.
    apply at_vec; [by apply lookup_app_l_Some | lia].
  - by rewrite elements_vec, fmap_snoc.
  - apply Invariant_vec. lia.
Qed.

(** X8: on a vector that satisfies the invariant [operator[]] reads exactly
    the elements: an index below the size gives the element at that index,
    and an index at or past the size fails the assertion. *)
Theorem at_reads_elements this i :
  Invariant this = true -> at_ this i = mjoin (elements this !! i).
Proof.
  intros Hinv. apply Invariant_shape in Hinv as (xs & cap & Hlen & -> & He).
  rewrite He, list_lookup_fmap.
  destruct (xs !! i) as [x|] eqn:Hx; simpl.
  - by apply at_vec.
  - apply lookup_ge_None in Hx. unfold at_, index_ref.
    change (size_ (vec xs cap)) with (length xs).
    by destruct (Nat.ltb_spec i (length xs)); [lia |].
Qed.

(** X9: [Resize(n)] on a vector that satisfies the invariant, when it
    returns, leaves size [n]: the first [n] old elements, followed by
    value-initialised elements if [n] exceeds the old size.  The capacity is
    the larger of the old capacity and [n].  Shrinking always returns: it
    only destroys the surplus elements.  Growing returns when nothing
    raises, provided [n] is within the capacity or its byte count
    [n * sizeof(T)] is representable; for an [n] above the capacity whose
    byte count wraps the call never returns. *)
Theorem Resize_sets_size this n tr :
  Invariant this = true ->
  (forall r this' tr',
     Resize E n this tr = Normal r this' tr' ->
     Size this' = n /\
     elements this' =
       take n (elements this) ++
       replicate (n - Size this) (Some (value_init E)) /\
     Capacity this' = Nat.max (Capacity this) n /\
     Invariant this' = true) /\
  (n < Size this ->
   exists this' ys,
     drop n (elements this) = Some <$> ys /\
     Resize E n this tr =
       Normal tt this' (tr ++ ((fun y => Did (Dtor y)) <$> ys))) /\
  (n <= Capacity this \/ fits E n -> quiet E ->
   exists this' tr', Resize E n this tr = Normal tt this' tr') /\
  (Capacity this < n -> ~ fits E n ->
   forall r this' tr', Resize E n this tr <> Normal r this' tr').
Proof.
  intros Hinv. apply Invariant_shape in Hinv as (xs & cap & Hlen & -> & He).
  rewrite He, Size_vec, Capacity_vec.
  destruct (Nat.lt_ge_cases n (length xs)) as [Hn | Hn].
  - rewrite (Resize_shrink_spec xs cap n tr Hn Hlen).
    split; [|split; [|split; [eauto | lia]]].
    + intros r this' tr' [= <- <- <-].
      rewrite elements_vec, Size_vec, Capacity_vec, length_take, fmap_take.
      replace (n - length xs) with 0 by lia. simpl. rewrite app_nil_r.
      repeat split; try lia. apply Invariant_vec. rewrite length_take. lia.
    + intros _. exists (vec (take n xs) cap), (drop n xs).
      by rewrite fmap_drop.
  - split; [|split; [lia | split]].
    + intros r this' tr' H.
      assert (Hf : n <= cap \/ fits E n).
      { destruct (Nat.le_gt_cases n cap) as [|Hk]; [by left | right].
        exact (Resize_Normal_fits xs cap n tr r this' tr' Hlen Hk H). }
      destruct (Resize_grow_spec xs cap n tr Hn Hlen Hf)
        as [[t H'] | (e & s & t & H' & _)]; rewrite H' in H; [|done].
      injection H as _ <- _.
      rewrite elements_vec, Size_vec, Capacity_vec, length_app,
        length_replicate, fmap_app, fmap_replicate.
      rewrite take_ge by (rewrite length_fmap; lia).
      repeat split; try lia. apply Invariant_vec.
      rewrite length_app, length_replicate. lia.
    + intros Hf Hquiet.
      destruct (Resize_grow_spec xs cap n tr Hn Hlen Hf)
        as [[t H] | (e & s & t & H & Hq)]; [eauto | by destruct Hq].
    + intros Hk Hnf r this' tr' H. apply Hnf.
      exact (Resize_Normal_fits xs cap n tr r this' tr' Hlen Hk H).
Qed.

(** *** Copy assignment, branch by branch *)

(** X10: copy assignment from a vector larger than the capacity of the
    destination is all-or-nothing.  When it returns, the destination has the
    elements of the right-hand side and a capacity equal to their number;
    when it raises, the store is exactly as before.  It returns when nothing
    raises. *)
Theorem copy_assign_rebuild_is_strong (this rhs : nat)
    (st : gmap nat (Vector T)) v r tr :
  this <> rhs -> st !! this = Some v -> st !! rhs = Some r ->
  Invariant v = true -> Invariant r = true -> Capacity v < Size r ->
  (forall st' tr',
     Vector_copy_assign E this rhs st tr = Normal tt st' tr' ->
     exists v',
       st' = <[this := v']> st /\ elements v' = elements r /\
       Size v' = Size r /\ Capacity v' = Size r /\ Invariant v' = true) /\
  (forall e st' tr',
     Vector_copy_assign E this rhs st tr = Throws e st' tr' -> st' = st) /\
  Vector_copy_assign E this rhs st tr <> Undefined /\
  (quiet E ->
   exists st' tr', Vector_copy_assign E this rhs st tr = Normal tt st' tr').
Proof.
  intros Hne Hv Hr Hiv Hir Hcap.
  apply Invariant_shape in Hiv as (xs & cap & Hlen & -> & Hex).
  apply Invariant_shape in Hir as (ys & cap2 & Hlen2 & -> & Hey).
  rewrite Hey. norm_vec.
  destruct (copy_assign_rebuild_spec E this rhs st xs cap ys cap2 tr
              Hne Hv Hr Hcap) as [H | (e & t & H & Hq)]; rewrite H.
  - split; [|split; [done | split; [done | eauto]]].
    intros st' tr' [= <- <-]. exists (vec ys (length ys)).
    rewrite elements_vec, Size_vec, Capacity_vec. repeat split.
    by apply Invariant_vec.
  - split; [done |]. split; [by intros e' st' tr' [= _ <- _] |].
    split; [done |]. intros Hquiet. by destruct Hq.
Qed.

Lemma fit_buffer_ok xs ys cap :
  length xs = 0 \/ length xs = length ys -> length xs <= cap ->
  length ys <= cap ->
  {| data_ :=
       {| buffer_ :=
            list_inserts 0 (Some <$> drop (length xs) ys)
              (list_inserts 0 (Some <$> take (length xs) ys)
                 (buffer_ (data_ (vec xs cap))));
          capacity_ := cap |};
     size_ := length ys |} = vec ys cap.
Proof.
  intros Hcase Hlx Hly.
  set (buf := buffer_ (data_ (vec xs cap))).
  assert (Hbuf : length buf = cap) by (by apply length_vec_buffer).
  assert (Hraw : raw_at buf (length xs) cap) by apply raw_at_vec.
  clearbody buf. apply vec_intro.
  - by rewrite !length_inserts.
  - destruct Hcase as [H0 | Heq].
    + rewrite H0, take_0, drop_0. apply live_at_inserts.
      rewrite length_inserts. lia.
    + rewrite Heq, drop_ge, take_ge by lia. simpl.
      apply live_at_inserts. lia.
  - apply raw_at_inserts_out; [rewrite length_fmap, length_drop; lia |].
    apply raw_at_inserts_out; [rewrite length_fmap, length_take; lia |].
    intros j Hj. apply Hraw. destruct Hcase; lia.
Qed.

(** X11: copy assignment from a vector that fits the capacity of the
    destination, when the destination is longer than the right-hand side,
    is empty, or has the same size, and the call returns: the destination
    has the elements of the right-hand side and its old capacity, and
    satisfies the invariant.  It returns when nothing raises. *)
Theorem copy_assign_fitting_copies (this rhs : nat)
    (st : gmap nat (Vector T)) v r tr :
  this <> rhs -> st !! this = Some v -> st !! rhs = Some r ->
  Invariant v = true -> Invariant r = true -> Size r <= Capacity v ->
  Size r < Size v \/ Size v = 0 \/ Size v = Size r ->
  (forall st' tr',
     Vector_copy_assign E this rhs st tr = Normal tt st' tr' ->
     exists v',
       st' = <[this := v']> st /\ elements v' = elements r /\
       Capacity v' = Capacity v /\ Invariant v' = true) /\
  (quiet E ->
   exists st' tr', Vector_copy_assign E this rhs st tr = Normal tt st' tr').
Proof.
  intros Hne Hv Hr Hiv Hir Hcap Hcase.
  apply Invariant_shape in Hiv as (xs & cap & Hlen & -> & Hex).
  apply Invariant_shape in Hir as (ys & cap2 & Hlen2 & -> & Hey).
  rewrite Hey. norm_vec.
  assert (Hres :
    (exists t, Vector_copy_assign E this rhs st tr =
       Normal tt (<[this := vec ys cap]> st) t)
    \/ exists e st' t,
         Vector_copy_assign E this rhs st tr = Throws e st' t /\ ~ quiet E).
  { destruct (Nat.lt_ge_cases (length ys) (length xs)) as [Hlt | Hge].
    - destruct (copy_assign_shrink_spec this rhs st xs cap ys cap2 tr
                  Hne Hv Hr Hlt Hlen) as [-> | H]; eauto.
    - destruct (copy_assign_fit_spec this rhs st xs cap ys cap2 tr
                  Hne Hv Hr Hge Hcap) as [[t ->] | H]; [|eauto].
      left. exists t. rewrite fit_buffer_ok; [done | lia | done | done]. }
  destruct Hres as [[t H] | (e & s & t & H & Hq)]; rewrite H.
  - split; [|eauto]. intros st' tr' [= <- <-]. exists (vec ys cap).
    rewrite elements_vec, Capacity_vec. repeat split. by apply Invariant_vec.
  - split; [done |]. intros Hquiet. by destruct Hq.
Qed.

(** X12: copy assignment from a vector that fits the capacity of a
    non-empty, shorter destination breaks the destination whenever it
    returns: the size becomes the size of the right-hand side, but the last
    slot of the new range is raw storage, so the invariant fails and reading
    the last element is undefined.  The call does return when nothing
    raises. *)
Theorem copy_assign_fitting_longer_corrupts (this rhs : nat)
    (st : gmap nat (Vector T)) v r tr :
  this <> rhs -> st !! this = Some v -> st !! rhs = Some r ->
  Invariant v = true -> Invariant r = true ->
  0 < Size v -> Size v < Size r -> Size r <= Capacity v ->
  (forall st' tr',
     Vector_copy_assign E this rhs st tr = Normal tt st' tr' ->
     exists v',
       st' !! this = Some v' /\ Size v' = Size r /\
       Capacity v' = Capacity v /\
       buffer_ (data_ v') !! (Size r - 1) = Some None /\
       at_ v' (Size r - 1) = None /\ Invariant v' = false) /\
  (quiet E ->
   exists st' tr', Vector_copy_assign E this rhs st tr = Normal tt st' tr').
Proof.
  intros Hne Hv Hr Hiv Hir Hpos Hlt Hcap.
  apply Invariant_shape in Hiv as (xs & cap & Hlen & -> & Hex).
  apply Invariant_shape in Hir as (ys & cap2 & Hlen2 & -> & Hey).
  norm_vec.
  destruct (copy_assign_fit_spec this rhs st xs cap ys cap2 tr Hne Hv Hr)
    as [[t H] | (e & s & t & H & Hq)]; [lia | done | |]; rewrite H.
  - split; [|eauto]. intros st' tr' [= <- <-].
    eexists. split; [apply lookup_insert_eq |].
    set (B := list_inserts 0 _ _).
    assert (HB : B !! (length ys - 1) = Some None).
    { unfold B.
      rewrite list_lookup_inserts_ge by (rewrite length_fmap, length_drop; lia).
      rewrite list_lookup_inserts_ge by (rewrite length_fmap, length_take; lia).
      apply raw_at_vec. lia. }
    split; [done |]. split; [done |]. split; [done |]. split.
    + unfold at_, index_ref, RawMemory_index. cbn [size_ data_ capacity_ buffer_].
      destruct (Nat.ltb_spec (length ys - 1) (length ys)); [|lia].
      destruct (Nat.ltb_spec (length ys - 1) cap); [|lia].
      by rewrite HB.
    + apply not_true_is_false. intros Hinv.
      destruct (Invariant_live _ (length ys - 1) Hinv) as [x Hx];
        [simpl; lia |].
      simpl in Hx. fold B in Hx. congruence.
  - split; [done |]. intros Hquiet. by destruct Hq.
Qed.

(** X13: whatever branch copy assignment takes and however it ends, it
    changes no object of the store other than its destination; in
    particular the right-hand side is left as it was. *)
Theorem copy_assign_touches_only_destination (this rhs : nat)
    (st st' : gmap nat (Vector T)) tr :
  (exists tr', Vector_copy_assign E this rhs st tr = Normal tt st' tr') \/
  (exists e tr', Vector_copy_assign E this rhs st tr = Throws e st' tr') ->
  forall a, a <> this -> st' !! a = st !! a.
Proof.
  intros H a Ha. revert H. unfold Vector_copy_assign.
  destruct (st !! this) as [v|]; [|by intros [[? ?] | (? & ? & ?)]].
  destruct (st !! rhs) as [r|]; [|by intros [[? ?] | (? & ? & ?)]].
  destruct (decide (this = rhs)).
  { intros [[? [= <- _]] | (? & ? & ?)]; done. }
  destruct (RawMemory_Capacity (data_ v) <? size_ r).
  { destruct (Vector_copy E r tr) as [c [] t1 | e1 [] t1 |].
    - destruct (Swap v c) as [v' c']. destruct (Vector_dtor c' t1).
      + intros [[? [= <- _]] | (? & ? & ?)]; [|done].
        by rewrite lookup_insert_ne.
      + by intros [[? ?] | (? & ? & ?)].
      + by intros [[? ?] | (? & ? & ?)].
    - intros [[? ?] | (? & ? & [= _ <- _])]; done.
    - by intros [[? ?] | (? & ? & ?)]. }
  destruct (size_ r <? size_ v).
  - destruct (copy_n E _ 0 _ _ 0 tr) as [[] b t1 | e1 b t1 |].
    + destruct (RawMemory_plus _ _); [|by intros [[? ?] | (? & ? & ?)]].
      destruct (destroy_n b _ _ t1).
      * intros [[? [= <- _]] | (? & ? & ?)]; [|done].
        by rewrite lookup_insert_ne.
      * by intros [[? ?] | (? & ? & ?)].
      * by intros [[? ?] | (? & ? & ?)].
    + intros [[? ?] | (? & ? & [= _ <- _])]; [done |].
      by rewrite lookup_insert_ne.
    + by intros [[? ?] | (? & ? & ?)].
  - destruct (copy_n E _ 0 _ _ 0 tr) as [[] b t1 | e1 b t1 |].
    + destruct (uninitialized_copy_n E _ _ _ b 0 t1) as [[] b' t2 | e2 b' t2 |].
      * intros [[? [= <- _]] | (? & ? & ?)]; [|done].
        by rewrite lookup_insert_ne.
      * intros [[? ?] | (? & ? & [= _ <- _])]; [done |].
        by rewrite lookup_insert_ne.
      * by intros [[? ?] | (? & ? & ?)].
    + intros [[? ?] | (? & ? & [= _ <- _])]; [done |].
      by rewrite lookup_insert_ne.
    + by intros [[? ?] | (? & ? & ?)].
Qed.

(** *** Swap *)

(** X14: [Swap] exchanges the complete states of two vectors (buffer,
    capacity and size), leaves every other object alone, and a second
    [Swap] of the same two vectors restores the store.  No element is
    touched: the operation has no trace. *)
Theorem Swap_exchanges_and_undoes (a b : nat) (st : gmap nat (Vector T)) v o :
  st !! a = Some v -> st !! b = Some o ->
  exists st1,
    Vector_Swap a b st = Some st1 /\
    st1 !! a = Some o /\ st1 !! b = Some v /\
    (forall c, c <> a -> c <> b -> st1 !! c = st !! c) /\
    Vector_Swap a b st1 = Some st.
Proof.
  intros Hv Ho. unfold Vector_Swap at 1. rewrite Hv, Ho.
  destruct (decide (a = b)) as [-> | Hne].
  - exists st. assert (v = o) as -> by congruence.
    repeat split; try done. unfold Vector_Swap. rewrite Ho.
    by destruct (decide (b = b)).
  - assert (HS : Swap v o = (o, v)) by (by destruct v as [[]], o as [[]]).
    rewrite HS. exists (<[b := v]> (<[a := o]> st)).
    assert (H1 : <[b := v]> (<[a := o]> st) !! a = Some o)
      by (by rewrite lookup_insert_ne, lookup_insert_eq).
    assert (H2 : <[b := v]> (<[a := o]> st) !! b = Some v)
      by (by rewrite lookup_insert_eq).
    split; [done |]. split; [done |]. split; [done |]. split.
    + intros c Ha Hb. by rewrite !lookup_insert_ne.
    + unfold Vector_Swap. rewrite H1, H2.
      destruct (decide (a = b)); [done |].
      assert (HS' : Swap o v = (v, o)) by (by destruct v as [[]], o as [[]]).
      rewrite HS'. f_equal. apply map_eq. intros c.
      destruct (decide (c = b)) as [-> | Hcb];
        [by rewrite lookup_insert_eq |].
      rewrite lookup_insert_ne by done.
      destruct (decide (c = a)) as [-> | Hca];
        [by rewrite lookup_insert_eq |].
      by rewrite !lookup_insert_ne.
Qed.

(** *** Appending into reserved storage *)

Lemma EmplaceBack_fit_spec xs cap a tr :
  length xs < cap ->
  EmplaceBack E a (vec xs cap) tr =
    Normal (length xs) (vec (xs ++ [arg_value a]) cap) (tr ++ [Did (arg_op a)])
  \/ exists e s t,
       EmplaceBack E a (vec xs cap) tr = Throws e s t /\ ~ quiet E.
Proof.
  intros Hlen.
  pose proof (Emplace_end_EmplaceBack E (vec xs cap) a tr) as Heq.
  change (size_ (vec xs cap)) with (length xs) in Heq.
  destruct (Emplace_fit_end_spec E xs cap a tr Hlen)
    as [H | (e & s & t & H & Hq)]; rewrite H in Heq;
    destruct (EmplaceBack E a (vec xs cap) tr); try done.
  - destruct Heq as (<- & <- & <-). by left.
  - destruct Heq as (<- & <-). right. eauto.
Qed.

Lemma PushBack_all_fit (vs : list (args T)) xs cap tr :
  length xs + length vs <= cap ->
  PushBack_all E vs (vec xs cap) tr =
    Normal (replicate (length vs) cap) (vec (xs ++ (arg_value <$> vs)) cap)
      (tr ++ ((fun a => Did (arg_op a)) <$> vs))
  \/ exists e s t,
       PushBack_all E vs (vec xs cap) tr = Throws e s t /\ ~ quiet E.
Proof.
  revert xs tr. induction vs as [|a vs IH]; intros xs tr Hlen.
  - left. simpl. by rewrite !app_nil_r.
  - simpl in Hlen |- *. unfold PushBack.
    destruct (EmplaceBack_fit_spec xs cap a tr)
      as [-> | (e & s & t & -> & Hq)]; [lia | | right; eauto].
    destruct (IH (xs ++ [arg_value a]) (tr ++ [Did (arg_op a)]))
      as [-> | (e & s & t & -> & Hq)];
      [rewrite length_app; simpl; lia | | right; eauto].
    left. rewrite Capacity_vec, <- !app_assoc. done.
Qed.

(** X15: after [Reserve(k)] has returned, for a [k] within the capacity
    or with a representable byte count [k * sizeof(T)], appending values
    one by one performs no allocation and moves no element as long as the
    size stays within [k]: each [PushBack] only constructs its own element,
    and the capacity stays the same throughout.  For a [k] above the
    capacity whose byte count wraps, [Reserve(k)] may return as well; if
    the elements kept fill the short block, the next [PushBack] constructs
    past the end of the block, which is undefined. *)
Theorem Reserve_then_appends_do_not_allocate this k (vs : list (args T)) tr :
  Invariant this = true -> Size this + length vs <= k ->
  (k <= Capacity this \/ fits E k ->
   (forall r this1 tr1 caps this2 tr2,
     Reserve E k this tr = Normal r this1 tr1 ->
     PushBack_all E vs this1 tr1 = Normal caps this2 tr2 ->
     tr2 = tr1 ++ ((fun a => Did (arg_op a)) <$> vs) /\
     caps = replicate (length vs) (Capacity this1) /\
     Capacity this2 = Capacity this1 /\
     elements this2 =
       elements this ++ ((fun a => Some (arg_value a)) <$> vs)) /\
   (quiet E -> exists this1 tr1 caps this2 tr2,
      Reserve E k this tr = Normal tt this1 tr1 /\
      PushBack_all E vs this1 tr1 = Normal caps this2 tr2)) /\
  (~ fits E k -> Capacity this < k -> Size this = block_slots E k ->
   forall r this1 tr1 a,
     Reserve E k this tr = Normal r this1 tr1 ->
     PushBack E a this1 tr1 = Undefined).
Proof.
  intros Hinv Hk.
  apply Invariant_shape in Hinv as (xs & cap & Hlen & -> & He).
  rewrite He. norm_vec. split; cycle 1.
  { intros Hnf Hc Hs r this1 tr1 a H.
    pose proof (block_slots_short E k Hnf) as Hm.
    apply Reserve_Normal_inv in H as (_ & -> & _); [|done..].
    unfold PushBack, EmplaceBack, Capacity, RawMemory_Capacity,
      RawMemory_plus, construct_at.
    cbn [data_ size_ capacity_ buffer_].
    destruct (Nat.eqb_spec (length xs) k) as [|_]; [lia |].
    destruct (Nat.leb_spec (length xs) k) as [_|]; [|lia].
    rewrite length_vec_buffer by lia.
    by destruct (Nat.ltb_spec (length xs) (block_slots E k)); [lia |]. }
  intros Hf.
  assert (HR : (exists t, Reserve E k (vec xs cap) tr =
                  Normal tt (vec xs (Nat.max cap k)) t)
               \/ exists e s t,
                    Reserve E k (vec xs cap) tr = Throws e s t /\ ~ quiet E).
  { destruct (Nat.le_gt_cases k cap) as [Hc | Hc].
    - left. exists tr. unfold Reserve, RawMemory_Capacity.
      change (capacity_ (data_ (vec xs cap))) with cap.
      destruct (Nat.leb_spec k cap); [|lia].
      by replace (Nat.max cap k) with cap by lia.
    - replace (Nat.max cap k) with k by lia.
      destruct Hf as [|Hf]; [lia |].
      destruct (Reserve_spec E xs cap k tr Hlen Hc Hf) as [-> | H]; eauto. }
  destruct HR as [[t HR] | (e & s & t & HR & Hq)]; rewrite HR.
  - assert (HP : forall t0,
        PushBack_all E vs (vec xs (Nat.max cap k)) t0 =
          Normal (replicate (length vs) (Nat.max cap k))
            (vec (xs ++ (arg_value <$> vs)) (Nat.max cap k))
            (t0 ++ ((fun a => Did (arg_op a)) <$> vs))
        \/ exists e s t1,
             PushBack_all E vs (vec xs (Nat.max cap k)) t0 = Throws e s t1 /\
             ~ quiet E).
    { intros t0. apply PushBack_all_fit. lia. }
    split.
    + intros r this1 tr1 caps this2 tr2 [= <- <- <-] H2.
      destruct (HP t) as [H' | (e & s & t1 & H' & _)]; rewrite H' in H2;
        [|done].
      injection H2 as <- <- <-. norm_vec.
      rewrite elements_vec, fmap_app, <- list_fmap_compose. done.
    + intros Hquiet. destruct (HP t) as [H' | (e & s & t1 & H' & Hq)];
        [|by destruct Hq].
      do 5 eexists. split; [done | exact H'].
  - split; [done |]. intros Hquiet. by destruct Hq.
Qed.

(** *** Erase at the last position *)

(** X16: erasing the last element is [PopBack]: for a non-empty vector
    [Erase] at offset [size() - 1] and [PopBack] end the same way, leave the
    same vector and perform the same element operations; neither can
    raise. *)
Theorem Erase_last_is_PopBack this tr :
  0 < Size this ->
  match Erase E (Size this - 1) this tr with
  | Normal r this' tr' =>
      r = Size this - 1 /\ PopBack this tr = Normal tt this' tr'
  | Throws _ _ _ => False
  | Undefined => PopBack this tr = Undefined
  end.
Proof.
  unfold Size, Erase, PopBack, RawMemory_plus, RawMemory_index.
  destruct (size_ this) as [|n] eqn:Hs; [lia |]. intros _.
  replace (S n - 1) with n by lia.
  destruct (Nat.leb_spec (S n) (capacity_ (data_ this))) as [Hc | Hc].
  - rewrite Nat.leb_refl, Nat.sub_diag. simpl.
    destruct (Nat.ltb_spec n (capacity_ (data_ this))) as [_|]; [|lia].
    by destruct (destroy_at (buffer_ (data_ this)) n tr).
  - by destruct (Nat.ltb_spec n (capacity_ (data_ this))); [lia |].
Qed.

(** *** Capacity never shrinks *)

Lemma EmplaceBack_Throws_shape this a tr e this' tr' :
  EmplaceBack E a this tr = Throws e this' tr' ->
  Capacity this' = Capacity this /\ Size this' = Size this.
Proof.
  unfold EmplaceBack, RawMemory_new.
  destruct (size_ this =? Capacity this).
  - destruct (Allocate E _ tr) as [nb0 [] tr1 | e1 [] tr1 |]; try done;
      [|by intros [= _ <- _]].
    destruct (RawMemory_plus _ _) as [p|]; [|done]. cbn [buffer_ capacity_].
    destruct (construct_at E nb0 p a tr1) as [[] nb tr2 | e2 nb tr2 |];
      try done; [|by intros [= _ <- _]].
    destruct (CopyN E _ 0 _ nb 0 tr2) as [[] [ob nb'] tr3 | e3 [ob nb'] tr3 |];
      try done.
    + destruct (destroy_n ob 0 _ tr3); try done. by destruct (index_ref _ _).
    + by intros [= _ <- _].
  - destruct (RawMemory_plus _ _) as [p|]; [|done].
    destruct (construct_at E _ p a tr) as [[] b tr1 | e1 b tr1 |]; try done.
    + by destruct (index_ref _ _).
    + by intros [= _ <- _].
Qed.

Lemma Emplace_Throws_shape this pos a tr e this' tr' :
  Emplace E pos a this tr = Throws e this' tr' ->
  Capacity this' = Capacity this /\ Size this' = Size this.
Proof.
  unfold Emplace, RawMemory_new.
  destruct (size_ this =? Capacity this).
  - destruct (Allocate E _ tr) as [nb0 [] tr1 | e1 [] tr1 |]; try done;
      [|by intros [= _ <- _]].
    destruct (RawMemory_plus _ pos) as [p|]; [|done]. cbn [buffer_ capacity_].
    destruct (construct_at E nb0 p a tr1) as [[] nb tr2 | e2 nb tr2 |];
      try done; [|by intros [= _ <- _]].
    destruct (CopyN E _ 0 pos nb 0 tr2)
      as [[] [ob nb1] tr3 | e3 [ob nb1] tr3 |]; try done.
    + destruct (RawMemory_plus (data_ this) pos) as [q|]; [|done].
      destruct (pos <=? size_ this); [|done].
      destruct (CopyN E ob q _ nb1 _ tr3)
        as [[] [ob2 nb2] tr4 | e4 [ob2 nb2] tr4 |]; try done.
      * destruct (destroy_n ob2 0 _ tr4); try done.
        by destruct (RawMemory_plus _ _).
      * destruct (destroy_n nb2 0 _ tr4); try done. by intros [= _ <- _].
    + destruct (destroy_at nb1 p tr3); try done. by intros [= _ <- _].
  - destruct (pos <? size_ this).
    + destruct (RawMemory_plus _ _) as [e_|]; [|done].
      destruct (move_construct_at E _ e_ _ tr) as [[] b1 tr1 | e1 b1 tr1 |];
        try done; [|by intros [= _ <- _]].
      destruct (move_backward E b1 _ _ e_ tr1) as [[] b2 tr2 | e2 b2 tr2 |];
        try done; [|by intros [= _ <- _]].
      destruct (may_raise E tr2 (arg_op a)); [by intros [= _ <- _] |].
      destruct (RawMemory_index _ _) as [i|]; [|done].
      destruct (b2 !! i) as [[d|]|]; try done.
      destruct (may_raise E _ (MoveAssign d _)); [by intros [= _ <- _] |].
      by destruct (RawMemory_plus _ _).
    + destruct (RawMemory_plus _ _) as [p|]; [|done].
      destruct (construct_at E _ p a tr) as [[] b tr1 | e1 b tr1 |]; try done.
      * by destruct (RawMemory_plus _ _).
      * by intros [= _ <- _].
Qed.

Lemma Erase_shape this pos tr this' :
  state_of (Erase E pos this tr) = Some this' ->
  Capacity this' = Capacity this.
Proof.
  unfold Erase. destruct (RawMemory_plus _ _) as [e_|]; [|done].
  destruct (S pos <=? e_); [|done].
  destruct (std_move E _ _ _ _ tr) as [[] b tr1 | e1 b tr1 |]; try done.
  - destruct (size_ this) as [|n]; [done |].
    destruct (RawMemory_index _ _) as [i|]; [|done].
    destruct (destroy_at b i tr1); try done. by intros [= <-].
  - by intros [= <-].
Qed.

Lemma PopBack_shape this tr this' :
  state_of (PopBack this tr) = Some this' -> Capacity this' = Capacity this.
Proof.
  unfold PopBack. destruct (size_ this) as [|n]; [done |].
  destruct (RawMemory_index _ _) as [i|]; [|done].
  destruct (destroy_at _ i tr); try done. by intros [= <-].
Qed.

Lemma Reserve_shape this k tr this' :
  state_of (Reserve E k this tr) = Some this' ->
  Capacity this <= Capacity this' /\ Size this' = Size this.
Proof.
  destruct (Reserve E k this tr) as [r s t | e s t |] eqn:H; try done;
    intros [= ->].
  - revert H.
    unfold Reserve, RawMemory_new_wrapping, Capacity, RawMemory_Capacity.
    destruct (Nat.leb_spec k (capacity_ (data_ this))) as [Hk | Hk].
    { by intros [= _ <- _]. }
    unfold Allocate_wrapping.
    destruct (k =? 0); [|destruct (may_raise E tr _)];
      try done; cbn [buffer_ capacity_].
    + destruct (CopyN E _ 0 _ _ 0 tr) as [[] [ob nb] t2 | ? [ob nb] ? |];
        try done.
      destruct (destroy_n ob 0 _ t2); try done. intros [= _ <- _]. simpl.
      split; [lia | done].
    + destruct (CopyN E _ 0 _ _ 0 _) as [[] [ob nb] t2 | ? [ob nb] ? |];
        try done.
      destruct (destroy_n ob 0 _ t2); try done. intros [= _ <- _]. simpl.
      split; [lia | done].
  - apply Reserve_Throws in H as (-> & -> & _). done.
Qed.

Lemma Resize_shape this n tr this' :
  state_of (Resize E n this tr) = Some this' ->
  Capacity this <= Capacity this'.
Proof.
  unfold Resize. destruct (n <? size_ this).
  - destruct (RawMemory_plus _ _) as [p|]; [|done].
    destruct (destroy_n _ p _ tr); try done. by intros [= <-].
  - destruct (Reserve E n this tr) as [[] this1 tr1 | e1 this1 tr1 |] eqn:HR;
      try done.
    + assert (H1 : Capacity this <= Capacity this1)
        by (eapply Reserve_shape; by rewrite HR).
      destruct (RawMemory_plus _ _) as [p|]; [|done].
      destruct (uninitialized_value_construct_n E _ p _ tr1); try done;
        by intros [= <-].
    + intros [= <-]. eapply Reserve_shape. by rewrite HR.
Qed.

(** X17: no member function ever lowers the capacity.  Whether
    [EmplaceBack], [PushBack], [Emplace], [Insert], [Erase], [PopBack],
    [Reserve] or [Resize] returns or raises, the capacity of the vector it
    leaves is at least the capacity it found; this holds from any state. *)
Theorem capacity_never_decreases this tr this' :
  (forall a, state_of (EmplaceBack E a this tr) = Some this' ->
     Capacity this <= Capacity this') /\
  (forall a, state_of (PushBack E a this tr) = Some this' ->
     Capacity this <= Capacity this') /\
  (forall pos a, state_of (Emplace E pos a this tr) = Some this' ->
     Capacity this <= Capacity this') /\
  (forall pos a, state_of (Insert E pos a this tr) = Some this' ->
     Capacity this <= Capacity this') /\
  (forall pos, state_of (Erase E pos this tr) = Some this' ->
     Capacity this <= Capacity this') /\
  (state_of (PopBack this tr) = Some this' ->
     Capacity this <= Capacity this') /\
  (forall k, state_of (Reserve E k this tr) = Some this' ->
     Capacity this <= Capacity this') /\
  (forall n, state_of (Resize E n this tr) = Some this' ->
     Capacity this <= Capacity this').
Proof.
  assert (HEB : forall a, state_of (EmplaceBack E a this tr) = Some this' ->
                  Capacity this <= Capacity this').
  { intros a. destruct (EmplaceBack E a this tr) as [r s t | e s t |] eqn:H;
      try done; intros [= ->].
    - apply EmplaceBack_Normal_capacity in H. rewrite H.
      destruct (Size this =? Capacity this); lia.
    - apply EmplaceBack_Throws_shape in H as [-> _]. done. }
  assert (HE : forall pos a, state_of (Emplace E pos a this tr) = Some this' ->
                 Capacity this <= Capacity this').
  { intros pos a.
    destruct (Emplace E pos a this tr) as [r s t | e s t |] eqn:H;
      try done; intros [= ->].
    - apply Emplace_Normal_capacity in H. rewrite H.
      destruct (Size this =? Capacity this); lia.
    - apply Emplace_Throws_shape in H as [-> _]. done. }
  split; [done |]. split.
  { intros a. unfold PushBack. specialize (HEB a).
    by destruct (EmplaceBack E a this tr). }
  split; [done |]. split; [done |]. split.
  { intros pos H. by rewrite (Erase_shape _ _ _ _ H). }
  split.
  { intros H. by rewrite (PopBack_shape _ _ _ H). }
  split.
  { intros k H. by apply Reserve_shape in H as [H _]. }
  intros n. apply Resize_shape.
Qed.

(** *** Emplace in place, when constructing the new value raises *)

(** X18: [Emplace] into the middle of a vector that has room is not
    all-or-nothing.  If the construction of the new value raises, size and
    capacity are as before, but the elements from the position on have
    already been shifted one slot up: the slots up to and including the one
    just past the end hold the old elements with the moved-from state of
    the element at the position inserted before it.  So the element at the
    position is lost, the old last element is a live object outside the
    range the size covers, and the invariant no longer holds. *)
Theorem Emplace_in_place_construct_failure this pos v tr this' tr' :
  Invariant this = true -> pos < Size this -> Size this < Capacity this ->
  Emplace E pos (ByArgs v) this tr =
    Throws (ElementError (Construct v)) this' tr' ->
  Size this' = Size this /\ Capacity this' = Capacity this /\
  (exists y,
     elements this !! pos = Some (Some y) /\
     take (S (Size this)) (buffer_ (data_ this')) =
       take pos (elements this) ++
       Some (moved_from E y) :: drop pos (elements this) /\
     elements this' =
       take pos (elements this) ++
       Some (moved_from E y) ::
       take (Size this - S pos) (drop pos (elements this))) /\
  (forall j, Size this < j ->
     buffer_ (data_ this') !! j = buffer_ (data_ this) !! j) /\
  Invariant this' = false.
Proof.
  intros Hinv Hpos Hroom H.
  apply Invariant_shape in Hinv as (xs & cap & Hlen & -> & He).
  rewrite He. norm_vec.
  destruct (lookup_lt_is_Some_2 xs pos Hpos) as [y Hy].
  assert (Hxs : xs = take pos xs ++ y :: drop (S pos) xs)
    by (by rewrite take_drop_middle).
  assert (Hp : pos = length (take pos xs)) by (rewrite length_take; lia).
  revert Hxs Hp. generalize (take pos xs) (drop (S pos) xs).
  intros xs1 ys -> ->. clear Hy Hpos.
  rewrite <- Emplace_from_const in H.
  set (zs := xs1 ++ moved_from E y :: y :: ys).
  assert (Hn : length (xs1 ++ y :: ys) = S (length xs1 + length ys))
    by (rewrite length_app; simpl; lia).
  assert (Hz : length zs = S (length (xs1 ++ y :: ys)))
    by (unfold zs; rewrite !length_app; simpl; lia).
  destruct (Emplace_from_fit_mid E xs1 y ys cap (fun _ => Some (ByArgs v)) tr
              Hroom)
    as [(e & s & t & H' & _ & [[x Hk] | (d & x & Hk)])
        | [[Hv _] | [(a & t2 & Hv & _ & H') | (a & t & _ & H')]]];
    try (rewrite H' in H; injection H as -> _ _; done);
    try done; [|by rewrite H' in H].
  injection Hv as <-. rewrite H' in H. injection H as Ht _.
  set (B := buffer_ (data_ (vec zs cap))).
  change (with_buffer (vec (xs1 ++ y :: ys) cap) B = this') in Ht.
  subst this'.
  assert (Htake : take (S (length (xs1 ++ y :: ys))) B = Some <$> zs).
  { rewrite <- Hz. apply (elements_vec zs cap). }
  change (Size (with_buffer (vec (xs1 ++ y :: ys) cap) B))
    with (length (xs1 ++ y :: ys)).
  change (Capacity (with_buffer (vec (xs1 ++ y :: ys) cap) B)) with cap.
  change (buffer_ (data_ (with_buffer (vec (xs1 ++ y :: ys) cap) B))) with B.
  change (elements (with_buffer (vec (xs1 ++ y :: ys) cap) B))
    with (take (length (xs1 ++ y :: ys)) B).
  split; [done |]. split; [done |]. split; [|split].
  - exists y. split; [|split].
    + rewrite list_lookup_fmap. by rewrite list_lookup_middle.
    + rewrite Htake. unfold zs.
      rewrite !fmap_app, !fmap_cons.
      rewrite take_app_length' by (by rewrite length_fmap).
      by rewrite drop_app_length' by (by rewrite length_fmap).
    + replace (take (length (xs1 ++ y :: ys)) B)
        with (take (length (xs1 ++ y :: ys))
                (take (S (length (xs1 ++ y :: ys))) B))
        by (rewrite take_take; f_equal; lia).
      rewrite Htake. unfold zs.
      rewrite !fmap_app, !fmap_cons.
      rewrite (take_app_length' (Some <$> xs1) _ (length xs1))
        by (by rewrite length_fmap).
      rewrite drop_app_length' by (by rewrite length_fmap).
      rewrite take_app_ge by (rewrite length_fmap, Hn; lia).
      rewrite length_fmap. f_equal.
      replace (length (xs1 ++ y :: ys) - length xs1)
        with (S (length (xs1 ++ y :: ys) - S (length xs1))) by lia.
      done.
  - intros j Hj. unfold B. simpl.
    rewrite !lookup_app_r by (rewrite length_fmap; lia).
    rewrite !length_fmap.
    destruct (decide (j < cap)) as [Hjc | Hjc].
    + by rewrite !lookup_replicate_2 by lia.
    + by rewrite !lookup_ge_None_2 by (rewrite length_replicate; lia).
  - apply not_true_is_false. intros Hinv.
    pose proof (Invariant_raw _ (length (xs1 ++ y :: ys)) Hinv) as Hr.
    change (buffer_ (data_ (with_buffer (vec (xs1 ++ y :: ys) cap) B)))
      with B in Hr.
    assert (Hlast : is_Some (zs !! length (xs1 ++ y :: ys)))
      by (apply lookup_lt_is_Some; lia).
    destruct Hlast as [l Hl]. unfold B in Hr.
    rewrite (lookup_vec_live zs cap _ l Hl) in Hr.
    discriminate Hr. split; [done |]. exact Hroom.
Qed.

(** *** The destructor *)

(** X19: the destructor of a vector that satisfies the invariant destroys
    each of its elements exactly once, in order from the first to the last,
    touches nothing else and cannot raise. *)
Theorem Vector_dtor_destroys_elements this xs tr :
  Invariant this = true -> elements this = Some <$> xs ->
  Vector_dtor this tr = Normal tt tt (tr ++ ((fun x => Did (Dtor x)) <$> xs)).
Proof.
  intros Hinv He. destruct (Invariant_elements this xs Hinv He) as [-> _].
  apply Vector_dtor_spec.
Qed.

(** *** EmplaceBack, when relocating the elements raises *)

Lemma destroy_n_trace buf (first n : nat) tr r b t :
  destroy_n buf first n tr = Normal r b t -> exists t', t = tr ++ t'.
Proof.
  revert buf first tr. induction n as [|n IH]; intros buf first tr; simpl.
  - intros [= _ _ <-]. exists []. by rewrite app_nil_r.
  - destruct (buf !! first) as [[x|]|]; try done.
    intros H. apply IH in H as [t' ->]. rewrite <- app_assoc. eauto.
Qed.

Lemma uninitialized_copy_loop_trace buf (first n : nat) dst (result cur : nat)
    tr e d t :
  uninitialized_copy_loop E buf first n dst result cur tr = Throws e d t ->
  exists t', t = tr ++ t'.
Proof.
  revert first dst cur tr.
  induction n as [|n IH]; intros first dst cur tr; simpl; [done |].
  destruct (buf !! first) as [[x|]|]; try done.
  destruct (cur <? length dst); [|done].
  destruct (may_raise E tr (CopyCtor x)).
  - destruct (destroy_n dst result _ _) as [[] d' t' | |] eqn:Hd; try done.
    intros [= _ _ <-]. apply destroy_n_trace in Hd as [t2 ->].
    rewrite <- app_assoc. eauto.
  - intros H. apply IH in H as [t' ->]. rewrite <- app_assoc. eauto.
Qed.

Lemma uninitialized_move_loop_trace buf (first n : nat) dst (result cur : nat)
    tr e s t :
  uninitialized_move_loop E buf first n dst result cur tr = Throws e s t ->
  exists t', t = tr ++ t'.
Proof.
  revert buf first dst cur tr.
  induction n as [|n IH]; intros buf first dst cur tr; simpl; [done |].
  destruct (buf !! first) as [[x|]|]; try done.
  destruct (cur <? length dst); [|done].
  destruct (may_raise E tr (MoveCtor x)).
  - destruct (destroy_n dst result _ _) as [[] d' t' | |] eqn:Hd; try done.
    intros [= _ _ <-]. apply destroy_n_trace in Hd as [t2 ->].
    rewrite <- app_assoc. eauto.
  - intros H. apply IH in H as [t' ->]. rewrite <- app_assoc. eauto.
Qed.

Lemma CopyN_Throws_trace buf (first n : nat) dst (result : nat) tr e s t :
  CopyN E buf first n dst result tr = Throws e s t -> exists t', t = tr ++ t'.
Proof.
  unfold CopyN, uninitialized_move_n, uninitialized_copy_n.
  destruct (is_nothrow_move_constructible E || negb (is_copy_constructible E)).
  - apply uninitialized_move_loop_trace.
  - destruct (uninitialized_copy_loop _ _ _ _ _ _ _ _) eqn:H; try done.
    intros [= _ _ <-]. by eapply uninitialized_copy_loop_trace.
Qed.

(** X20: when [EmplaceBack] on a full vector raises, one of three things
    happened: the allocation failed; the construction of the new element
    failed; or the new element was built in the new storage and the
    relocation of the old elements failed.  In the last case the new element
    is never destroyed: [Emplace] at the end, from the same state, performs
    exactly the same operations and then destroys the new element, which
    [EmplaceBack] does not. *)
Theorem EmplaceBack_growth_failure_skips_destructor this a tr e this1 tr1 :
  Size this = Capacity this ->
  EmplaceBack E a this tr = Throws e this1 tr1 ->
  (e = BadAlloc /\ this1 = this /\
   tr1 = tr ++ [Raised (Alloc (grown (Size this)))]) \/
  (e = ElementError (arg_op a) /\ this1 = this /\
   tr1 = tr ++ [Did (Alloc (grown (Size this))); Raised (arg_op a)]) \/
  (exists t,
     tr1 = tr ++ Did (Alloc (grown (Size this))) :: Did (arg_op a) :: t /\
     Emplace E (Size this) a this tr =
       Throws e this1 (tr1 ++ [Did (Dtor (arg_value a))])).
Proof.
  unfold Size, grown. intros Hc.
  unfold Emplace, EmplaceBack, index_ref, RawMemory_index, RawMemory_plus,
    RawMemory_new. rewrite Hc, Nat.eqb_refl. rewrite <- Hc.
  set (g := if size_ this =? 0 then 1 else size_ this * 2).
  assert (Hg : size_ this < g)
    by (unfold g; destruct (Nat.eqb_spec (size_ this) 0); lia).
  destruct (Allocate_spec E g tr) as [-> | [-> _]]; [lia | |];
    cbn [buffer_ capacity_]; [|intros [= <- <- <-]; by left].
  destruct (Nat.leb_spec (size_ this) g) as [_|]; [|lia].
  destruct (construct_at_spec E (replicate g None) (size_ this) a
              (tr ++ [Did (Alloc g)])) as [-> | [-> _]];
    [by rewrite length_replicate | |];
    [|intros [= <- <- <-]; right; left; by rewrite <- app_assoc].
  destruct (CopyN E (buffer_ (data_ this)) 0 (size_ this) _ 0 _)
    as [[] [ob nb1] tr3 | e3 [ob nb1] tr3 |] eqn:HC; try done.
  { destruct (destroy_n ob 0 (size_ this) tr3) as [[] b tr4 | |]; try done.
    cbn [size_ data_ buffer_ capacity_].
    destruct (_ <? S _); [|done]. by destruct (_ <? g). }
  intros [= <- <- <-]. right; right.
  pose proof (CopyN_Throws_trace _ _ _ _ _ _ _ _ _ HC) as [t ->].
  exists t. split; [by rewrite <- !app_assoc |].
  apply CopyN_frame in HC as [_ Hf]. unfold destroy_at.
  rewrite Hf by lia. rewrite list_lookup_insert_eq by (rewrite length_replicate; lia).
  done.
Qed.

End More.

(** * Concrete runs of the further properties *)

Lemma Vector_sized_value_initialises_witness :
  fits plain 3 /\
  exists v tr',
    Vector_sized plain 3 [] = Normal v tt tr' /\
    Size v = 3 /\ Capacity v = 3 /\
    elements v = replicate 3 (Some (value_init plain)) /\
    Invariant v = true /\
    tr' = [] ++ (if 3 =? 0 then [] else [Did (Alloc 3)]) ++
            replicate 3 (Did ValueInit).
Proof.
  assert (Hf : fits plain 3) by reflexivity.
  destruct (proj1 (Vector_sized_value_initialises plain 3 []) Hf)
    as (H1 & _ & H3).
  destruct (H3 plain_quiet) as (v & tr' & Hv).
  split; [exact Hf |]. exists v, tr'. split; [exact Hv |].
  exact (H1 _ _ _ Hv).
Defined.

Lemma Vector_copy_equal_elements_witness :
  Invariant (vec [1; 2] 3) = true /\
  exists v tr',
    Vector_copy plain (vec [1; 2] 3) [] = Normal v tt tr' /\
    Size v = Size (vec [1; 2] 3) /\ Capacity v = Size (vec [1; 2] 3) /\
    elements v = elements (vec [1; 2] 3) /\ Invariant v = true.
Proof.
  destruct (Vector_copy_equal_elements plain (vec [1; 2] 3) [] eq_refl)
    as (H1 & _ & _ & H4).
  destruct (H4 plain_quiet) as (v & tr' & Hv).
  split; [reflexivity |]. exists v, tr'. split; [exact Hv |].
  exact (H1 _ _ _ Hv).
Defined.

Lemma PopBack_removes_last_witness :
  Invariant (vec [1; 2; 3] 4) = true /\
  0 < Size (vec [1; 2; 3] 4) /\
  exists this' y,
    PopBack (vec [1; 2; 3] 4) [] = Normal tt this' ([] ++ [Did (Dtor y)]) /\
    elements (vec [1; 2; 3] 4) = elements this' ++ [Some y] /\
    Size (vec [1; 2; 3] 4) = S (Size this') /\
    Capacity this' = Capacity (vec [1; 2; 3] 4) /\
    Invariant this' = true.
Proof.
  assert (Hpos : 0 < Size (vec [1; 2; 3] 4)) by (simpl; lia).
  split; [reflexivity |]. split; [exact Hpos |].
  exact (proj1 (PopBack_removes_last (vec [1; 2; 3] 4) [] eq_refl) Hpos).
Defined.

Lemma PushBack_then_PopBack_witness :
  Invariant (vec [1; 2] 3) = true /\
  PushBack plain (ByArgs 9) (vec [1; 2] 3) [] =
    Normal tt (vec [1; 2; 9] 3) [Did (Construct 9)] /\
  exists this2,
    PopBack (vec [1; 2; 9] 3) [Did (Construct 9)] =
      Normal tt this2 ([Did (Construct 9)] ++ [Did (Dtor 9)]) /\
    elements this2 = elements (vec [1; 2] 3) /\
    Size this2 = Size (vec [1; 2] 3) /\
    Capacity this2 = Capacity (vec [1; 2; 9] 3) /\
    (Size (vec [1; 2] 3) < Capacity (vec [1; 2] 3) -> this2 = vec [1; 2] 3).
Proof.
  split; [reflexivity |]. split; [reflexivity |].
  exact (proj1 (PushBack_then_PopBack plain (vec [1; 2] 3) (ByArgs 9) []
                  eq_refl)
           (vec [1; 2; 9] 3) [Did (Construct 9)] eq_refl).
Defined.

Lemma Emplace_inserts_in_order_witness :
  Invariant (vec [1; 2; 3] 4) = true /\
  0 <= Size (vec [1; 2; 3] 4) /\
  at_ (vec [1; 2; 3] 4) 2 = Some 3 /\
  Emplace_own plain 0 2 (vec [1; 2; 3] 4) [] =
    Normal 0 (vec [2; 1; 2; 3] 4)
      [Did (MoveCtor 3); Did (MoveAssign 3 2); Did (MoveAssign 2 1);
       Did (CopyCtor 2); Did (MoveAssign 1 2); Did (Dtor 2)] /\
  Emplace plain 0 (ByCopy 3) (vec [1; 2; 3] 4) [] =
    Normal 0 (vec [3; 1; 2; 3] 4)
      [Did (MoveCtor 3); Did (MoveAssign 3 2); Did (MoveAssign 2 1);
       Did (CopyCtor 3); Did (MoveAssign 1 3); Did (Dtor 3)] /\
  (0 = 0 /\ at_ (vec [3; 1; 2; 3] 4) 0 = Some 3 /\
   elements (vec [3; 1; 2; 3] 4) =
     take 0 (elements (vec [1; 2; 3] 4)) ++
     Some 3 :: drop 0 (elements (vec [1; 2; 3] 4)) /\
   Size (vec [3; 1; 2; 3] 4) = S (Size (vec [1; 2; 3] 4)) /\
   Invariant (vec [3; 1; 2; 3] 4) = true) /\
  exists y,
    0 = 0 /\ at_ (vec [2; 1; 2; 3] 4) 0 = Some y /\
    elements (vec [2; 1; 2; 3] 4) =
      take 0 (elements (vec [1; 2; 3] 4)) ++
      Some y :: drop 0 (elements (vec [1; 2; 3] 4)) /\
    Size (vec [2; 1; 2; 3] 4) = S (Size (vec [1; 2; 3] 4)) /\
    Invariant (vec [2; 1; 2; 3] 4) = true /\
    at_ (vec [1; 2; 3] 4) (2 - 1) = Some y.
Proof.
  assert (Hpos : 0 <= Size (vec [1; 2; 3] 4)) by (simpl; lia).
  assert (Hroom : Size (vec [1; 2; 3] 4) < Capacity (vec [1; 2; 3] 4))
    by (unfold Capacity, RawMemory_Capacity; simpl; lia).
  assert (Hk : 0 < 2) by lia.
  destruct (Emplace_inserts_in_order plain (vec [1; 2; 3] 4) 0 [] eq_refl Hpos)
    as [H1 H2].
  split; [reflexivity |]. split; [exact Hpos |]. split; [reflexivity |].
  split; [reflexivity |]. split; [reflexivity |].
  split; [exact (H1 (ByCopy 3) 0 (vec [3; 1; 2; 3] 4) _ eq_refl) |].
  destruct (H2 2 3 0 (vec [2; 1; 2; 3] 4) _ eq_refl eq_refl)
    as (y & Hr & Ha & He & Hs & Hi & _ & _ & Hy).
  exists y. split; [exact Hr |]. split; [exact Ha |]. split; [exact He |].
  split; [exact Hs |]. split; [exact Hi |]. exact (Hy Hroom Hk).
Defined.

Lemma Erase_removes_element_witness :
  Invariant (vec [1; 2; 3] 4) = true /\
  1 < Size (vec [1; 2; 3] 4) /\
  exists this' tr',
    Erase emptied_by_move 1 (vec [1; 2; 3] 4) [] = Normal 1 this' tr' /\
    elements this' = delete 1 (elements (vec [1; 2; 3] 4)) /\
    Size (vec [1; 2; 3] 4) = S (Size this') /\
    Capacity this' = Capacity (vec [1; 2; 3] 4) /\
    Invariant this' = true.
Proof.
  assert (Hpos : 1 < Size (vec [1; 2; 3] 4)) by (simpl; lia).
  destruct (proj1 (Erase_removes_element emptied_by_move (vec [1; 2; 3] 4) 1 []
                     eq_refl) Hpos) as [H1 H2].
  destruct (H2 emptied_by_move_quiet) as (this' & tr' & He).
  split; [reflexivity |]. split; [exact Hpos |].
  exists this', tr'. split; [exact He |].
  exact (proj2 (H1 _ _ _ He)).
Defined.

Lemma EmplaceBack_returns_new_element_witness :
  Invariant (vec [1; 2] 2) = true /\
  exists r this' tr',
    EmplaceBack plain (ByArgs 9) (vec [1; 2] 2) [] = Normal r this' tr' /\
    r = Size (vec [1; 2] 2) /\ at_ this' r = Some 9 /\
    (forall i, i < Size (vec [1; 2] 2) ->
       at_ this' i = at_ (vec [1; 2] 2) i) /\
    elements this' = elements (vec [1; 2] 2) ++ [Some 9] /\
    Invariant this' = true.
Proof.
  split; [reflexivity |].
  do 3 eexists. split; [reflexivity |].
  eapply (EmplaceBack_returns_new_element plain (vec [1; 2] 2) (ByArgs 9) []);
    reflexivity.
Defined.

Lemma at_reads_elements_witness :
  Invariant (vec [1; 2; 3] 4) = true /\
  at_ (vec [1; 2; 3] 4) 1 = mjoin (elements (vec [1; 2; 3] 4) !! 1).
Proof.
  split; [reflexivity |].
  exact (at_reads_elements (vec [1; 2; 3] 4) 1 eq_refl).
Defined.

Lemma Resize_sets_size_witness :
  Invariant (vec [1; 2; 3] 4) = true /\
  1 < Size (vec [1; 2; 3] 4) /\
  fits plain 6 /\
  (exists this' ys,
     drop 1 (elements (vec [1; 2; 3] 4)) = Some <$> ys /\
     Resize plain 1 (vec [1; 2; 3] 4) [] =
       Normal tt this' ([] ++ ((fun y => Did (Dtor y)) <$> ys)) /\
     Size this' = 1 /\
     elements this' =
       take 1 (elements (vec [1; 2; 3] 4)) ++
       replicate (1 - Size (vec [1; 2; 3] 4)) (Some (value_init plain)) /\
     Capacity this' = Nat.max (Capacity (vec [1; 2; 3] 4)) 1 /\
     Invariant this' = true) /\
  exists this' tr',
    Resize plain 6 (vec [1; 2; 3] 4) [] = Normal tt this' tr' /\
    Size this' = 6 /\
    elements this' =
      take 6 (elements (vec [1; 2; 3] 4)) ++
      replicate (6 - Size (vec [1; 2; 3] 4)) (Some (value_init plain)) /\
    Capacity this' = Nat.max (Capacity (vec [1; 2; 3] 4)) 6 /\
    Invariant this' = true.
Proof.
  assert (Hn : 1 < Size (vec [1; 2; 3] 4)) by (simpl; lia).
  assert (Hf : fits plain 6) by reflexivity.
  destruct (Resize_sets_size plain (vec [1; 2; 3] 4) 1 [] eq_refl)
    as (H1 & H2 & _).
  destruct (H2 Hn) as (this' & ys & Hd & Hr).
  destruct (Resize_sets_size plain (vec [1; 2; 3] 4) 6 [] eq_refl)
    as (G1 & _ & G3 & _).
  destruct (G3 (or_intror Hf) plain_quiet) as (this2 & tr2 & Hg).
  split; [reflexivity |]. split; [exact Hn |]. split; [exact Hf |]. split.
  - exists this', ys. split; [exact Hd |]. split; [exact Hr |].
    exact (H1 _ _ _ Hr).
  - exists this2, tr2. split; [exact Hg |]. exact (G1 _ _ _ Hg).
Defined.

Lemma copy_assign_rebuild_is_strong_witness :
  0 <> 1 /\
  two_vectors !! 0 = Some (vec [7] 1) /\
  two_vectors !! 1 = Some (vec [5; 6] 2) /\
  Invariant (vec [7] 1) = true /\ Invariant (vec [5; 6] 2) = true /\
  Capacity (vec [7] 1) < Size (vec [5; 6] 2) /\
  exists e st' tr',
    Vector_copy_assign (throwing_copy 1) 0 1 two_vectors [] =
      Throws e st' tr' /\
    st' = two_vectors.
Proof.
  assert (Hne : 0 <> 1) by discriminate.
  assert (Hk : Capacity (vec [7] 1) < Size (vec [5; 6] 2))
    by (unfold Capacity, RawMemory_Capacity; simpl; lia).
  split; [exact Hne |]. split; [reflexivity |]. split; [reflexivity |].
  split; [reflexivity |]. split; [reflexivity |]. split; [exact Hk |].
  do 3 eexists. split; [reflexivity |].
  eapply (proj1 (proj2 (copy_assign_rebuild_is_strong (throwing_copy 1) 0 1
                          two_vectors (vec [7] 1) (vec [5; 6] 2) []
                          Hne eq_refl eq_refl eq_refl eq_refl Hk))).
  reflexivity.
Defined.

Lemma copy_assign_fitting_copies_witness :
  1 <> 0 /\
  two_vectors !! 1 = Some (vec [5; 6] 2) /\
  two_vectors !! 0 = Some (vec [7] 1) /\
  Invariant (vec [5; 6] 2) = true /\ Invariant (vec [7] 1) = true /\
  Size (vec [7] 1) <= Capacity (vec [5; 6] 2) /\
  Size (vec [7] 1) < Size (vec [5; 6] 2) /\
  exists st' tr' v',
    Vector_copy_assign plain 1 0 two_vectors [] = Normal tt st' tr' /\
    st' = <[1 := v']> two_vectors /\
    elements v' = elements (vec [7] 1) /\
    Capacity v' = Capacity (vec [5; 6] 2) /\ Invariant v' = true.
Proof.
  assert (Hne : 1 <> 0) by discriminate.
  assert (Hk : Size (vec [7] 1) <= Capacity (vec [5; 6] 2))
    by (unfold Capacity, RawMemory_Capacity; simpl; lia).
  assert (Hs : Size (vec [7] 1) < Size (vec [5; 6] 2)) by (simpl; lia).
  destruct (copy_assign_fitting_copies plain 1 0 two_vectors (vec [5; 6] 2)
              (vec [7] 1) [] Hne eq_refl eq_refl eq_refl eq_refl Hk
              (or_introl Hs)) as [H1 H2].
  destruct (H2 plain_quiet) as (st' & tr' & Hc).
  destruct (H1 _ _ Hc) as (v' & Hv).
  split; [exact Hne |]. split; [reflexivity |]. split; [reflexivity |].
  split; [reflexivity |]. split; [reflexivity |]. split; [exact Hk |].
  split; [exact Hs |].
  exists st', tr', v'. split; [exact Hc | exact Hv].
Defined.

Lemma copy_assign_fitting_longer_corrupts_witness :
  0 <> 1 /\
  short_and_long !! 0 = Some (vec [1] 3) /\
  short_and_long !! 1 = Some (vec [5; 6] 2) /\
  Invariant (vec [1] 3) = true /\ Invariant (vec [5; 6] 2) = true /\
  0 < Size (vec [1] 3) /\ Size (vec [1] 3) < Size (vec [5; 6] 2) /\
  Size (vec [5; 6] 2) <= Capacity (vec [1] 3) /\
  exists st' tr' v',
    Vector_copy_assign plain 0 1 short_and_long [] = Normal tt st' tr' /\
    st' !! 0 = Some v' /\ Size v' = Size (vec [5; 6] 2) /\
    Capacity v' = Capacity (vec [1] 3) /\
    buffer_ (data_ v') !! (Size (vec [5; 6] 2) - 1) = Some None /\
    at_ v' (Size (vec [5; 6] 2) - 1) = None /\ Invariant v' = false.
Proof.
  assert (Hne : 0 <> 1) by discriminate.
  assert (H0 : 0 < Size (vec [1] 3)) by (simpl; lia).
  assert (Hs : Size (vec [1] 3) < Size (vec [5; 6] 2)) by (simpl; lia).
  assert (Hk : Size (vec [5; 6] 2) <= Capacity (vec [1] 3))
    by (unfold Capacity, RawMemory_Capacity; simpl; lia).
  destruct (copy_assign_fitting_longer_corrupts plain 0 1 short_and_long
              (vec [1] 3) (vec [5; 6] 2) [] Hne eq_refl eq_refl eq_refl
              eq_refl H0 Hs Hk) as [H1 H2].
  destruct (H2 plain_quiet) as (st' & tr' & Hc).
  destruct (H1 _ _ Hc) as (v' & Hv).
  split; [exact Hne |]. split; [reflexivity |]. split; [reflexivity |].
  split; [reflexivity |]. split; [reflexivity |]. split; [exact H0 |].
  split; [exact Hs |]. split; [exact Hk |].
  exists st', tr', v'. split; [exact Hc | exact Hv].
Defined.

Lemma copy_assign_touches_only_destination_witness :
  Vector_copy_assign plain 0 1 two_vectors [] =
    Normal tt (<[0 := vec [5; 6] 2]> two_vectors)
      [Did (Alloc 2); Did (CopyCtor 5); Did (CopyCtor 6); Did (Dtor 7)] /\
  1 <> 0 /\
  (<[0 := vec [5; 6] 2]> two_vectors) !! 1 = two_vectors !! 1.
Proof.
  assert (Hne : 1 <> 0) by discriminate.
  split; [reflexivity |]. split; [exact Hne |].
  exact (copy_assign_touches_only_destination plain 0 1 two_vectors
           (<[0 := vec [5; 6] 2]> two_vectors) []
           (or_introl
              (ex_intro _
                 [Did (Alloc 2); Did (CopyCtor 5); Did (CopyCtor 6);
                  Did (Dtor 7)] eq_refl))
           1 Hne).
Defined.

Lemma Swap_exchanges_and_undoes_witness :
  two_vectors !! 0 = Some (vec [7] 1) /\
  two_vectors !! 1 = Some (vec [5; 6] 2) /\
  exists st1,
    Vector_Swap 0 1 two_vectors = Some st1 /\
    st1 !! 0 = Some (vec [5; 6] 2) /\ st1 !! 1 = Some (vec [7] 1) /\
    (forall c, c <> 0 -> c <> 1 -> st1 !! c = two_vectors !! c) /\
    Vector_Swap 0 1 st1 = Some two_vectors.
Proof.
  split; [reflexivity |]. split; [reflexivity |].
  exact (Swap_exchanges_and_undoes 0 1 two_vectors (vec [7] 1) (vec [5; 6] 2)
           eq_refl eq_refl).
Defined.

Lemma Reserve_then_appends_do_not_allocate_witness :
  Invariant (vec [1] 1) = true /\
  Size (vec [1] 1) + length [ByArgs 2; ByArgs 3] <= 3 /\
  fits plain 3 /\
  exists this1 tr1 caps this2 tr2,
    Reserve plain 3 (vec [1] 1) [] = Normal tt this1 tr1 /\
    PushBack_all plain [ByArgs 2; ByArgs 3] this1 tr1 =
      Normal caps this2 tr2 /\
    tr2 = tr1 ++ ((fun a => Did (arg_op a)) <$> [ByArgs 2; ByArgs 3]) /\
    caps = replicate (length [ByArgs 2; ByArgs 3]) (Capacity this1) /\
    Capacity this2 = Capacity this1 /\
    elements this2 =
      elements (vec [1] 1) ++
      ((fun a => Some (arg_value a)) <$> [ByArgs 2; ByArgs 3]).
Proof.
  assert (Hle : Size (vec [1] 1) + length [ByArgs 2; ByArgs 3] <= 3)
    by (simpl; lia).
  assert (Hf : fits plain 3) by reflexivity.
  destruct (proj1 (Reserve_then_appends_do_not_allocate plain (vec [1] 1) 3
                     [ByArgs 2; ByArgs 3] [] eq_refl Hle) (or_intror Hf))
    as [H1 H2].
  destruct (H2 plain_quiet) as (this1 & tr1 & caps & this2 & tr2 & Hr & Hp).
  split; [reflexivity |]. split; [exact Hle |]. split; [exact Hf |].
  exists this1, tr1, caps, this2, tr2.
  split; [exact Hr |]. split; [exact Hp |].
  exact (H1 _ _ _ _ _ _ Hr Hp).
Defined.

Lemma Erase_last_is_PopBack_witness :
  0 < Size (vec [1; 2; 3] 4) /\
  match Erase plain (Size (vec [1; 2; 3] 4) - 1) (vec [1; 2; 3] 4) [] with
  | Normal r this' tr' =>
      r = Size (vec [1; 2; 3] 4) - 1 /\
      PopBack (vec [1; 2; 3] 4) [] = Normal tt this' tr'
  | Throws _ _ _ => False
  | Undefined => PopBack (vec [1; 2; 3] 4) [] = Undefined
  end.
Proof.
  assert (Hpos : 0 < Size (vec [1; 2; 3] 4)) by (simpl; lia).
  split; [exact Hpos |].
  exact (Erase_last_is_PopBack plain (vec [1; 2; 3] 4) [] Hpos).
Defined.

Lemma Emplace_in_place_construct_failure_witness :
  Invariant (vec [1; 2; 3] 4) = true /\
  1 < Size (vec [1; 2; 3] 4) /\
  Size (vec [1; 2; 3] 4) < Capacity (vec [1; 2; 3] 4) /\
  exists this' tr',
    Emplace throwing_construct 1 (ByArgs 99) (vec [1; 2; 3] 4) [] =
      Throws (ElementError (Construct 99)) this' tr' /\
    Size this' = Size (vec [1; 2; 3] 4) /\
    Capacity this' = Capacity (vec [1; 2; 3] 4) /\
    (exists y,
       elements (vec [1; 2; 3] 4) !! 1 = Some (Some y) /\
       take (S (Size (vec [1; 2; 3] 4))) (buffer_ (data_ this')) =
         take 1 (elements (vec [1; 2; 3] 4)) ++
         Some (moved_from throwing_construct y) ::
         drop 1 (elements (vec [1; 2; 3] 4)) /\
       elements this' =
         take 1 (elements (vec [1; 2; 3] 4)) ++
         Some (moved_from throwing_construct y) ::
         take (Size (vec [1; 2; 3] 4) - 2)
           (drop 1 (elements (vec [1; 2; 3] 4)))) /\
    (forall j, Size (vec [1; 2; 3] 4) < j ->
       buffer_ (data_ this') !! j = buffer_ (data_ (vec [1; 2; 3] 4)) !! j) /\
    Invariant this' = false.
Proof.
  assert (Hpos : 1 < Size (vec [1; 2; 3] 4)) by (simpl; lia).
  assert (Hroom : Size (vec [1; 2; 3] 4) < Capacity (vec [1; 2; 3] 4))
    by (unfold Capacity, RawMemory_Capacity; simpl; lia).
  split; [reflexivity |]. split; [exact Hpos |]. split; [exact Hroom |].
  do 2 eexists. split; [reflexivity |].
  eapply (Emplace_in_place_construct_failure throwing_construct
            (vec [1; 2; 3] 4) 1 99 []);
    [reflexivity | exact Hpos | exact Hroom | reflexivity].
Defined.

Lemma Vector_dtor_destroys_elements_witness :
  Invariant (vec [1; 2; 3] 4) = true /\
  elements (vec [1; 2; 3] 4) = Some <$> [1; 2; 3] /\
  Vector_dtor (vec [1; 2; 3] 4) [] =
    Normal tt tt ([] ++ ((fun x => Did (Dtor x)) <$> [1; 2; 3])).
Proof.
  split; [reflexivity |]. split; [reflexivity |].
  exact (Vector_dtor_destroys_elements (vec [1; 2; 3] 4) [1; 2; 3] []
           eq_refl eq_refl).
Defined.

Lemma EmplaceBack_growth_failure_skips_destructor_witness :
  Size (vec [1; 2] 2) = Capacity (vec [1; 2] 2) /\
  EmplaceBack (throwing_copy 2) (ByCopy 3) (vec [1; 2] 2) [] =
    Throws (ElementError (CopyCtor 2)) (vec [1; 2] 2)
      [Did (Alloc 4); Did (CopyCtor 3); Did (CopyCtor 1);
       Raised (CopyCtor 2); Did (Dtor 1)] /\
  Emplace (throwing_copy 2) (Size (vec [1; 2] 2)) (ByCopy 3) (vec [1; 2] 2) [] =
    Throws (ElementError (CopyCtor 2)) (vec [1; 2] 2)
      ([Did (Alloc 4); Did (CopyCtor 3); Did (CopyCtor 1);
        Raised (CopyCtor 2); Did (Dtor 1)] ++ [Did (Dtor 3)]).
Proof.
  split; [reflexivity |]. split; [reflexivity |].
  destruct (EmplaceBack_growth_failure_skips_destructor (throwing_copy 2)
              (vec [1; 2] 2) (ByCopy 3) [] (ElementError (CopyCtor 2))
              (vec [1; 2] 2)
              [Did (Alloc 4); Did (CopyCtor 3); Did (CopyCtor 1);
               Raised (CopyCtor 2); Did (Dtor 1)] eq_refl eq_refl)
    as [[H _] | [[H _] | (t & _ & H)]];
    [discriminate H | discriminate H | exact H].
Defined.
